(** * gopatterns: channel combinators and their goroutines

    The package spawns goroutines that talk over channels.  The embedding
    keeps that shape: every exported function is a state-passing function on
    a [world] (it allocates channels and starts goroutines, then returns),
    every goroutine body is a small machine whose program points are the
    constructors of [goroutine], and a scheduler function [fire] executes one
    choice of the Go runtime (one goroutine alone, or a sender meeting a
    receiver on a channel). *)

From stdpp Require Import base option list.
From Stdlib Require Import ZArith Lia.

Set Default Proof Using "Type".

(** ** Channels, goroutines and the world *)

(** A channel value is a reference into the heap of channels; [None] is the
    nil channel. *)
Abbreviation chan := (option nat).

Section Model.

Context {T : Type} (zero : T) {Mem : Type}.

(** [func() T]: a closure; what it captures is the shared memory [Mem]. *)
Definition func : Type := Mem → T * Mem.

(** State of one channel of element type [T].  [hist] is a ghost log of all
    values the channel has accepted from senders, oldest first. *)
Record chanst : Type := ChanSt {
  cap : nat;
  buf : list T;
  closed : bool;
  hist : list T
}.

(** Program points of the goroutines of the package (and of the ranging
    consumer of the example programs). *)
Inductive goroutine : Type :=
| GReturn
| GDeferred (cs : list chan)
    (* the deferred close calls still to run, in execution order *)
(* Confine *)
| GConfine (fns : list func) (results : chan)
| GConfineSend (r : T) (fns : list func) (results : chan)
(* Repeat *)
| GRepeat (values rest : list T) (stream : chan)
(* Take *)
| GTake (stream : chan) (num i : Z) (taken : chan)
| GTakeSend (v : T) (stream : chan) (num i : Z) (taken : chan)
(* FanIn *)
| GDrain (c : chan) (wg : nat) (multiplexed : chan)
| GDrainSend (val : T) (c : chan) (wg : nat) (multiplexed : chan)
| GDrainDone (wg : nat)
| GWait (wg : nat) (multiplexed : chan)
(* OrDone *)
| GOrDone (c values : chan)
| GOrDoneSend (v : T) (c values : chan)
(* Tee *)
| GTee (in_ left_ right_ : chan)
| GTeeRange (od left_ right_ : chan)
| GTeeSelect (val : T) (out1 out2 : chan) (i : Z) (od left_ right_ : chan)
(* Bridge *)
| GBridge (streams values : chan)
| GBridgeInner (stream streams values : chan)
| GBridgeRange (od streams values : chan)
| GBridgeSend (val : T) (od streams values : chan)
(* Or *)
| GOr (channels : list chan) (orDone : chan)
| GOrSelect (cases : list chan) (orDone : chan)
(* for range c { } *)
| GRange (c : chan).

Record world : Type := World {
  chans : list chanst;          (* heap of the channels of element type T *)
  streams : list (list chan);   (* channels of channels: what is still queued
                                   in each; they are closed behind it *)
  pool : list goroutine;        (* every goroutine started so far *)
  wgs : list nat;               (* sync.WaitGroup counters *)
  mem : Mem;                      (* memory captured by the closures *)
  ctx_done : bool;              (* has ctx.Done() been closed? *)
  panicked : bool
}.

Definition set_chans (f : list chanst → list chanst) (w : world) : world :=
  World (f (chans w)) (streams w) (pool w) (wgs w) (mem w) (ctx_done w) (panicked w).
Definition set_streams (f : list (list chan) → list (list chan)) (w : world) : world :=
  World (chans w) (f (streams w)) (pool w) (wgs w) (mem w) (ctx_done w) (panicked w).
Definition set_pool (f : list goroutine → list goroutine) (w : world) : world :=
  World (chans w) (streams w) (f (pool w)) (wgs w) (mem w) (ctx_done w) (panicked w).
Definition set_wgs (f : list nat → list nat) (w : world) : world :=
  World (chans w) (streams w) (pool w) (f (wgs w)) (mem w) (ctx_done w) (panicked w).
Definition set_mem (m : Mem) (w : world) : world :=
  World (chans w) (streams w) (pool w) (wgs w) m (ctx_done w) (panicked w).
Definition cancel_ctx (w : world) : world :=
  World (chans w) (streams w) (pool w) (wgs w) (mem w) true (panicked w).
Definition panic (w : world) : world :=
  World (chans w) (streams w) (pool w) (wgs w) (mem w) (ctx_done w) true.

(** ** The function bodies: allocate, start goroutines, return *)

Definition M (A : Type) : Type := world → A * world.
Definition ret {A} (a : A) : M A := λ w, (a, w).
Definition bind {A B} (m : M A) (k : A → M B) : M B :=
  λ w, let (a, w') := m w in k a w'.
Notation "'let*' x ':=' m 'in' k" := (bind m (λ x, k))
  (at level 10, x name, m at level 100, k at level 200, only parsing).

(** [make(chan T, n)] *)
Definition make (n : nat) : M chan :=
  λ w, (Some (length (chans w)), set_chans (λ h, h ++ [ChanSt n [] false []]) w).

(** [go func() { ... }()] *)
Definition go (g : goroutine) : M unit :=
  λ w, (tt, set_pool (λ p, p ++ [g]) w).

(** [var wg sync.WaitGroup; wg.Add(n)] *)
Definition new_wg (n : nat) : M nat :=
  λ w, (length (wgs w), set_wgs (λ h, h ++ [n]) w).

Fixpoint go_each {A} (f : A → goroutine) (l : list A) : M unit :=
  match l with
  | [] => ret tt
  | a :: l' => let* _ := go (f a) in go_each f l'
  end.

Definition Confine (fns : list func) : M chan :=
  let* results := make (length fns) in
  let* _ := go (GConfine fns results) in
  ret results.

Definition Repeat (values : list T) : M chan :=
  let* stream := make 0 in
  let* _ := go (GRepeat values values stream) in
  ret stream.

Definition Take (stream : chan) (num : Z) : M chan :=
  let* taken := make 0 in
  let* _ := go (GTake stream num 0 taken) in
  ret taken.

Definition FanIn (channels : list chan) : M chan :=
  let* wg := new_wg (length channels) in
  let* multiplexed := make 0 in
  let* _ := go_each (λ c, GDrain c wg multiplexed) channels in
  let* _ := go (GWait wg multiplexed) in
  ret multiplexed.

Definition OrDone (c : chan) : M chan :=
  let* values := make 0 in
  let* _ := go (GOrDone c values) in
  ret values.

Definition Tee (in_ : chan) : M (chan * chan) :=
  let* left_ := make 0 in
  let* right_ := make 0 in
  let* _ := go (GTee in_ left_ right_) in
  ret (left_, right_).

Definition Bridge (streams_ : chan) : M chan :=
  let* values := make 0 in
  let* _ := go (GBridge streams_ values) in
  ret values.

Definition Or (channels : list chan) : M chan :=
  match channels with
  | [] => ret None
  | [c] => ret c
  | _ =>
      let* orDone := make 0 in
      let* _ := go (GOr channels orDone) in
      ret orDone
  end.

(** ** The goroutine bodies *)

(** One communication clause of a [select], with what the goroutine does
    once the clause has been taken. *)
Inductive clause : Type :=
| CDone (k : goroutine)                          (* case <-ctx.Done(): *)
| CRecv (c : chan) (k : T → bool → goroutine)    (* case v, ok := <-c: *)
| CRecvS (c : chan) (k : chan → bool → goroutine)
| CSend (c : chan) (v : T) (k : goroutine).      (* case c <- v: *)

Inductive instr : Type :=
| ISelect (cls : list clause)   (* a select; a lone channel operation is a
                                   select of one clause *)
| IClose (c : chan) (k : goroutine)
| ICall (f : M chan) (k : chan → goroutine)
| IApply (f : func) (k : T → goroutine)
| IWgDone (wg : nat) (k : goroutine)
| IWgWait (wg : nat) (k : goroutine)
| ISkip (k : goroutine)
| IPanic
| IReturn.

Definition next (g : goroutine) : instr :=
  match g with
  | GReturn => IReturn
  | GDeferred [] => IReturn
  | GDeferred (c :: cs) => IClose c (GDeferred cs)

  (* Confine: for _, do := range fns { results <- do() } *)
  | GConfine [] results => IClose results GReturn
  | GConfine (do :: fns) results =>
      IApply do (λ r, GConfineSend r fns results)
  | GConfineSend r fns results =>
      ISelect [CSend results r (GConfine fns results)]

  (* Repeat: for { for _, v := range values { select ... } } *)
  | GRepeat values [] stream => ISkip (GRepeat values values stream)
  | GRepeat values (v :: rest) stream =>
      ISelect [CDone (GDeferred [stream]);
               CSend stream v (GRepeat values rest stream)]

  (* Take: the operand <-stream of the send clause is evaluated on entering
     the select, before any clause is chosen *)
  | GTake stream num i taken =>
      if (i <? num)%Z
      then ISelect [CRecv stream (λ v _, GTakeSend v stream num i taken)]
      else IClose taken GReturn
  | GTakeSend v stream num i taken =>
      ISelect [CDone (GDeferred [taken]);
               CSend taken v (GTake stream num (i + 1)%Z taken)]

  (* FanIn: drain and the closing goroutine *)
  | GDrain c wg multiplexed =>
      ISelect [CRecv c (λ val ok,
        if ok then GDrainSend val c wg multiplexed else GDrainDone wg)]
  | GDrainSend val c wg multiplexed =>
      ISelect [CDone (GDrainDone wg);
               CSend multiplexed val (GDrain c wg multiplexed)]
  | GDrainDone wg => IWgDone wg GReturn
  | GWait wg multiplexed => IWgWait wg (GDeferred [multiplexed])

  (* OrDone *)
  | GOrDone c values =>
      ISelect [CDone (GDeferred [values]);
               CRecv c (λ v ok,
                 if ok then GOrDoneSend v c values else GDeferred [values])]
  | GOrDoneSend v c values =>
      ISelect [CSend values v (GOrDone c values);
               CDone (GOrDone c values)]

  (* Tee: defer close(left); defer close(right) run in reverse order *)
  | GTee in_ left_ right_ =>
      ICall (OrDone in_) (λ od, GTeeRange od left_ right_)
  | GTeeRange od left_ right_ =>
      ISelect [CRecv od (λ val ok,
        if ok then GTeeSelect val left_ right_ 0 od left_ right_
        else GDeferred [right_; left_])]
  | GTeeSelect val out1 out2 i od left_ right_ =>
      if (i <? 2)%Z
      then ISelect [CDone (GTeeSelect val out1 out2 (i + 1)%Z od left_ right_);
                    CSend out1 val (GTeeSelect val None out2 (i + 1)%Z od left_ right_);
                    CSend out2 val (GTeeSelect val out1 None (i + 1)%Z od left_ right_)]
      else ISkip (GTeeRange od left_ right_)

  (* Bridge *)
  | GBridge streams_ values =>
      ISelect [CRecvS streams_ (λ maybe ok,
                 if ok then GBridgeInner maybe streams_ values
                 else GDeferred [values]);
               CDone (GDeferred [values])]
  | GBridgeInner stream streams_ values =>
      ICall (OrDone stream) (λ od, GBridgeRange od streams_ values)
  | GBridgeRange od streams_ values =>
      ISelect [CRecv od (λ val ok,
        if ok then GBridgeSend val od streams_ values
        else GBridge streams_ values)]
  | GBridgeSend val od streams_ values =>
      ISelect [CSend values val (GBridgeRange od streams_ values);
               CDone (GBridgeRange od streams_ values)]

  (* Or: the goroutine body switches on len(channels) again *)
  | GOr channels orDone =>
      match channels with
      | [c0; c1] => ISkip (GOrSelect [c0; c1] orDone)
      | c0 :: c1 :: c2 :: rest =>
          ICall (Or (rest ++ [orDone]))
                (λ r, GOrSelect [c0; c1; c2; r] orDone)
      | _ => IPanic   (* channels[0] or channels[1] out of range *)
      end
  | GOrSelect cases orDone =>
      ISelect ((λ c, CRecv c (λ _ _, GDeferred [orDone])) <$> cases)

  | GRange c =>
      ISelect [CRecv c (λ _ ok, if ok then GRange c else GReturn)]
  end.


(** ** The scheduler *)

(** What the runtime may do next: let goroutine [i] proceed alone (through
    clause [b] when it stands at a select), or let the send clause [bi] of
    goroutine [i] meet the receive clause [bj] of goroutine [j]. *)
Inductive choice : Type :=
| Solo (i b : nat)
| Sync (i bi j bj : nat).

Definition resume (i : nat) (g : goroutine) (w : world) : world :=
  set_pool (λ p, <[i:=g]> p) w.

Definition put_chan (c : nat) (st : chanst) (w : world) : world :=
  set_chans (λ h, <[c:=st]> h) w.

(** One clause taken by one goroutine alone: cancellation, a receive served
    from the buffer or from a closed channel, a send into a free buffer
    slot.  Operations on the nil channel are never ready; a send on a closed
    channel panics. *)
Definition fire_clause (i : nat) (cl : clause) (w : world) : option world :=
  match cl with
  | CDone k => if ctx_done w then Some (resume i k w) else None
  | CRecv None _ => None
  | CRecv (Some c) k =>
      st ← chans w !! c;
      match buf st with
      | v :: rest =>
          Some (resume i (k v true)
                  (put_chan c (ChanSt (cap st) rest (closed st) (hist st)) w))
      | [] => if closed st then Some (resume i (k zero false) w) else None
      end
  | CRecvS None _ => None
  | CRecvS (Some c) k =>
      q ← streams w !! c;
      match q with
      | s :: rest => Some (resume i (k s true) (set_streams (λ h, <[c:=rest]> h) w))
      | [] => Some (resume i (k None false) w)
      end
  | CSend None _ _ => None
  | CSend (Some c) v k =>
      st ← chans w !! c;
      if closed st then Some (panic w)
      else if decide (length (buf st) < cap st)
      then Some (resume i k
                   (put_chan c (ChanSt (cap st) (buf st ++ [v]) false (hist st ++ [v])) w))
      else None
  end.

Definition fire (ch : choice) (w : world) : option world :=
  if panicked w then None else
  match ch with
  | Solo i b =>
      g ← pool w !! i;
      match next g with
      | ISelect cls => cl ← cls !! b; fire_clause i cl w
      | IClose None _ => Some (panic w)
      | IClose (Some c) k =>
          st ← chans w !! c;
          if closed st then Some (panic w)
          else Some (resume i k
                       (put_chan c (ChanSt (cap st) (buf st) true (hist st)) w))
      | ICall f k => let (r, w') := f w in Some (resume i (k r) w')
      | IApply f k => let (r, m) := f (mem w) in Some (resume i (k r) (set_mem m w))
      | IWgDone wg k =>
          n ← wgs w !! wg;
          match n with
          | O => Some (panic w)
          | S n' => Some (resume i k (set_wgs (λ h, <[wg:=n']> h) w))
          end
      | IWgWait wg k =>
          n ← wgs w !! wg;
          match n with
          | O => Some (resume i k w)
          | _ => None
          end
      | ISkip k => Some (resume i k w)
      | IPanic => Some (panic w)
      | IReturn => None
      end
  | Sync i bi j bj =>
      if decide (i = j) then None else
      gi ← pool w !! i;
      gj ← pool w !! j;
      match next gi, next gj with
      | ISelect clsi, ISelect clsj =>
          a ← clsi !! bi;
          b ← clsj !! bj;
          match a, b with
          | CSend (Some c) v ks, CRecv (Some c') kr =>
              if decide (c = c') then
                st ← chans w !! c;
                match closed st, buf st with
                | false, [] =>
                    Some (resume j (kr v true)
                            (resume i ks
                               (put_chan c (ChanSt (cap st) [] false (hist st ++ [v])) w)))
                | _, _ => None
                end
              else None
          | _, _ => None
          end
      | _, _ => None
      end
  end.

(** A schedule is a list of choices; [run] is [None] when some choice of the
    schedule is not enabled where it is made. *)
Fixpoint run (sched : list choice) (w : world) : option world :=
  match sched with
  | [] => Some w
  | ch :: sched' => w' ← fire ch w; run sched' w'
  end.

(** ** Client programs *)

(** An input stream that carries [xs] and is then closed. *)
Definition filled (xs : list T) : chanst := ChanSt (length xs) xs true xs.

Definition world0 (inputs : list (list T)) (m : Mem) : world :=
  World (filled <$> inputs) [] [] [] m false false.

(** [for range Take(ctx, stream, num) { }] over a stream carrying [xs]. *)
Definition take_world (xs : list T) (num : Z) (m : Mem) : world :=
  let (taken, w) := Take (Some 0) num (world0 [xs] m) in
  snd (go (GRange taken) w).

(** [for range Take(ctx, Repeat(ctx, values...), num) { }] *)
Definition repeat_take_world (values : list T) (num : Z) (m : Mem) : world :=
  let (stream, w1) := Repeat values (world0 [] m) in
  let (taken, w2) := Take stream num w1 in
  snd (go (GRange taken) w2).

(** [for range Repeat(ctx, values...) { }], with [ctx] cancelled or not. *)
Definition repeat_world (values : list T) (m : Mem) (cancelled : bool) : world :=
  let (stream, w) := Repeat values (World [] [] [] [] m cancelled false) in
  snd (go (GRange stream) w).

(** [for range Confine(fns...) { }] *)
Definition confine_world (fns : list func) (m : Mem) : world :=
  let (results, w) := Confine fns (world0 [] m) in
  snd (go (GRange results) w).

(** [left, right := Tee(ctx, in)], each output ranged over by a consumer of
    its own. *)
Definition tee_world (xs : list T) (m : Mem) : world :=
  let '((left_, right_), w) := Tee (Some 0) (world0 [xs] m) in
  snd (go (GRange right_) (snd (go (GRange left_) w))).

(** [for range FanIn(ctx, c0, ..., cK-1) { }] over K distinct streams. *)
Definition fanin_world (xss : list (list T)) (m : Mem) : world :=
  let (multiplexed, w) := FanIn (Some <$> seq 0 (length xss)) (world0 xss m) in
  snd (go (GRange multiplexed) w).

(** [for range Bridge(ctx, streams) { }] where [streams] carries the channels
    of [xss] in order. *)
Definition bridge_world (xss : list (list T)) (m : Mem) : world :=
  let w0 := set_streams (λ _, [Some <$> seq 0 (length xss)]) (world0 xss m) in
  let (values, w) := Bridge (Some 0) w0 in
  snd (go (GRange values) w).

(** The environment may cancel the context between any two choices. *)
Inductive event : Type :=
| Step (ch : choice)
| CancelCtx.

Definition occur (e : event) (w : world) : option world :=
  match e with
  | Step ch => fire ch w
  | CancelCtx => Some (cancel_ctx w)
  end.

Fixpoint run_events (evs : list event) (w : world) : option world :=
  match evs with
  | [] => Some w
  | e :: evs' => w' ← occur e w; run_events evs' w'
  end.

(** What successive receives read from a stream that carries [xs] and is
    then closed: its values, then the zero value for ever. *)
Definition recv_at (xs : list T) (k : nat) : T := default zero (xs !! k).

Definition take_output (xs : list T) (n : nat) : list T := recv_at xs <$> seq 0 n.

(** ** Invariants of the client programs

    Each invariant lists the worlds a program can reach; its index bounds the
    number of choices that can still be made. *)

Inductive take_inv (xs : list T) (num : Z) (m : Mem) : nat → world → Prop :=
| take_at_recv k b h :
    k ≤ Z.to_nat num → b = drop k xs → h = take_output xs k →
    take_inv xs num m (2 * (Z.to_nat num - k) + 2)
      (World [ChanSt (length xs) b true xs; ChanSt 0 [] false h] []
             [GTake (Some 0) num (Z.of_nat k) (Some 1); GRange (Some 1)]
             [] m false false)
| take_at_send k b h v :
    k < Z.to_nat num → b = drop (S k) xs → h = take_output xs k →
    v = recv_at xs k →
    take_inv xs num m (2 * (Z.to_nat num - k) + 1)
      (World [ChanSt (length xs) b true xs; ChanSt 0 [] false h] []
             [GTakeSend v (Some 0) num (Z.of_nat k) (Some 1); GRange (Some 1)]
             [] m false false)
| take_closing b h :
    h = take_output xs (Z.to_nat num) →
    take_inv xs num m 1
      (World [ChanSt (length xs) b true xs; ChanSt 0 [] true h] []
             [GReturn; GRange (Some 1)] [] m false false)
| take_finished b h :
    h = take_output xs (Z.to_nat num) →
    take_inv xs num m 0
      (World [ChanSt (length xs) b true xs; ChanSt 0 [] true h] []
             [GReturn; GReturn] [] m false false).

(** The ranging consumer of channel [c]: it returns only once [c] is
    closed. *)
Inductive sink_inv (c : chan) : goroutine → bool → nat → Prop :=
| sink_ranging cl : sink_inv c (GRange c) cl 1
| sink_returned : sink_inv c GReturn true 0.

(** *** Confine *)

(** Calling the functions one after another, each on the memory the one
    before it left. *)
Fixpoint call_all (fns : list func) (m : Mem) : list T * Mem :=
  match fns with
  | [] => ([], m)
  | f :: fns' =>
      let (r, m1) := f m in
      let (rs, m2) := call_all fns' m1 in
      (r :: rs, m2)
  end.

Inductive confine_inv (fns : list func) (m0 : Mem) :
    goroutine → chanst → Mem → nat → Prop :=
| confine_calling s fs b h m :
    fs = drop s fns → s ≤ length fns → length b ≤ s →
    call_all (take s fns) m0 = (h, m) →
    confine_inv fns m0 (GConfine fs (Some 0)) (ChanSt (length fns) b false h) m
      (3 * (length fns - s) + 2 + length b)
| confine_sending s fs b h r m :
    fs = drop (S s) fns → s < length fns → length b ≤ s →
    call_all (take (S s) fns) m0 = (h ++ [r], m) →
    confine_inv fns m0 (GConfineSend r fs (Some 0)) (ChanSt (length fns) b false h) m
      (3 * (length fns - s) + 1 + length b)
| confine_returned b h m :
    call_all fns m0 = (h, m) →
    confine_inv fns m0 GReturn (ChanSt (length fns) b true h) m (length b).

Inductive confine_world_inv (fns : list func) (m0 : Mem) : nat → world → Prop :=
| confine_world_running gc gs st m nc ns :
    confine_inv fns m0 gc st m nc →
    sink_inv (Some 0) gs (closed st) ns →
    confine_world_inv fns m0 (nc + ns)
      (World [st] [] [gc; gs] [] m false false).

(** *** Take over Repeat *)

(** The [k]-th value Repeat sends. *)
Definition cycle_at (values : list T) (k : nat) : T :=
  default zero (values !! (k mod length values)).

Definition repeat_output (values : list T) (n : nat) : list T :=
  cycle_at values <$> seq 0 n.

(** Repeat at offset [p] of its pass number [q] over [values]. *)
Inductive repeat_inv (values : list T) (stream : chan) :
    goroutine → nat → nat → nat → Prop :=
| repeat_in_pass q p rest :
    p ≤ length values → rest = drop p values →
    repeat_inv values stream (GRepeat values rest stream) q p
      (if decide (p = length values) then 1 else 0).

(** Take reading what Repeat sends: [k] values have left Repeat. *)
Inductive take_of_repeat_inv (values : list T) (num : Z) :
    goroutine → nat → chanst → nat → Prop :=
| tr_recv k i h :
    k ≤ Z.to_nat num → i = Z.of_nat k → h = repeat_output values k →
    take_of_repeat_inv values num (GTake (Some 0) num i (Some 1)) k
      (ChanSt 0 [] false h) (3 * (Z.to_nat num - k) + 3)
| tr_send k i h v :
    k < Z.to_nat num → i = Z.of_nat k → h = repeat_output values k →
    v = cycle_at values k →
    take_of_repeat_inv values num (GTakeSend v (Some 0) num i (Some 1)) (S k)
      (ChanSt 0 [] false h) (3 * (Z.to_nat num - k) + 1)
| tr_closed k h :
    h = repeat_output values (Z.to_nat num) →
    take_of_repeat_inv values num GReturn k (ChanSt 0 [] true h) 0.

Inductive repeat_take_inv (values : list T) (num : Z) (m : Mem) : nat → world → Prop :=
| repeat_take_running gr gt gs q p k hs st nr nt ns :
    repeat_inv values (Some 0) gr q p nr →
    take_of_repeat_inv values num gt k st nt →
    sink_inv (Some 1) gs (closed st) ns →
    k = q * length values + p →
    hs = repeat_output values k →
    repeat_take_inv values num m (nr + nt + ns)
      (World [ChanSt 0 [] false hs; st] [] [gr; gt; gs] [] m false false).

(** *** Tee *)

(** OrDone between a closed stream carrying [xs] and its ranging consumer:
    [j] values have been handed over. *)
Inductive ordone_inv (xs : list T) (c values : chan) :
    goroutine → list T → chanst → nat → nat → Prop :=
| ordone_recv j b h :
    b = drop j xs → h = take j xs →
    ordone_inv xs c values (GOrDone c values) b (ChanSt 0 [] false h) j
      (2 * (length xs - j) + 2)
| ordone_send j v b h :
    xs !! j = Some v → b = drop (S j) xs → h = take j xs →
    ordone_inv xs c values (GOrDoneSend v c values) b (ChanSt 0 [] false h) j
      (2 * (length xs - j) + 1)
| ordone_closing j h :
    length xs ≤ j → h = xs →
    ordone_inv xs c values (GDeferred [values]) [] (ChanSt 0 [] false h) j 1
| ordone_closed j h :
    length xs ≤ j → h = xs →
    ordone_inv xs c values (GDeferred []) [] (ChanSt 0 [] true h) j 0.

Inductive tee_inv (xs : list T) (od left_ right_ : chan) :
    goroutine → nat → chanst → chanst → nat → Prop :=
| tee_range j hl hr :
    hl = take j xs → hr = take j xs →
    tee_inv xs od left_ right_ (GTeeRange od left_ right_) j
      (ChanSt 0 [] false hl) (ChanSt 0 [] false hr)
      (4 * (length xs - j) + 3)
| tee_both j v hl hr :
    xs !! j = Some v → hl = take j xs → hr = take j xs →
    tee_inv xs od left_ right_ (GTeeSelect v left_ right_ 0 od left_ right_) (S j)
      (ChanSt 0 [] false hl) (ChanSt 0 [] false hr)
      (4 * (length xs - S j) + 6)
| tee_left_sent j v hl hr :
    xs !! j = Some v → hl = take (S j) xs → hr = take j xs →
    tee_inv xs od left_ right_ (GTeeSelect v None right_ 1 od left_ right_) (S j)
      (ChanSt 0 [] false hl) (ChanSt 0 [] false hr)
      (4 * (length xs - S j) + 5)
| tee_right_sent j v hl hr :
    xs !! j = Some v → hl = take j xs → hr = take (S j) xs →
    tee_inv xs od left_ right_ (GTeeSelect v left_ None 1 od left_ right_) (S j)
      (ChanSt 0 [] false hl) (ChanSt 0 [] false hr)
      (4 * (length xs - S j) + 5)
| tee_both_sent j v hl hr :
    xs !! j = Some v → hl = take (S j) xs → hr = take (S j) xs →
    tee_inv xs od left_ right_ (GTeeSelect v None None 2 od left_ right_) (S j)
      (ChanSt 0 [] false hl) (ChanSt 0 [] false hr)
      (4 * (length xs - S j) + 4)
| tee_closing_right j hl hr :
    length xs ≤ j → hl = xs → hr = xs →
    tee_inv xs od left_ right_ (GDeferred [right_; left_]) j
      (ChanSt 0 [] false hl) (ChanSt 0 [] false hr) 2
| tee_closing_left j hl hr :
    length xs ≤ j → hl = xs → hr = xs →
    tee_inv xs od left_ right_ (GDeferred [left_]) j
      (ChanSt 0 [] false hl) (ChanSt 0 [] true hr) 1
| tee_closed j hl hr :
    length xs ≤ j → hl = xs → hr = xs →
    tee_inv xs od left_ right_ (GDeferred []) j
      (ChanSt 0 [] true hl) (ChanSt 0 [] true hr) 0.

Inductive tee_world_inv (xs : list T) (m : Mem) : nat → world → Prop :=
| tee_world_start :
    tee_world_inv xs m (6 * length xs + 8) (tee_world xs m)
| tee_world_running gt gl gr go bin stl str stv j nt no nl nr :
    tee_inv xs (Some 3) (Some 1) (Some 2) gt j stl str nt →
    ordone_inv xs (Some 0) (Some 3) go bin stv j no →
    sink_inv (Some 1) gl (closed stl) nl →
    sink_inv (Some 2) gr (closed str) nr →
    tee_world_inv xs m (nt + no + nl + nr)
      (World [ChanSt (length xs) bin true xs; stl; str; stv] []
             [gt; gl; gr; go] [] m false false).

(** *** FanIn *)

(** Where one drain goroutine of FanIn stands, with what is left in the
    stream it reads. *)
Inductive drain_st : Type :=
| DRecv (b : list T)
| DSend (val : T) (b : list T)
| DDone
| DExit.

Definition drain_goroutine (K i : nat) (d : drain_st) : goroutine :=
  match d with
  | DRecv _ => GDrain (Some i) 0 (Some K)
  | DSend val _ => GDrainSend val (Some i) 0 (Some K)
  | DDone => GDrainDone 0
  | DExit => GReturn
  end.

Definition drain_buf (d : drain_st) : list T :=
  match d with
  | DRecv b | DSend _ b => b
  | _ => []
  end.

Definition drain_chan (xs : list T) (d : drain_st) : chanst :=
  ChanSt (length xs) (drain_buf d) true xs.

(** The values a drain has not passed on yet. *)
Definition drain_pending (d : drain_st) : list T :=
  match d with
  | DRecv b => b
  | DSend val b => val :: b
  | _ => []
  end.

Definition drain_rank (d : drain_st) : nat :=
  match d with
  | DRecv b => 2 * length b + 2
  | DSend _ b => 2 * length b + 3
  | DDone => 1
  | DExit => 0
  end.

Definition drain_live (d : drain_st) : nat :=
  match d with
  | DExit => 0
  | _ => 1
  end.

(** The goroutine that waits for the drains and closes [multiplexed]. *)
Inductive waiter_inv (K : nat) : goroutine → bool → nat → nat → Prop :=
| waiter_waiting n : waiter_inv K (GWait 0 (Some K)) false n 2
| waiter_closing : waiter_inv K (GDeferred [Some K]) false 0 1
| waiter_closed : waiter_inv K (GDeferred []) true 0 0.

Inductive fanin_inv (xss : list (list T)) (m : Mem) : nat → world → Prop :=
| fanin_running ds gw gs cm hm n nw ns :
    length ds = length xss →
    waiter_inv (length xss) gw cm n nw →
    sink_inv (Some (length xss)) gs cm ns →
    n = sum_list_with drain_live ds →
    hm ++ concat (drain_pending <$> ds) ≡ₚ concat xss →
    fanin_inv xss m (sum_list_with drain_rank ds + nw + ns)
      (World (zip_with drain_chan xss ds ++ [ChanSt 0 [] cm hm]) []
             (imap (drain_goroutine (length xss)) ds ++ [gw; gs])
             [n] m false false).

(** *** Bridge *)

(** The inner streams once Bridge has drained the first [d] of them and
    stream [d] still holds [b]. *)
Definition inner_chans (xss : list (list T)) (d : nat) (b : list T) : list chanst :=
  imap (λ i xs, ChanSt (length xs)
                  (if decide (i < d) then [] else if decide (i = d) then b else xs)
                  true xs) xss.

(** The output channels of the OrDone goroutines that have returned. *)
Definition closed_dyn (xss : list (list T)) (d : nat) : list chanst :=
  (λ xs, ChanSt 0 [] true xs) <$> take d xss.

Definition stream_cost (xs : list T) : nat := 4 * length xs + 5.

(** The goroutine of Bridge at inner stream [d]: the offset reached in
    [streams], the live OrDone goroutine and its channel if there is one,
    what stream [d] still holds, and the log of [values]. *)
Inductive bridge_inv (xss : list (list T)) (d : nat) :
    goroutine → nat → list goroutine → list chanst → list T → bool → list T → nat → Prop :=
| bridge_outer hout :
    hout = concat (take d xss) →
    bridge_inv xss d (GBridge (Some 0) (Some (length xss))) d [] []
      (default [] (xss !! d)) false hout
      (sum_list_with stream_cost (drop d xss) + 2)
| bridge_inner xs hout :
    xss !! d = Some xs → hout = concat (take d xss) →
    bridge_inv xss d (GBridgeInner (Some d) (Some 0) (Some (length xss))) (S d) [] []
      xs false hout
      (sum_list_with stream_cost (drop d xss) + 1)
| bridge_range xs go bin stv j no hout :
    xss !! d = Some xs →
    ordone_inv xs (Some d) (Some (length xss + 1 + d)) go bin stv j no →
    hout = concat (take d xss) ++ take j xs →
    bridge_inv xss d
      (GBridgeRange (Some (length xss + 1 + d)) (Some 0) (Some (length xss)))
      (S d) [go] [stv] bin false hout
      (sum_list_with stream_cost (drop (S d) xss) + no + 2 * (length xs - j) + 3)
| bridge_send xs go bin stv j val no hout :
    xss !! d = Some xs → xs !! j = Some val →
    ordone_inv xs (Some d) (Some (length xss + 1 + d)) go bin stv (S j) no →
    hout = concat (take d xss) ++ take j xs →
    bridge_inv xss d
      (GBridgeSend val (Some (length xss + 1 + d)) (Some 0) (Some (length xss)))
      (S d) [go] [stv] bin false hout
      (sum_list_with stream_cost (drop (S d) xss) + no + 2 * (length xs - S j) + 4)
| bridge_closing hout :
    length xss ≤ d → hout = concat xss →
    bridge_inv xss d (GDeferred [Some (length xss)]) d [] [] [] false hout 1
| bridge_closed hout :
    length xss ≤ d → hout = concat xss →
    bridge_inv xss d (GDeferred []) d [] [] [] true hout 0.

Inductive bridge_world_inv (xss : list (list T)) (m : Mem) : nat → world → Prop :=
| bridge_running d gb gs soff live dynlive b cl hout nb ns :
    d ≤ length xss →
    bridge_inv xss d gb soff live dynlive b cl hout nb →
    sink_inv (Some (length xss)) gs cl ns →
    bridge_world_inv xss m (nb + ns)
      (World (inner_chans xss d b ++ ChanSt 0 [] cl hout :: (closed_dyn xss d ++ dynlive))
             [drop soff (Some <$> seq 0 (length xss))]
             (gb :: gs :: (replicate d (GDeferred []) ++ live))
             [] m false false).


(** *** Or *)

(** [Or(channels...)] called in a world without goroutines. *)
Definition or_world (heap : list chanst) (channels : list chan) (m : Mem)
    (cancelled : bool) : world :=
  snd (Or channels (World heap [] [] [] m cancelled false)).

(** The goroutines Or starts, at any point of their body. *)
Inductive or_kind : goroutine → Prop :=
| or_kind_start channels orDone :
    2 ≤ length channels → or_kind (GOr channels orDone)
| or_kind_select cases orDone : or_kind (GOrSelect cases orDone)
| or_kind_deferred cs : or_kind (GDeferred cs)
| or_kind_return : or_kind GReturn.

(** An upper bound on the choices a goroutine of Or can still make, the
    goroutines it will start included. *)
Definition or_rank (g : goroutine) : nat :=
  match g with
  | GOr channels _ => 3 * length channels
  | GOrSelect _ _ => 2
  | GDeferred cs => length cs
  | _ => 0
  end.

(** How many goroutines a goroutine of Or will still start. *)
Definition or_spawns (g : goroutine) : nat :=
  match g with
  | GOr channels _ => length channels / 2 - 1
  | _ => 0
  end.

Definition or_inv (bound : nat) (n : nat) (w : world) : Prop :=
  Forall or_kind (pool w)
  ∧ length (pool w) + sum_list_with or_spawns (pool w) ≤ bound
  ∧ n = if panicked w then 0 else 1 + sum_list_with or_rank (pool w).

(** *** Or under a changing environment *)

(** What may happen next to a program that called Or on channels it still
    owns: a choice of the runtime, or the owner of input channel [c] closes
    it, puts a value into its buffer, or hands a value to a goroutine that
    waits at the receive clause [bj] of its select.  The owners do not close
    a channel twice and do not send on a closed channel (either would panic
    on their side), and nobody but the goroutines in the pool receives from
    the inputs. *)
Inductive or_event : Type :=
| Move (ch : choice)
| InputClose (c : nat)
| InputSend (c : nat) (v : T)
| InputHandoff (c : nat) (v : T) (j bj : nat).

Definition or_occur (n : nat) (e : or_event) (w : world) : option world :=
  match e with
  | Move ch => fire ch w
  | InputClose c =>
      if decide (c < n) then
        st ← chans w !! c;
        if closed st then None
        else Some (put_chan c (ChanSt (cap st) (buf st) true (hist st)) w)
      else None
  | InputSend c v =>
      if decide (c < n) then
        st ← chans w !! c;
        if closed st then None
        else if decide (length (buf st) < cap st)
        then Some (put_chan c (ChanSt (cap st) (buf st ++ [v]) false (hist st ++ [v])) w)
        else None
      else None
  | InputHandoff c v j bj =>
      if decide (c < n) then
        st ← chans w !! c;
        g ← pool w !! j;
        match closed st, buf st, next g with
        | false, [], ISelect cls =>
            cl ← cls !! bj;
            match cl with
            | CRecv (Some c') k =>
                if decide (c = c')
                then Some (resume j (k v true)
                             (put_chan c (ChanSt (cap st) [] false (hist st ++ [v])) w))
                else None
            | _ => None
            end
        | _, _, _ => None
        end
      else None
  end.

Fixpoint or_run (n : nat) (evs : list or_event) (w : world) : option world :=
  match evs with
  | [] => Some w
  | e :: evs' => w' ← or_occur n e w; or_run n evs' w'
  end.

(** The events in which a goroutine moves. *)
Definition or_moves (evs : list or_event) : nat :=
  sum_list_with (λ e, match e with Move _ | InputHandoff _ _ _ _ => 1 | _ => 0 end) evs.

(** [derived := Or(channels...)] over the channels of [heap], then [k]
    consumers, each running [for range derived { }]. *)
Definition or_client (heap : list chanst) (channels : list chan) (k : nat)
    (m : Mem) : world :=
  let (derived, w) := Or channels (World heap [] [] [] m false false) in
  snd (go_each (λ _ : nat, GRange derived) (seq 0 k) w).

(** An input has resolved once it is closed or has accepted a value; it is
    ready while it is closed or holds a value. *)
Definition resolved (st : chanst) : Prop := closed st = true ∨ hist st ≠ [].
Definition ready (st : chanst) : Prop := closed st = true ∨ buf st ≠ [].

(** Where the goroutine of one call of Or stands. *)
Inductive or_st : Type := OStart | OSelect | OClosing | ODone.

(** The arguments of the [j]-th nested call of Or, over [n] input channels:
    each call passes on [channels[3:]] and its own [orDone], the channel
    made [j]-th. *)
Fixpoint or_args (channels : list chan) (n j : nat) : list chan :=
  match j with
  | 0 => channels
  | S j' => drop 3 (or_args channels n j') ++ [Some (n + j')]
  end.

(** The channels the [j]-th goroutine selects on. *)
Definition or_cases (channels : list chan) (n j : nat) : list chan :=
  match or_args channels n j with
  | [c0; c1] => [c0; c1]
  | c0 :: c1 :: c2 :: rest =>
      [c0; c1; c2; Some (n + match rest with [] => j | _ => S j end)]
  | _ => []
  end.

Definition or_goroutine (channels : list chan) (n j : nat) (s : or_st) : goroutine :=
  match s with
  | OStart => GOr (or_args channels n j) (Some (n + j))
  | OSelect => GOrSelect (or_cases channels n j) (Some (n + j))
  | OClosing => GDeferred [Some (n + j)]
  | ODone => GDeferred []
  end.

Definition or_chan (s : or_st) : chanst :=
  ChanSt 0 [] (match s with ODone => true | _ => false end) [].

Definition or_consumer (n : nat) (returned : bool) : goroutine :=
  if returned then GReturn else GRange (Some n).

(** The pool: the first goroutine of Or, the consumers, then the goroutines
    of the nested calls. *)
Definition or_pool (channels : list chan) (n : nat) (sts : list or_st)
    (cons : list bool) : list goroutine :=
  match imap (or_goroutine channels n) sts with
  | [] => or_consumer n <$> cons
  | g :: gs => g :: (or_consumer n <$> cons) ++ gs
  end.

Definition or_idx (k j : nat) : nat :=
  match j with
  | 0 => 0
  | S j' => S (k + j')
  end.

Definition past (s : or_st) : Prop := s = OClosing ∨ s = ODone.

Definition or_st_rank (s : or_st) : nat :=
  match s with
  | OStart => 3
  | OSelect => 2
  | OClosing => 1
  | ODone => 0
  end.

(** Only the goroutine started last may still be at its start, and a
    started goroutine with four channels or more has started the next. *)
Definition or_chain (len : nat) (sts : list or_st) : Prop :=
  1 ≤ length sts
  ∧ 2 * length sts ≤ len
  ∧ (∀ j, sts !! j = Some OStart → S j = length sts)
  ∧ ((∃ j, sts !! j = Some OStart) ∨ len ≤ 2 * length sts + 1).

(** A goroutine is past its select only after an input has resolved, and
    a resolved input is still ready unless a goroutine is past its select. *)
Definition or_track (channels : list chan) (ins : list chanst) (sts : list or_st) : Prop :=
  Forall (λ st, buf st = [] ∨ hist st ≠ []) ins
  ∧ (Exists past sts →
       ∃ i st, Some i ∈ channels ∧ ins !! i = Some st ∧ resolved st)
  ∧ ((∃ i st, Some i ∈ channels ∧ ins !! i = Some st ∧ resolved st) →
       (∃ i st, Some i ∈ channels ∧ ins !! i = Some st ∧ ready st)
       ∨ Exists past sts).

(** An upper bound on the moves the goroutines can still make. *)
Definition or_close_rank (len : nat) (sts : list or_st) (cons : list bool) : nat :=
  3 * (len - 2 * length sts) + sum_list_with or_st_rank sts
  + sum_list_with (λ b : bool, if b then 0 else 1) cons.

Inductive or_close_inv (channels : list chan) (n k : nat) : nat → world → Prop :=
| or_close_running w ins sts cons :
    chans w = ins ++ (or_chan <$> sts) →
    pool w = or_pool channels n sts cons →
    panicked w = false →
    length ins = n →
    length cons = k →
    or_chain (length channels) sts →
    or_track channels ins sts →
    (true ∈ cons → sts !! 0 = Some ODone) →
    or_close_inv channels n k (or_close_rank (length channels) sts cons) w.

(** ** Cancellation *)

(** The choices of the runtime among the events of a run; cancelling the
    context is the environment's doing. *)
Definition event_steps (evs : list event) : nat :=
  sum_list_with (λ e, match e with Step _ => 1 | CancelCtx => 0 end) evs.

(** *** Take *)

(** Take with [k] values forwarded, the input buffer and the output next to
    it; the boolean tells whether the context has been cancelled. *)
Inductive take_cancel_inv (xs : list T) (num : Z) :
    goroutine → list T → chanst → bool → nat → Prop :=
| tc_recv k b h d :
    k ≤ Z.to_nat num → b = drop k xs → h = take_output xs k →
    take_cancel_inv xs num (GTake (Some 0) num (Z.of_nat k) (Some 1))
      b (ChanSt 0 [] false h) d (2 * (Z.to_nat num - k) + 1)
| tc_send k b h d v :
    k < Z.to_nat num → b = drop (S k) xs → h = take_output xs k →
    v = recv_at xs k →
    take_cancel_inv xs num (GTakeSend v (Some 0) num (Z.of_nat k) (Some 1))
      b (ChanSt 0 [] false h) d (2 * (Z.to_nat num - k))
| tc_cancelled k b h :
    k < Z.to_nat num → b = drop (S k) xs → h = take_output xs k →
    take_cancel_inv xs num (GDeferred [Some 1]) b (ChanSt 0 [] false h) true 1
| tc_cancelled_closed k b h :
    k < Z.to_nat num → b = drop (S k) xs → h = take_output xs k →
    take_cancel_inv xs num (GDeferred []) b (ChanSt 0 [] true h) true 0
| tc_finished b h d :
    b = drop (Z.to_nat num) xs → h = take_output xs (Z.to_nat num) →
    take_cancel_inv xs num GReturn b (ChanSt 0 [] true h) d 0.

Inductive take_cancel_world_inv (xs : list T) (num : Z) (m : Mem) : nat → world → Prop :=
| take_cancel_running gt gs b st d nt ns :
    take_cancel_inv xs num gt b st d nt →
    sink_inv (Some 1) gs (closed st) ns →
    take_cancel_world_inv xs num m (nt + ns)
      (World [ChanSt (length xs) b true xs; st] [] [gt; gs] [] m d false).

(** [for range Take(ctx, stream, num) { }] over a stream of capacity [c]
    that is open and empty, and on which nobody sends. *)
Definition take_waiting_world (c : nat) (num : Z) (m : Mem) : world :=
  let (taken, w) := Take (Some 0) num (World [ChanSt c [] false []] [] [] [] m false false) in
  snd (go (GRange taken) w).

(** *** Confine *)

(** [results := Confine(fns...)] with nobody receiving from [results]. *)
Definition confine_alone_world (fns : list func) (m : Mem) : world :=
  snd (Confine fns (world0 [] m)).

(** Nothing has been taken from the buffer of [results]. *)
Inductive confine_alone_inv (fns : list func) (m0 : Mem) : nat → world → Prop :=
| confine_alone_running gc st m n :
    confine_inv fns m0 gc st m n →
    buf st = hist st →
    confine_alone_inv fns m0 n (World [st] [] [gc] [] m false false).

(** *** OrDone *)

(** [for range OrDone(ctx, c) { }] over a stream carrying [xs]. *)
Definition ordone_world (xs : list T) (m : Mem) : world :=
  let (values, w) := OrDone (Some 0) (world0 [xs] m) in
  snd (go (GRange values) w).

(** OrDone after [j] receives from its input: what it has forwarded is
    what it received, less the values a cancellation made it drop. *)
Inductive ordone_cancel_inv (xs : list T) :
    goroutine → list T → chanst → bool → nat → Prop :=
| oc_recv j b h d :
    b = drop j xs → h `sublist_of` take j xs → (d = false → h = take j xs) →
    ordone_cancel_inv xs (GOrDone (Some 0) (Some 1)) b (ChanSt 0 [] false h) d
      (2 * (length xs - j) + 2)
| oc_send j v b h d :
    xs !! j = Some v → b = drop (S j) xs →
    h `sublist_of` take j xs → (d = false → h = take j xs) →
    ordone_cancel_inv xs (GOrDoneSend v (Some 0) (Some 1)) b (ChanSt 0 [] false h) d
      (2 * (length xs - j) + 1)
| oc_closing b h d :
    h `sublist_of` xs → (d = false → h = xs) →
    ordone_cancel_inv xs (GDeferred [Some 1]) b (ChanSt 0 [] false h) d 1
| oc_closed b h d :
    h `sublist_of` xs → (d = false → h = xs) →
    ordone_cancel_inv xs (GDeferred []) b (ChanSt 0 [] true h) d 0.

Inductive ordone_world_inv (xs : list T) (m : Mem) : nat → world → Prop :=
| ordone_running go gs b st d no ns :
    ordone_cancel_inv xs go b st d no →
    sink_inv (Some 1) gs (closed st) ns →
    ordone_world_inv xs m (no + ns)
      (World [ChanSt (length xs) b true xs; st] [] [go; gs] [] m d false).

(** *** Repeat *)

(** Repeat over [values] next to its stream; the boolean tells whether the
    context has been cancelled. *)
Inductive repeat_cancel_inv (values : list T) : goroutine → chanst → bool → Prop :=
| rc_pass q p rest h d :
    p ≤ length values → rest = drop p values →
    h = repeat_output values (q * length values + p) →
    repeat_cancel_inv values (GRepeat values rest (Some 0)) (ChanSt 0 [] false h) d
| rc_closing k h :
    h = repeat_output values k →
    repeat_cancel_inv values (GDeferred [Some 0]) (ChanSt 0 [] false h) true
| rc_closed k h :
    h = repeat_output values k →
    repeat_cancel_inv values (GDeferred []) (ChanSt 0 [] true h) true.

Inductive repeat_world_inv (values : list T) (m : Mem) : world → Prop :=
| repeat_running gr gs st d ns :
    repeat_cancel_inv values gr st d →
    sink_inv (Some 0) gs (closed st) ns →
    repeat_world_inv values m (World [st] [] [gr; gs] [] m d false).

(** *** Take over Repeat, with cancellation *)

(** Repeat after it has handed [k] values to Take; the first boolean tells
    whether its stream is closed, the second whether the context has been
    cancelled. *)
Inductive pipe_repeat_inv (values : list T) :
    goroutine → nat → bool → bool → nat → Prop :=
| pr_pass q p rest k d n :
    p ≤ length values → rest = drop p values → k = q * length values + p →
    n = 2 + (if decide (p = length values) then 1 else 0) →
    pipe_repeat_inv values (GRepeat values rest (Some 0)) k false d n
| pr_closing k :
    pipe_repeat_inv values (GDeferred [Some 0]) k false true 1
| pr_closed k :
    pipe_repeat_inv values (GDeferred []) k true true 0.

(** Take after it has forwarded [a] values of Repeat and then [z] zero
    values, read from the stream once it was closed. *)
Inductive pipe_take_inv (values : list T) (num : Z) :
    goroutine → nat → bool → chanst → bool → nat → nat → nat → Prop :=
| pt_recv a z k i h scl d n :
    k = a → a + z ≤ Z.to_nat num → i = Z.of_nat (a + z) →
    h = repeat_output values a ++ replicate z zero →
    (0 < z → scl = true) →
    n = 3 * (Z.to_nat num - (a + z)) + 3 →
    pipe_take_inv values num (GTake (Some 0) num i (Some 1)) k scl
      (ChanSt 0 [] false h) d a z n
| pt_send_value a z k i h v scl d n :
    k = S a → z = 0 → a < Z.to_nat num → i = Z.of_nat a →
    h = repeat_output values a ++ replicate z zero → v = cycle_at values a →
    n = 3 * (Z.to_nat num - a) + 1 →
    pipe_take_inv values num (GTakeSend v (Some 0) num i (Some 1)) k scl
      (ChanSt 0 [] false h) d a z n
| pt_send_zero a z k i h v scl d n :
    k = a → a + z < Z.to_nat num → i = Z.of_nat (a + z) →
    h = repeat_output values a ++ replicate z zero → v = zero → scl = true →
    n = 3 * (Z.to_nat num - (a + z)) + 1 →
    pipe_take_inv values num (GTakeSend v (Some 0) num i (Some 1)) k scl
      (ChanSt 0 [] false h) d a z n
| pt_cancelled a z k h scl :
    a + z ≤ Z.to_nat num →
    h = repeat_output values a ++ replicate z zero →
    (0 < z → scl = true) →
    pipe_take_inv values num (GDeferred [Some 1]) k scl
      (ChanSt 0 [] false h) true a z 1
| pt_cancelled_closed a z k h scl :
    a + z ≤ Z.to_nat num →
    h = repeat_output values a ++ replicate z zero →
    (0 < z → scl = true) →
    pipe_take_inv values num (GDeferred []) k scl
      (ChanSt 0 [] true h) true a z 0
| pt_finished a z k h scl d :
    a + z = Z.to_nat num →
    h = repeat_output values a ++ replicate z zero →
    (0 < z → scl = true) →
    pipe_take_inv values num GReturn k scl (ChanSt 0 [] true h) d a z 0.

Inductive pipe_inv (values : list T) (num : Z) (m : Mem) :
    nat → nat → nat → world → Prop :=
| pipe_running gr gt gs k scl hs st d a z nr nt ns :
    pipe_repeat_inv values gr k scl d nr →
    pipe_take_inv values num gt k scl st d a z nt →
    sink_inv (Some 1) gs (closed st) ns →
    hs = repeat_output values k →
    pipe_inv values num m a z (nr + nt + ns)
      (World [ChanSt 0 [] scl hs; st] [] [gr; gt; gs] [] m d false).

(** *** FanIn: the order within each stream *)

(** [merged pss out]: [out] is an interleaving of the lists [pss], each
    in its own order; it is built by appending a value to [out] and to one
    of the lists at a time. *)
Inductive merged : list (list T) → list T → Prop :=
| merged_nil K : merged (replicate K []) []
| merged_snoc pss out i ps x :
    merged pss out → pss !! i = Some ps →
    merged (<[i:=ps ++ [x]]> pss) (out ++ [x]).

(** *** FanIn under cancellation *)

(** Where one drain goroutine of FanIn stands when the context may be
    cancelled: with what is left in the stream it reads and, once it is past
    its loop, the value it gave up on the way ([lost], at most one). *)
Inductive fan_st : Type :=
| FRecv (b : list T)
| FSend (val : T) (b : list T)
| FDone (lost b : list T)
| FExit (lost b : list T).

Definition fan_goroutine (K i : nat) (d : fan_st) : goroutine :=
  match d with
  | FRecv _ => GDrain (Some i) 0 (Some K)
  | FSend val _ => GDrainSend val (Some i) 0 (Some K)
  | FDone _ _ => GDrainDone 0
  | FExit _ _ => GReturn
  end.

Definition fan_buf (d : fan_st) : list T :=
  match d with
  | FRecv b | FSend _ b | FDone _ b | FExit _ b => b
  end.

Definition fan_chan (xs : list T) (d : fan_st) : chanst :=
  ChanSt (length xs) (fan_buf d) true xs.

(** The values of its stream a drain has not passed on. *)
Definition fan_pending (d : fan_st) : list T :=
  match d with
  | FRecv b => b
  | FSend val b => val :: b
  | FDone lost b | FExit lost b => lost ++ b
  end.

(** A drain leaves its loop with values not passed on only after a
    cancellation. *)
Definition fan_settled (d : fan_st) : Prop :=
  match d with
  | FDone lost b | FExit lost b => lost ++ b = []
  | _ => True
  end.

Definition fan_rank (d : fan_st) : nat :=
  match d with
  | FRecv b => 2 * length b + 2
  | FSend _ b => 2 * length b + 3
  | FDone _ _ => 1
  | FExit _ _ => 0
  end.

Definition fan_live (d : fan_st) : nat :=
  match d with
  | FExit _ _ => 0
  | _ => 1
  end.

(** What has reached the output is an interleaving of what the drains have
    passed on, stream by stream. *)
Definition fan_order (xss : list (list T)) (ds : list fan_st) (hm : list T) : Prop :=
  ∃ pss, merged pss hm ∧ length pss = length xss
    ∧ ∀ i ps d xs, pss !! i = Some ps → ds !! i = Some d → xss !! i = Some xs →
        ps ++ fan_pending d = xs.

Inductive fan_inv (xss : list (list T)) (m : Mem) : nat → world → Prop :=
| fan_running ds gw gs cm hm n nw ns c :
    length ds = length xss →
    waiter_inv (length xss) gw cm n nw →
    sink_inv (Some (length xss)) gs cm ns →
    n = sum_list_with fan_live ds →
    fan_order xss ds hm →
    (c = false → Forall fan_settled ds) →
    fan_inv xss m (sum_list_with fan_rank ds + nw + ns)
      (World (zip_with fan_chan xss ds ++ [ChanSt 0 [] cm hm]) []
             (imap (fan_goroutine (length xss)) ds ++ [gw; gs])
             [n] m c false).

(** *** Tee under cancellation *)

(** An OrDone goroutine between a closed stream [c] carrying [xs] and its
    output [values], after [j] receives from [c]: what it has handed over is
    what it received, less the values a cancellation made it drop. *)
Inductive od_cancel_inv (xs : list T) (c values : chan) :
    goroutine → list T → chanst → bool → nat → nat → Prop :=
| odc_recv j b h d :
    b = drop j xs → h `sublist_of` take j xs → (d = false → h = take j xs) →
    od_cancel_inv xs c values (GOrDone c values) b (ChanSt 0 [] false h) d j
      (2 * (length xs - j) + 2)
| odc_send j v b h d :
    xs !! j = Some v → b = drop (S j) xs →
    h `sublist_of` take j xs → (d = false → h = take j xs) →
    od_cancel_inv xs c values (GOrDoneSend v c values) b (ChanSt 0 [] false h) d j
      (2 * (length xs - j) + 1)
| odc_closing j b h d :
    h `sublist_of` xs → (d = false → h = xs) →
    od_cancel_inv xs c values (GDeferred [values]) b (ChanSt 0 [] false h) d j 1
| odc_closed j b h d :
    h `sublist_of` xs → (d = false → h = xs) →
    od_cancel_inv xs c values (GDeferred []) b (ChanSt 0 [] true h) d j 0.

(** One output of Tee while it offers [v]: still to be served ([side]), or
    served ([nil]). *)
Inductive tee_out (H' : list T) (v : T) (d : bool) (side : chan) :
    chan → list T → nat → Prop :=
| out_open h :
    h `sublist_of` H' → (d = false → h = H') →
    tee_out H' v d side side h 0
| out_sent h :
    h `sublist_of` H' → (d = false → h = H') →
    tee_out H' v d side None (h ++ [v]) 1.

(** The goroutine of Tee, [H] being what OrDone has handed to it and [cv]
    telling whether OrDone has closed its channel. *)
Inductive tee_cancel_inv (H : list T) (cv d : bool) :
    goroutine → chanst → chanst → nat → Prop :=
| tcn_range hl hr :
    hl `sublist_of` H → hr `sublist_of` H → (d = false → hl = H ∧ hr = H) →
    tee_cancel_inv H cv d (GTeeRange (Some 3) (Some 1) (Some 2))
      (ChanSt 0 [] false hl) (ChanSt 0 [] false hr) 3
| tcn_select H' v o1 o2 i hl hr cl cr n :
    H = H' ++ [v] →
    tee_out H' v d (Some 1) o1 hl cl → tee_out H' v d (Some 2) o2 hr cr →
    (0 ≤ i ≤ 2)%Z → cl + cr ≤ Z.to_nat i → (d = false → Z.to_nat i = cl + cr) →
    n = 6 - Z.to_nat i →
    tee_cancel_inv H cv d (GTeeSelect v o1 o2 i (Some 3) (Some 1) (Some 2))
      (ChanSt 0 [] false hl) (ChanSt 0 [] false hr) n
| tcn_closing_right hl hr :
    cv = true →
    hl `sublist_of` H → hr `sublist_of` H → (d = false → hl = H ∧ hr = H) →
    tee_cancel_inv H cv d (GDeferred [Some 2; Some 1])
      (ChanSt 0 [] false hl) (ChanSt 0 [] false hr) 2
| tcn_closing_left hl hr :
    cv = true →
    hl `sublist_of` H → hr `sublist_of` H → (d = false → hl = H ∧ hr = H) →
    tee_cancel_inv H cv d (GDeferred [Some 1])
      (ChanSt 0 [] false hl) (ChanSt 0 [] true hr) 1
| tcn_closed hl hr :
    cv = true →
    hl `sublist_of` H → hr `sublist_of` H → (d = false → hl = H ∧ hr = H) →
    tee_cancel_inv H cv d (GDeferred [])
      (ChanSt 0 [] true hl) (ChanSt 0 [] true hr) 0.

Inductive tee_cancel_world_inv (xs : list T) (m : Mem) : nat → world → Prop :=
| tee_cancel_start d :
    tee_cancel_world_inv xs m (6 * length xs + 8)
      (World [ChanSt (length xs) xs true xs; ChanSt 0 [] false []; ChanSt 0 [] false []]
             [] [GTee (Some 0) (Some 1) (Some 2); GRange (Some 1); GRange (Some 2)]
             [] m d false)
| tee_cancel_running gt gl gr go bin stl str stv j d nt no nl nr :
    tee_cancel_inv (hist stv) (closed stv) d gt stl str nt →
    od_cancel_inv xs (Some 0) (Some 3) go bin stv d j no →
    sink_inv (Some 1) gl (closed stl) nl →
    sink_inv (Some 2) gr (closed str) nr →
    tee_cancel_world_inv xs m (4 * (length xs - j) + nt + no + nl + nr)
      (World [ChanSt (length xs) bin true xs; stl; str; stv] []
             [gt; gl; gr; go] [] m d false).

(** *** Bridge under cancellation *)

(** The inner streams once Bridge is at stream [d]: the streams before it
    hold what their OrDone left behind ([bs]), stream [d] holds [b]. *)
Definition inner_c (xss bs : list (list T)) (d : nat) (b : list T) : list chanst :=
  imap (λ i xs, ChanSt (length xs)
                  (if decide (i < d) then default [] (bs !! i)
                   else if decide (i = d) then b else xs)
                  true xs) xss.

(** The output channels of the OrDone goroutines that have returned, with
    what each has carried. *)
Definition closed_c (hs : list (list T)) : list chanst :=
  (λ h, ChanSt 0 [] true h) <$> hs.

(** The goroutine of Bridge at inner stream [d], the context cancelled or
    not ([c]): as [bridge_inv], the log of [values] being what earlier
    streams contributed followed by what this one has. *)
Inductive bridge_c_inv (xss : list (list T)) (d : nat) (c : bool) :
    goroutine → nat → list goroutine → list chanst → list T → bool → list T → nat → Prop :=
| bc_outer hout :
    hout `sublist_of` concat (take d xss) → (c = false → hout = concat (take d xss)) →
    bridge_c_inv xss d c (GBridge (Some 0) (Some (length xss))) d [] []
      (default [] (xss !! d)) false hout
      (sum_list_with stream_cost (drop d xss) + 2)
| bc_inner xs hout :
    xss !! d = Some xs →
    hout `sublist_of` concat (take d xss) → (c = false → hout = concat (take d xss)) →
    bridge_c_inv xss d c (GBridgeInner (Some d) (Some 0) (Some (length xss))) (S d) [] []
      xs false hout
      (sum_list_with stream_cost (drop d xss) + 1)
| bc_range xs go bin stv j no h0 hd hout :
    xss !! d = Some xs →
    od_cancel_inv xs (Some d) (Some (length xss + 1 + d)) go bin stv c j no →
    h0 `sublist_of` concat (take d xss) → (c = false → h0 = concat (take d xss)) →
    hd `sublist_of` hist stv → (c = false → hd = hist stv) →
    hout = h0 ++ hd →
    bridge_c_inv xss d c
      (GBridgeRange (Some (length xss + 1 + d)) (Some 0) (Some (length xss)))
      (S d) [go] [stv] bin false hout
      (sum_list_with stream_cost (drop (S d) xss) + no + 2 * (length xs - j) + 3)
| bc_send xs go bin stv j val no h0 hd H' hout :
    xss !! d = Some xs →
    od_cancel_inv xs (Some d) (Some (length xss + 1 + d)) go bin stv c j no →
    hist stv = H' ++ [val] →
    h0 `sublist_of` concat (take d xss) → (c = false → h0 = concat (take d xss)) →
    hd `sublist_of` H' → (c = false → hd = H') →
    hout = h0 ++ hd →
    bridge_c_inv xss d c
      (GBridgeSend val (Some (length xss + 1 + d)) (Some 0) (Some (length xss)))
      (S d) [go] [stv] bin false hout
      (sum_list_with stream_cost (drop (S d) xss) + no + 2 * (length xs - j) + 4)
| bc_closing hout :
    hout `sublist_of` concat xss → (c = false → hout = concat xss) →
    bridge_c_inv xss d c (GDeferred [Some (length xss)]) d [] []
      (default [] (xss !! d)) false hout 1
| bc_closed hout :
    hout `sublist_of` concat xss → (c = false → hout = concat xss) →
    bridge_c_inv xss d c (GDeferred []) d [] []
      (default [] (xss !! d)) true hout 0.

Inductive bridge_c_world_inv (xss : list (list T)) (m : Mem) : nat → world → Prop :=
| bridge_c_running d gb gs soff live dynlive b cl hout nb ns bs hs c :
    d ≤ length xss → length bs = d → length hs = d →
    bridge_c_inv xss d c gb soff live dynlive b cl hout nb →
    sink_inv (Some (length xss)) gs cl ns →
    bridge_c_world_inv xss m (nb + ns)
      (World (inner_c xss bs d b ++ ChanSt 0 [] cl hout :: (closed_c hs ++ dynlive))
             [drop soff (Some <$> seq 0 (length xss))]
             (gb :: gs :: (replicate d (GDeferred []) ++ live))
             [] m c false).

(** *** Or with a single input *)

(** Does the event close input [i]? *)
Definition or_closes_input (i : nat) (e : or_event) : bool :=
  match e with
  | InputClose c => bool_decide (c = i)
  | _ => false
  end.

(** The values input [i] delivers in the events, by a buffered send or by a
    hand-off. *)
Definition or_delivered (i : nat) (evs : list or_event) : list T :=
  flat_map (λ e, match e with
                 | InputSend c v | InputHandoff c v _ _ =>
                     if decide (c = i) then [v] else []
                 | _ => []
                 end) evs.

End Model.

(** ** Concrete inputs and schedules *)

Definition take_short_schedule : list choice :=
  [Solo 0 0; Sync 0 1 1 0; Solo 0 0; Sync 0 1 1 0; Solo 0 0; Solo 1 0].

Definition repeat_take_schedule : list choice :=
  [Sync 0 1 1 0; Sync 1 1 2 0; Sync 0 1 1 0; Sync 1 1 2 0; Sync 0 1 1 0;
   Solo 0 0; Sync 1 1 2 0; Sync 0 1 1 0; Sync 1 1 2 0; Sync 0 1 1 0;
   Sync 1 1 2 0; Sync 0 1 1 0; Solo 0 0; Sync 1 1 2 0; Sync 0 1 1 0;
   Sync 1 1 2 0; Solo 1 0; Solo 2 0].

Definition tee_schedule : list choice :=
  [Solo 0 0; Solo 3 1; Sync 3 0 0 0; Solo 3 1; Sync 0 1 1 0; Sync 0 2 2 0;
   Solo 0 0; Sync 3 0 0 0; Solo 3 1; Solo 3 0; Sync 0 1 1 0; Sync 0 2 2 0;
   Solo 0 0; Solo 0 0; Solo 0 0; Solo 0 0; Solo 1 0; Solo 2 0].

Definition fanin_schedule : list choice :=
  [Solo 0 0; Solo 1 0; Sync 0 1 3 0; Solo 0 0; Sync 0 1 3 0; Solo 0 0;
   Solo 0 0; Sync 1 1 3 0; Solo 1 0; Solo 1 0; Solo 2 0; Solo 2 0; Solo 3 0].

(** Ten inner streams carrying 0, 1, ..., 9, one value each. *)
Definition ten_streams : list (list Z) := (λ i, [Z.of_nat i]) <$> seq 0 10.

Definition bridge_schedule : list choice :=
  Solo 0 0 ::
  flat_map (λ i, [Solo 0 0; Solo (2 + i) 1; Sync (2 + i) 0 0 0; Solo (2 + i) 1;
                  Solo (2 + i) 0; Sync 0 0 1 0; Solo 0 0; Solo 0 0]) (seq 0 10)
  ++ [Solo 0 0; Solo 1 0].

(** The three closures of the confinement example. *)
Definition add (a b : Z) : Z := (a + b)%Z.
Definition three_adds : list (@func Z unit) :=
  [λ m, (add 2 3, m); λ m, (add 4 5, m); λ m, (add 6 7, m)].

Definition confine_schedule : list choice :=
  [Solo 0 0; Solo 0 0; Solo 0 0; Solo 0 0; Solo 0 0; Solo 0 0; Solo 0 0;
   Solo 1 0; Solo 1 0; Solo 1 0; Solo 1 0].

(** Four done-channels, the first of them closed. *)
Definition four_channels : list (@chanst Z) :=
  [ChanSt 0 [] true []; ChanSt 0 [] false []; ChanSt 0 [] false []; ChanSt 0 [] false []].

Definition or_schedule : list choice :=
  [Solo 0 0; Solo 0 0; Solo 0 0; Solo 1 0; Solo 1 1; Solo 1 0].

(** A single input that delivers a value. *)
Definition or_single_events : list (@or_event Z) := [InputSend 0 5%Z; Move (Solo 0 0)].

(** Four open inputs; the last one hands a value to the goroutine of the
    nested call. *)
Definition or_four_events : list (@or_event Z) :=
  [Move (Solo 0 0); Move (Solo 2 0); InputHandoff 3 7%Z 2 0; Move (Solo 2 0);
   Move (Solo 0 3); Move (Solo 0 0); Move (Solo 1 0)].

(** Tee stopped after the first value has reached [left] only. *)
Definition tee_half_schedule : list choice :=
  [Solo 0 0; Solo 3 1; Sync 3 0 0 0; Solo 3 1; Sync 0 1 1 0].

(** Take receives 1 and 2, the context is cancelled while it holds 2, and
    it returns without sending it. *)
Definition take_cancel_events : list event :=
  [Step (Solo 0 0); Step (Sync 0 1 1 0); CancelCtx; Step (Solo 0 0);
   Step (Solo 0 0); Step (Solo 0 0)].

Definition take_two_schedule : list choice :=
  [Solo 0 0; Sync 0 1 1 0; Solo 0 0; Sync 0 1 1 0; Solo 0 0; Solo 1 0].

Definition confine_alone_schedule : list choice := replicate 7 (Solo 0 0).

(** OrDone forwards 1, drops 2 on the cancellation, and still forwards 3
    before it takes the done clause. *)
Definition ordone_cancel_events : list event :=
  [Step (Solo 0 1); Step (Sync 0 0 1 0); Step (Solo 0 1); CancelCtx;
   Step (Solo 0 1); Step (Solo 0 1); Step (Sync 0 0 1 0); Step (Solo 0 0);
   Step (Solo 0 0)].

(** Repeat sends once more after the cancellation, then returns. *)
Definition repeat_cancel_events : list event :=
  [Step (Sync 0 1 1 0); Step (Sync 0 1 1 0); Step (Sync 0 1 1 0);
   Step (Solo 0 0); Step (Sync 0 1 1 0); CancelCtx; Step (Sync 0 1 1 0);
   Step (Solo 0 0); Step (Solo 0 0); Step (Solo 1 0)].

(** The pipeline of the example, cancelled after one value: Repeat closes
    its stream and Take passes on a zero value. *)
Definition pipeline_cancel_events : list event :=
  [Step (Sync 0 1 1 0); Step (Sync 1 1 2 0); CancelCtx; Step (Solo 0 0);
   Step (Solo 0 0); Step (Solo 1 0); Step (Sync 1 1 2 0)].

(** The value of the second stream passes between the two values of the
    first. *)
Definition fanin_interleaved_schedule : list choice :=
  [Solo 0 0; Solo 1 0; Sync 0 1 3 0; Sync 1 1 3 0; Solo 0 0; Sync 0 1 3 0;
   Solo 0 0; Solo 0 0; Solo 1 0; Solo 1 0; Solo 2 0; Solo 2 0; Solo 3 0].

(** FanIn: the first drain gives up 2 on the cancellation, the second still
    passes 3 on. *)
Definition fanin_cancel_events : list event :=
  [Step (Solo 0 0); Step (Sync 0 1 3 0); Step (Solo 0 0); Step (Solo 1 0);
   CancelCtx; Step (Solo 0 0); Step (Sync 1 1 3 0); Step (Solo 1 0);
   Step (Solo 0 0); Step (Solo 1 0); Step (Solo 2 0); Step (Solo 2 0);
   Step (Solo 3 0)].

(** Tee: after the cancellation 1 still reaches [left], [right] misses it. *)
Definition tee_cancel_events : list event :=
  [Step (Solo 0 0); Step (Solo 3 1); Step (Sync 3 0 0 0); CancelCtx;
   Step (Sync 0 1 1 0); Step (Solo 0 0); Step (Solo 0 0); Step (Solo 3 0);
   Step (Solo 3 0); Step (Solo 0 0); Step (Solo 0 0); Step (Solo 0 0)].

(** Bridge: 2 is dropped on the cancellation, and the second stream is
    still taken up and its 3 forwarded. *)
Definition bridge_cancel_events : list event :=
  [Step (Solo 0 0); Step (Solo 0 0); Step (Solo 2 1); Step (Sync 2 0 0 0);
   Step (Sync 0 0 1 0); Step (Solo 2 1); Step (Sync 2 0 0 0); CancelCtx;
   Step (Solo 0 1); Step (Solo 2 0); Step (Solo 2 0); Step (Solo 0 0);
   Step (Solo 0 0); Step (Solo 0 0); Step (Solo 3 1); Step (Sync 3 0 0 0);
   Step (Sync 0 0 1 0); Step (Solo 3 0); Step (Solo 3 0); Step (Solo 0 0);
   Step (Solo 0 1); Step (Solo 0 0); Step (Solo 1 0)].

(** * Proofs *)

(** What the head of [drop j xs] says about [xs]. *)
Lemma drop_lookup_nil {A} (xs : list A) j : drop j xs = [] → length xs ≤ j.
Proof. intros H. pose proof (length_drop xs j) as Hl. rewrite H in Hl. simpl in Hl. lia. Qed.

Lemma drop_lookup_cons {A} (xs : list A) j v rest :
  drop j xs = v :: rest → xs !! j = Some v ∧ rest = drop (S j) xs.
Proof.
  intros H.
  assert (xs !! j = Some v) as Hv.
  { pose proof (lookup_drop xs j 0) as Hl. rewrite H in Hl. simpl in Hl.
    by rewrite Nat.add_0_r in Hl. }
  split; [done|]. rewrite (drop_S _ _ _ Hv) in H. by simplify_eq.
Qed.

(** Case analysis on an enabled choice in a world whose pool is known. *)
Ltac fire_cases H :=
  unfold fire in H; simpl in H;
  repeat match type of H with
  | context [match ?ch with Solo _ _ => _ | Sync _ _ _ _ => _ end] =>
      destruct ch; simpl in H
  | context [decide ?P] => destruct (decide P); simpl in H
  | context [@lookup nat _ _ _ ?i (_ :: _)] => destruct i; simpl in H
  | context [@lookup nat _ _ _ ?i []] => destruct i; simpl in H
  | context [if (?a <? ?b)%Z then _ else _] =>
      destruct (Z.ltb_spec a b); simpl in H
  | context [match drop ?j ?l with [] => _ | _ :: _ => _ end] =>
      let Hd := fresh "Hd" in
      destruct (drop j l) eqn:Hd in H;
      [apply drop_lookup_nil in Hd|apply drop_lookup_cons in Hd as [? ?]];
      simpl in H
  | context [let (_, _) := ?f ?m in _] =>
      let Hcall := fresh "Hcall" in
      destruct (f m) eqn:Hcall; simpl in H
  | context [match ?b with [] => _ | _ :: _ => _ end] =>
      is_var b; destruct b; simpl in H
  | _ => discriminate H
  end.

Ltac wsimpl :=
  unfold resume, put_chan, set_pool, set_chans, set_streams, set_wgs, set_mem, panic;
  simpl.

Ltac lookup_bounds :=
  repeat match goal with
  | H : ?xs !! ?j = Some _ |- _ =>
      lazymatch goal with
      | _ : j < length xs |- _ => fail
      | _ => pose proof (lookup_lt_Some _ _ _ H)
      end
  end.



Ltac enabled_by ch :=
  exists ch; unfold fire; simpl; repeat case_match; by eauto.

Section Proofs.

Context {T : Type} (zero : T) {Mem : Type}.

Local Abbreviation world := (@world T Mem).
Local Abbreviation fire := (@fire T zero Mem).
Local Abbreviation run := (@run T zero Mem).
Local Abbreviation run_events := (@run_events T zero Mem).
Local Abbreviation occur := (@occur T zero Mem).
Local Abbreviation goroutine := (@goroutine T Mem).
Local Abbreviation func := (@func T Mem).
Local Abbreviation chanst := (@chanst T).
Local Abbreviation drain_st := (@drain_st T).
Local Abbreviation drain_goroutine := (@drain_goroutine T Mem).

(** An invariant whose index drops at every choice bounds every schedule. *)
Lemma run_measure (I : nat → world → Prop) :
  (∀ n w ch w', I n w → fire ch w = Some w' → ∃ n', n' < n ∧ I n' w') →
  ∀ sched n w w', I n w → run sched w = Some w' →
    ∃ n', n' + length sched ≤ n ∧ I n' w'.
Proof.
  intros Hstep sched.
  induction sched as [|ch sched IH]; intros n w w' HI Hrun; simpl in Hrun.
  - simplify_eq. exists n. split; [simpl; lia | done].
  - destruct (fire ch w) as [w1|] eqn:Hf; simpl in Hrun; [|done].
    destruct (Hstep _ _ _ _ HI Hf) as (n1 & Hlt & HI1).
    destruct (IH _ _ _ HI1 Hrun) as (n' & Hle & HI').
    exists n'. split; [simpl; lia | done].
Qed.

(** ** Take *)

Lemma recv_at_closed (xs : list T) k : length xs ≤ k → recv_at zero xs k = zero.
Proof. intros H. unfold recv_at. by rewrite lookup_ge_None_2. Qed.

Lemma recv_at_lookup (xs : list T) k v : xs !! k = Some v → recv_at zero xs k = v.
Proof. intros H. unfold recv_at. by rewrite H. Qed.

Lemma take_output_S (xs : list T) k :
  take_output zero xs (S k) = take_output zero xs k ++ [recv_at zero xs k].
Proof. unfold take_output. by rewrite seq_S, fmap_app. Qed.

Lemma take_output_prefix (xs : list T) k n :
  k ≤ n → take_output zero xs k `prefix_of` take_output zero xs n.
Proof.
  intros Hk. replace n with (k + (n - k)) by lia.
  unfold take_output. rewrite seq_app, fmap_app. by apply prefix_app_r.
Qed.

(** Take sends [num] values whatever the stream holds: the values of the
    stream while there are some, the zero value afterwards. *)
Lemma take_output_pad (xs : list T) n :
  take_output zero xs n = take n xs ++ replicate (n - length xs) zero.
Proof.
  induction n as [|n IH].
  - done.
  - rewrite take_output_S, IH. unfold recv_at.
    destruct (xs !! n) as [x|] eqn:Hx.
    + pose proof (lookup_lt_Some _ _ _ Hx).
      replace (n - length xs) with 0 by lia.
      replace (S n - length xs) with 0 by lia.
      simpl. rewrite !app_nil_r. by rewrite (take_S_r _ _ _ Hx).
    + apply lookup_ge_None in Hx.
      rewrite !take_ge by lia.
      replace (S n - length xs) with (S (n - length xs)) by lia.
      rewrite replicate_S_end. by rewrite app_assoc.
Qed.

Lemma take_step xs num m n w ch w' :
  take_inv zero xs num m n w → fire ch w = Some w' →
  ∃ n', n' < n ∧ take_inv zero xs num m n' w'.
Proof.
  intros HI Hf. destruct HI; subst.
  - fire_cases Hf.
    + simplify_eq; wsimpl.
      eexists. split; [|eapply take_at_send; eauto; try lia].
      * lia.
      * by rewrite drop_ge by lia.
      * by rewrite recv_at_closed.
    + simplify_eq; wsimpl.
      eexists. split; [|eapply take_at_send; eauto; try lia].
      * lia.
      * by rewrite (recv_at_lookup _ _ _ H1).
    + simplify_eq; wsimpl.
      eexists. split; [|apply take_closing; f_equal; lia]. lia.
  - fire_cases Hf. simplify_eq; wsimpl.
    replace (Z.of_nat k + 1)%Z with (Z.of_nat (S k)) by lia.
    eexists. split; [|apply take_at_recv; [lia|done|by rewrite take_output_S]]. lia.
  - fire_cases Hf. simplify_eq; wsimpl.
    eexists. split; [|by apply take_finished]. lia.
  - fire_cases Hf.
Qed.

Lemma take_world_inv xs num (m : Mem) :
  take_inv zero xs num m (2 * Z.to_nat num + 2) (take_world xs num m).
Proof.
  replace (2 * Z.to_nat num + 2) with (2 * (Z.to_nat num - 0) + 2) by lia.
  apply (take_at_recv zero xs num m 0); [lia|done|done].
Qed.

(** With a cancellation signal that never fires, Take over a stream that
    carries [xs] and is then closed sends exactly [num] values and then
    closes its output, under every schedule: the output log only ever grows
    towards [take_output xs num], equals it once the output is closed, the
    run cannot stop before the output is closed, and no schedule is longer
    than [2 * num + 2] choices. *)
Lemma Take_sends_num_values xs num m sched w :
  run sched (take_world xs num m) = Some w →
  ∃ st, chans w !! 1 = Some st ∧ panicked w = false
    ∧ hist st `prefix_of` take_output zero xs (Z.to_nat num)
    ∧ (closed st = true → hist st = take_output zero xs (Z.to_nat num))
    ∧ (closed st = false → ∃ ch w', fire ch w = Some w')
    ∧ length sched ≤ 2 * Z.to_nat num + 2.
Proof.
  intros Hrun.
  destruct (run_measure _ (take_step xs num m) _ _ _ _ (take_world_inv xs num m) Hrun)
    as (n' & Hlen & HI).
  destruct HI; subst; eexists; (split; [reflexivity|]); simpl;
    (split; [done|]); (split; [try done; by apply take_output_prefix; lia|]);
    (split; [done|]); (split; [|lia]); intros Hc; try discriminate Hc.
  - destruct (Z.ltb_spec (Z.of_nat k) num) as [Hlt|Hge].
    + exists (Solo 0 0). unfold fire; simpl.
      destruct (Z.ltb_spec (Z.of_nat k) num); [|lia]. simpl.
      destruct (drop k xs); eauto.
    + exists (Solo 0 0). unfold fire; simpl.
      destruct (Z.ltb_spec (Z.of_nat k) num); [lia|]. eauto.
  - exists (Sync 0 1 1 0). unfold fire; simpl. eauto.
Qed.

(** ** Tee *)

Lemma take_snoc_lookup (xs : list T) j v :
  xs !! j = Some v → take j xs ++ [v] = take (S j) xs.
Proof. intros H. by rewrite (take_S_r _ _ _ H). Qed.

Lemma take_all (xs : list T) j : length xs ≤ j → take j xs = xs.
Proof. apply take_ge. Qed.

Local Arguments Nat.mul : simpl never.

Ltac stream_eq :=
  lookup_bounds;
  match goal with
  | |- _ !! _ = Some _ => eassumption
  | |- _ ≤ _ => first [eassumption | lia]
  | |- _ = drop _ _ => first [reflexivity | eassumption | by (symmetry; apply drop_ge; lia)]
  | |- _ = take _ _ =>
      first [reflexivity | by apply take_snoc_lookup | by (symmetry; apply take_all; lia)]
  | |- _ = _ =>
      first [reflexivity | by (apply take_all; lia) ]
  | |- sink_inv _ _ _ _ => constructor
  end.

Lemma tee_step xs m n w ch w' :
  tee_world_inv xs m n w → fire ch w = Some w' →
  ∃ n', n' < n ∧ tee_world_inv xs m n' w'.
Proof.
  intros HI Hf. destruct HI as [|gt gl gr go bin stl str stv j nt no nl nr Ht Ho Hl Hr].
  - fire_cases Hf. simplify_eq. wsimpl.
    eexists. split; [|apply (tee_world_running xs m _ _ _ _ _ _ _ _ 0); [apply (tee_range _ _ _ _ 0) | apply (ordone_recv _ _ _ 0) | constructor | constructor ] ]; try done.
    simpl. lia.
  - inv Ht; inv Ho; inv Hl; inv Hr.
    all: fire_cases Hf.
    all: try (match type of Hf with context [match drop ?j ?l with [] => _ | _ :: _ => _ end] => destruct (drop j l) as [|v' rest] eqn:Hd in Hf; [apply drop_lookup_nil in Hd|apply drop_lookup_cons in Hd as [? ?]] end).
    all: simplify_eq; wsimpl; change (0 + 1)%Z with 1%Z; change (1 + 1)%Z with 2%Z.
    all: try (eexists; split; [|eapply tee_world_running; [econstructor; stream_eq|econstructor; stream_eq|simpl; stream_eq|simpl; stream_eq]]; [lookup_bounds; lia]).
Qed.

(** C3: with the context never cancelled, whatever the schedule, the two
    outputs of [Tee] carry prefixes of the input stream, nothing panics, as
    long as the first output is open some goroutine can move, every run is
    bounded in length, and once an output is closed both outputs have carried
    every value of the input exactly once, in the input's order. *)
Theorem Tee_duplicates xs (m : Mem) sched w :
  run sched (tee_world xs m) = Some w →
  ∃ stl str, chans w !! 1 = Some stl ∧ chans w !! 2 = Some str
    ∧ panicked w = false
    ∧ hist stl `prefix_of` xs ∧ hist str `prefix_of` xs
    ∧ (closed stl = true → closed str = true ∧ hist stl = xs ∧ hist str = xs)
    ∧ (closed str = true → hist stl = xs ∧ hist str = xs)
    ∧ (closed stl = false → ∃ ch w', fire ch w = Some w')
    ∧ length sched ≤ 6 * length xs + 8.
Proof.
  intros Hrun.
  destruct (run_measure _ (tee_step xs m) _ _ _ _ (tee_world_start xs m) Hrun)
    as (n' & Hlen & HI).
  destruct HI as [|gt gl gr go bin stl str stv j nt no nl nr Ht Ho Hl Hr].
  - do 2 eexists. do 2 (split; [reflexivity|]). simpl.
    repeat split; try done; try apply prefix_nil; try lia.
    intros _. enabled_by (Solo 0 0).
  - do 2 eexists. do 2 (split; [reflexivity|]). simpl.
    split; [done|].
    split; [inv Ht; simpl; first [apply prefix_take | done]|].
    split; [inv Ht; simpl; first [apply prefix_take | done]|].
    split; [inv Ht; simpl; intros; simplify_eq; done|].
    split; [inv Ht; simpl; intros; simplify_eq; done|].
    split; [|lia].
    intros Hc. inv Ht; simpl in Hc; try discriminate Hc; inv Ho; inv Hl; inv Hr;
      first [ enabled_by (Solo 0 0) | enabled_by (Solo 3 0) | enabled_by (Solo 3 1)
            | enabled_by (Sync 3 0 0 0) | enabled_by (Sync 0 1 1 0)
            | enabled_by (Sync 0 2 2 0) ].
Qed.

(** ** Confine *)

Lemma call_all_app (l1 l2 : list func) m :
  call_all (l1 ++ l2) m =
    let (r1, m1) := call_all l1 m in
    let (r2, m2) := call_all l2 m1 in (r1 ++ r2, m2).
Proof.
  revert m. induction l1 as [|f l1 IH]; intros m; simpl.
  - by destruct (call_all l2 m).
  - destruct (f m) as [r m1]. rewrite IH.
    destruct (call_all l1 m1) as [r1 m2]. by destruct (call_all l2 m2).
Qed.

Lemma call_all_take_S (fns : list func) s (f : func) m0 h m r m' :
  fns !! s = Some f → call_all (take s fns) m0 = (h, m) → f m = (r, m') →
  call_all (take (S s) fns) m0 = (h ++ [r], m').
Proof.
  intros Hf Hc Hr. rewrite (take_S_r _ _ _ Hf), call_all_app, Hc. simpl.
  by rewrite Hr.
Qed.

Lemma confine_step fns m0 n w ch w' :
  confine_world_inv fns m0 n w → fire ch w = Some w' →
  ∃ n', n' < n ∧ confine_world_inv fns m0 n' w'.
Proof.
  intros HI Hf. destruct HI as [gc gs st m nc ns Hc Hs].
  inv Hc; inv Hs.
  all: fire_cases Hf.
  all: simplify_eq; wsimpl.
  - (* close(results) *)
    eexists. split; [|eapply confine_world_running; [eapply confine_returned|simpl; constructor]].
    + simpl. lia.
    + by rewrite take_ge in * by lia.
  - (* do() *)
    eexists. split; [|eapply confine_world_running;
      [eapply (confine_sending _ _ s); eauto using call_all_take_S|simpl; constructor]].
    all: simpl; lookup_bounds; lia.
  - (* the consumer takes a buffered result *)
    eexists. split; [|eapply confine_world_running;
      [eapply (confine_calling _ _ s); eauto|simpl; constructor]].
    all: simpl in *; lia.
  - (* results <- r, into the buffer *)
    eexists. split; [|eapply confine_world_running;
      [eapply (confine_calling _ _ (S s)); eauto|simpl; constructor]].
    all: try rewrite length_app; simpl; lia.
  - eexists. split; [|eapply confine_world_running;
      [eapply (confine_sending _ _ s); eauto|simpl; constructor]].
    all: simpl in *; lia.
  - (* results <- r, straight to the consumer *)
    eexists. split; [|eapply confine_world_running;
      [eapply (confine_calling _ _ (S s)); eauto|simpl; constructor]].
    all: simpl; lia.
  - eexists. split; [|eapply confine_world_running; [eapply confine_returned; eauto|simpl; constructor]].
    simpl. lia.
  - eexists. split; [|eapply confine_world_running; [eapply confine_returned; eauto|simpl; constructor]].
    simpl. lia.
Qed.

Lemma confine_world_start (fns : list func) (m : Mem) :
  confine_world_inv fns m (3 * length fns + 3) (confine_world fns m).
Proof.
  replace (3 * length fns + 3) with (3 * (length fns - 0) + 2 + length (@nil T) + 1)
    by (simpl; lia).
  apply confine_world_running; [|constructor].
  by apply (confine_calling _ _ 0); simpl; try lia.
Qed.

Lemma call_all_prefix (fns : list func) s m0 h m :
  call_all (take s fns) m0 = (h, m) → h `prefix_of` (call_all fns m0).1.
Proof.
  intros Hc. rewrite <- (take_drop s fns) at 1. rewrite call_all_app, Hc.
  destruct (call_all (drop s fns) m) as [r2 m2]. simpl. by apply prefix_app_r.
Qed.

(** C9: [Confine] runs the functions one after another in its single
    goroutine (the pool never holds more than that goroutine and the
    consumer), sends their results in the order the functions were given
    and closes the stream after the last result; every run is bounded and
    never stuck before the close. *)
Theorem Confine_sequential (fns : list func) (m : Mem) sched w :
  run sched (confine_world fns m) = Some w →
  ∃ st, chans w !! 0 = Some st ∧ panicked w = false
    ∧ length (pool w) = 2
    ∧ hist st `prefix_of` (call_all fns m).1
    ∧ (closed st = true → (hist st, mem w) = call_all fns m)
    ∧ (closed st = false → ∃ ch w', fire ch w = Some w')
    ∧ length sched ≤ 3 * length fns + 3.
Proof.
  intros Hrun.
  destruct (run_measure _ (confine_step fns m) _ _ _ _ (confine_world_start fns m) Hrun)
    as (n' & Hlen & HI).
  destruct HI as [gc gs st m' nc ns Hc Hs].
  exists st. split; [done|]. simpl. split; [done|]. split; [done|].
  split; [inv Hc; simpl; eauto using call_all_prefix|].
  { apply prefix_app_l with [r]. eauto using call_all_prefix. }
  { rewrite <- (take_ge fns (length fns)) in H by lia. eauto using call_all_prefix. }
  split; [inv Hc; simpl; intros; simplify_eq; done|].
  split; [|lia].
  intros Hcl. inv Hc; simpl in Hcl; try discriminate Hcl; inv Hs.
  - exists (Solo 0 0). unfold fire; simpl.
    destruct (drop s fns) as [|f fs]; simpl; [eauto|destruct (f m'); eauto].
  - exists (Solo 0 0). unfold fire; simpl.
    destruct (decide (length b < length fns)); [eauto|lia].
Qed.

(** ** Take over Repeat *)

Lemma repeat_output_S (values : list T) k :
  repeat_output zero values (S k) = repeat_output zero values k ++ [cycle_at zero values k].
Proof. unfold repeat_output. by rewrite seq_S, fmap_app. Qed.

Lemma cycle_at_offset (values : list T) q p v :
  values !! p = Some v → cycle_at zero values (q * length values + p) = v.
Proof.
  intros Hv. pose proof (lookup_lt_Some _ _ _ Hv) as Hp. unfold cycle_at.
  replace ((q * length values + p) mod length values) with p; [by rewrite Hv|].
  rewrite Nat.add_comm, Nat.Div0.mod_add. by rewrite Nat.mod_small.
Qed.

Lemma repeat_take_step values num m n w ch w' :
  values ≠ [] →
  repeat_take_inv zero values num m n w → fire ch w = Some w' →
  ∃ n', n' < n ∧ repeat_take_inv zero values num m n' w'.
Proof.
  intros Hne HI Hf.
  destruct HI as [gr gt gs q p k hs st nr nt ns Hr Ht Hs Hk Hhs].
  assert (0 < length values) as Hlen by (destruct values; simpl; [done|lia]).
  inv Hr; inv Ht; inv Hs.
  all: fire_cases Hf.
  all: simplify_eq; wsimpl.
  all: lookup_bounds.
  - (* Repeat starts its next pass *)
    eexists. split; [|eapply (repeat_take_running _ _ _ _ _ _ _ (S q) 0);
      [by eapply repeat_in_pass; [lia|]|by eapply tr_recv|constructor|first [reflexivity|rewrite ?Nat.mul_succ_l; lia]|first [done|f_equal; rewrite ?Nat.mul_succ_l; lia] ] ].
    repeat (destruct (decide _)); simpl; lia.
  - (* Take has forwarded num values *)
    eexists. split; [|eapply (repeat_take_running _ _ _ _ _ _ _ q p);
      [by eapply repeat_in_pass|eapply tr_closed|constructor|reflexivity|first [done|f_equal; rewrite ?Nat.mul_succ_l; lia] ] ].
    + simpl. lia.
    + f_equal. lia.
  - (* stream <- v meets <-stream *)
    eexists. split; [|eapply (repeat_take_running _ _ _ _ _ _ _ q (S p));
      [by eapply repeat_in_pass; [lia|]
      |eapply (tr_send _ _ _ (q * length values + p)); [lia|lia|done|by erewrite cycle_at_offset by eassumption]
      |constructor|first [reflexivity|rewrite ?Nat.mul_succ_l; lia]|by rewrite repeat_output_S; erewrite cycle_at_offset by eassumption] ].
    repeat (destruct (decide _)); simpl; lia.
  - eexists. split; [|eapply (repeat_take_running _ _ _ _ _ _ _ (S q) 0);
      [by eapply repeat_in_pass; [lia|]|by eapply tr_send|constructor
      |first [reflexivity|rewrite ?Nat.mul_succ_l; lia]|first [done|f_equal; rewrite ?Nat.mul_succ_l; lia] ] ].
    repeat (destruct (decide _)); simpl; lia.
  - (* taken <- v meets the consumer *)
    eexists. split; [|eapply (repeat_take_running _ _ _ _ _ _ _ q p);
      [by eapply repeat_in_pass
      |eapply (tr_recv _ _ _ (S k)); [lia|lia|by rewrite repeat_output_S]
      |constructor|first [reflexivity|lia]|first [done|f_equal; rewrite ?Nat.mul_succ_l; lia] ] ].
    simpl. lia.
  - eexists. split; [|eapply (repeat_take_running _ _ _ _ _ _ _ (S q) 0);
      [by eapply repeat_in_pass; [lia|]|by eapply tr_closed|constructor
      |first [reflexivity|rewrite ?Nat.mul_succ_l; lia]|first [done|f_equal; rewrite ?Nat.mul_succ_l; lia] ] ].
    repeat (destruct (decide _)); simpl; lia.
  - eexists. split; [|eapply (repeat_take_running _ _ _ _ _ _ _ q p);
      [by eapply repeat_in_pass|by eapply tr_closed|constructor|first [reflexivity|lia]|first [done|f_equal; rewrite ?Nat.mul_succ_l; lia] ] ].
    simpl. lia.
  - eexists. split; [|eapply (repeat_take_running _ _ _ _ _ _ _ (S q) 0);
      [by eapply repeat_in_pass; [lia|]|by eapply tr_closed|constructor
      |first [reflexivity|rewrite ?Nat.mul_succ_l; lia]|first [done|f_equal; rewrite ?Nat.mul_succ_l; lia] ] ].
    repeat (destruct (decide _)); simpl; lia.
Qed.

Lemma repeat_take_start values num (m : Mem) :
  values ≠ [] →
  repeat_take_inv zero values num m (3 * Z.to_nat num + 4) (repeat_take_world values num m).
Proof.
  intros Hne.
  assert (0 < length values) as Hlen by (destruct values; simpl; [done|lia]).
  replace (3 * Z.to_nat num + 4)
    with ((if decide (0 = length values) then 1 else 0)
          + (3 * (Z.to_nat num - 0) + 3) + 1).
  2:{ destruct (decide _); lia. }
  eapply (repeat_take_running _ _ _ _ _ _ _ 0 0 0);
    [by eapply repeat_in_pass; [lia|]|by eapply tr_recv; [lia|..]|constructor|lia|done].
Qed.

Lemma repeat_output_prefix (values : list T) k n :
  k ≤ n → repeat_output zero values k `prefix_of` repeat_output zero values n.
Proof.
  intros Hk. replace n with (k + (n - k)) by lia.
  unfold repeat_output. rewrite seq_app, fmap_app. by apply prefix_app_r.
Qed.

Lemma Take_of_Repeat values num (m : Mem) sched w :
  values ≠ [] →
  run sched (repeat_take_world values num m) = Some w →
  ∃ st, chans w !! 1 = Some st ∧ panicked w = false
    ∧ hist st `prefix_of` repeat_output zero values (Z.to_nat num)
    ∧ (closed st = true → hist st = repeat_output zero values (Z.to_nat num))
    ∧ (closed st = false → ∃ ch w', fire ch w = Some w')
    ∧ length sched ≤ 3 * Z.to_nat num + 4.
Proof.
  intros Hne Hrun.
  destruct (run_measure (repeat_take_inv zero values num m)
              (λ n w ch w', repeat_take_step values num m n w ch w' Hne)
              _ _ _ _ (repeat_take_start values num m Hne) Hrun)
    as (n' & Hlen & HI).
  destruct HI as [gr gt gs q p k hs st nr nt ns Hr Ht Hs Hk Hhs].
  exists st. split; [done|]. simpl. split; [done|].
  split; [inv Ht; simpl; first [by apply repeat_output_prefix; lia | done]|].
  split; [inv Ht; simpl; intros; simplify_eq; done|].
  split; [|lia].
  intros Hcl. inv Ht; simpl in Hcl; try discriminate Hcl; inv Hr; inv Hs.
  - destruct (Z.ltb_spec (Z.of_nat (q * length values + p)) num) as [Hlt|Hge].
    + destruct (drop p values) as [|v rest] eqn:Hd.
      * exists (Solo 0 0). unfold fire; simpl. eauto.
      * exists (Sync 0 1 1 0). unfold fire; simpl.
        destruct (Z.ltb_spec (Z.of_nat (q * length values + p)) num); [|lia].
        simpl. eauto.
    + exists (Solo 1 0). unfold fire; simpl.
      destruct (Z.ltb_spec (Z.of_nat (q * length values + p)) num); [lia|]. eauto.
  - exists (Sync 1 1 2 0). unfold fire; simpl. eauto.
Qed.

(** ** Repeat *)

Lemma repeat_empty_occur (m : Mem) d e w' :
  occur e (repeat_world [] m d) = Some w' →
  ∃ d', w' = repeat_world [] m d'.
Proof.
  destruct e as [ch|]; simpl.
  - intros Hf. exists d. fire_cases Hf. by simplify_eq.
  - intros ?. simplify_eq. by exists true.
Qed.

Lemma repeat_empty_run (m : Mem) evs : ∀ d w,
  run_events evs (repeat_world [] m d) = Some w →
  ∃ d', w = repeat_world [] m d'.
Proof.
  induction evs as [|e evs IH]; intros d w Hrun; simpl in Hrun.
  - simplify_eq. by exists d.
  - destruct (occur e (repeat_world [] m d)) as [w1|] eqn:He; [|done].
    apply repeat_empty_occur in He as [d1 ->]. simpl in Hrun. eauto.
Qed.

(** C6: with an empty seed, whatever the schedule and whenever the context
    is cancelled, [Repeat]'s goroutine stays at the head of its outer loop:
    the stream stays open and empty, the loop's only step leads back to the
    same state, before and after cancellation, and the select that reads
    [ctx.Done()] is never reached. *)
Theorem Repeat_empty_spins (m : Mem) (cancelled : bool) evs w :
  run_events evs (repeat_world [] m cancelled) = Some w →
  chans w = [ChanSt 0 [] false []]
  ∧ pool w = [GRepeat [] [] (Some 0); GRange (Some 0)]
  ∧ panicked w = false
  ∧ next (GRepeat [] [] (Some 0) : goroutine) = ISkip (GRepeat [] [] (Some 0))
  ∧ (fire (Solo 0 0) w = Some w)
  ∧ (fire (Solo 0 0) (cancel_ctx w) = Some (cancel_ctx w)).
Proof.
  intros Hrun. apply repeat_empty_run in Hrun as [d' ->].
  by repeat split.
Qed.

(** ** Or *)

Lemma sum_list_insert {A} (f : A → nat) (l : list A) i x y :
  l !! i = Some x →
  sum_list_with f (<[i:=y]> l) + f x = sum_list_with f l + f y.
Proof.
  revert i. induction l as [|a l IH]; intros [|i] Hi; simplify_eq/=; [lia|].
  specialize (IH _ Hi). lia.
Qed.

Lemma sum_list_snoc {A} (f : A → nat) (l : list A) x :
  sum_list_with f (l ++ [x]) = sum_list_with f l + f x.
Proof. rewrite sum_list_with_app. simpl. lia. Qed.

Lemma Forall_insert_2 {A} (P : A → Prop) (l : list A) i x :
  Forall P l → P x → Forall P (<[i:=x]> l).
Proof. intros. by apply Forall_insert. Qed.

Lemma or_select_clauses (cases : list chan) (orDone : chan) b (cl : @clause T Mem) :
  ((λ c, CRecv c (λ _ _, GDeferred [orDone])) <$> cases) !! b = Some cl →
  ∃ c, cl = CRecv c (λ _ _, GDeferred [orDone]).
Proof.
  rewrite list_lookup_fmap. destruct (cases !! b); intros; simplify_eq/=; eauto.
Qed.

Lemma Or_two_or_more (channels : list chan) (w : world) :
  2 ≤ length channels →
  Or channels w =
    (Some (length (chans w)),
     World (chans w ++ [ChanSt 0 [] false []]) (streams w)
           (pool w ++ [GOr channels (Some (length (chans w)))])
           (wgs w) (mem w) (ctx_done w) (panicked w)).
Proof. destruct channels as [|c0 [|c1 rest]]; simpl; intros; [lia..|done]. Qed.

Local Arguments Nat.div : simpl never.

Lemma div2_step n : 2 ≤ n → (n - 2) / 2 = n / 2 - 1.
Proof.
  intros Hn. replace n with ((n - 2) + 1 * 2) at 2 by lia.
  rewrite Nat.div_add by lia. lia.
Qed.

Lemma or_step bound n w ch w' :
  or_inv bound n w → fire ch w = Some w' →
  ∃ n', n' < n ∧ or_inv bound n' w'.
Proof.
  intros (Hk & Hb & Hn) Hf. unfold fire in Hf.
  destruct (panicked w) eqn:Hp; [done|]. subst n.
  destruct ch as [i b|i bi j bj].
  - destruct (pool w !! i) as [g|] eqn:Hg; simpl in Hf; [|done].
    pose proof (proj1 (Forall_lookup _ _) Hk _ _ Hg) as Hkg.
    inv Hkg.
    + (* the goroutine starts *)
      destruct channels as [|c0 [|c1 [|c2 rest]]]; simpl in *; try lia.
      * simplify_eq. eexists. split; [|split; [|split; [|reflexivity]]]; simpl.
        -- rewrite Hp. pose proof (sum_list_insert or_rank _ i _ (GOrSelect [c0; c1] orDone) Hg).
           simpl in *. lia.
        -- apply Forall_insert_2; [done|constructor].
        -- rewrite length_insert.
           pose proof (sum_list_insert or_spawns _ i _ (GOrSelect [c0; c1] orDone) Hg).
           simpl in *. lia.
      * change (match rest ++ [orDone] with
                | [] => ret c2
                | [c] => ret c
                | _ => _ end w) with (Or (rest ++ [orDone]) w) in Hf.
        destruct rest as [|c3 rest].
        -- simpl in Hf. simplify_eq.
           eexists. split; [|split; [|split; [|reflexivity]]]; simpl.
           ++ rewrite Hp.
              pose proof (sum_list_insert or_rank _ i _ (GOrSelect [c0; c1; c2; orDone] orDone) Hg).
              simpl in *. lia.
           ++ apply Forall_insert_2; [done|constructor].
           ++ rewrite length_insert.
              pose proof (sum_list_insert or_spawns _ i _ (GOrSelect [c0; c1; c2; orDone] orDone) Hg).
              simpl in *. lia.
        -- rewrite Or_two_or_more in Hf by (simpl; rewrite length_app; simpl; lia).
           simplify_eq.
           set (g' := GOr ((c3 :: rest) ++ [orDone]) (Some (length (chans w))) : goroutine).
           set (k := GOrSelect [c0; c1; c2; Some (length (chans w))] orDone : goroutine).
           pose proof (sum_list_insert or_rank (pool w ++ [g']) i _ k
                         (lookup_app_l_Some _ _ _ _ Hg)) as Hr.
           pose proof (sum_list_insert or_spawns (pool w ++ [g']) i _ k
                         (lookup_app_l_Some _ _ _ _ Hg)) as Hs.
           rewrite sum_list_snoc in Hr, Hs.
           assert (length ((c3 :: rest) ++ [orDone]) = length rest + 2) as Hlen
             by (rewrite length_app; simpl; lia).
           eexists. split; [|split; [|split; [|reflexivity]]]; simpl.
           ++ rewrite Hp. simpl in *. rewrite Hlen in Hr. unfold k, g' in *. simpl in *. lia.
           ++ apply Forall_insert_2; [|constructor].
              apply Forall_app. split; [done|].
              apply Forall_singleton, or_kind_start. rewrite Hlen. lia.
           ++ rewrite length_insert, length_app. simpl in *. rewrite Hlen in Hs.
              unfold k, g' in *. simpl in *.
              pose proof (div2_step (S (S (S (S (length rest))))) ltac:(lia)) as Hd.
              replace (S (S (S (S (length rest)))) - 2) with (length rest + 2) in Hd by lia.
              pose proof (Nat.div_le_lower_bound (S (S (S (S (length rest))))) 2 2
                            ltac:(lia) ltac:(lia)).
              lia.
    + (* select *)
      simpl in Hf.
      destruct (((λ c, CRecv c (λ _ _, GDeferred [orDone])) <$> cases) !! b) as [cl|] eqn:Hcl;
        simpl in Hf; [|done].
      apply or_select_clauses in Hcl as [c ->]. simpl in Hf.
      destruct c as [c|]; [|done].
      destruct (chans w !! c) as [st|]; simpl in Hf; [|done].
      pose proof (sum_list_insert or_rank _ i _ (GDeferred [orDone]) Hg) as Hr.
      pose proof (sum_list_insert or_spawns _ i _ (GDeferred [orDone]) Hg) as Hs.
      destruct (buf st); [destruct (closed st); [|done]|]; simplify_eq;
        (eexists; split; [|split; [|split; [|reflexivity]]]; simpl;
          [rewrite Hp; simpl in *; lia
          |apply Forall_insert_2; [done|constructor]
          |rewrite length_insert; simpl in *; lia]).
    + (* deferred close *)
      destruct cs as [|c cs]; simpl in Hf; [done|].
      pose proof (sum_list_insert or_rank _ i _ (GDeferred cs) Hg) as Hr.
      pose proof (sum_list_insert or_spawns _ i _ (GDeferred cs) Hg) as Hs.
      destruct c as [c|].
      * destruct (chans w !! c) as [st|]; simpl in Hf; [|done].
        destruct (closed st); simplify_eq.
        -- eexists. split; [|split; [|split; [|reflexivity]]]; simpl; [lia|done|done].
        -- eexists. split; [|split; [|split; [|reflexivity]]]; simpl;
             [rewrite Hp; simpl in *; lia
             |apply Forall_insert_2; [done|constructor]
             |rewrite length_insert; simpl in *; lia].
      * simplify_eq.
        eexists. split; [|split; [|split; [|reflexivity]]]; simpl; [lia|done|done].
  - (* no goroutine of Or sends *)
    destruct (decide (i = j)); [done|].
    destruct (pool w !! i) as [gi|] eqn:Hgi; simpl in Hf; [|done].
    destruct (pool w !! j) as [gj|] eqn:Hgj; simpl in Hf; [|done].
    pose proof (proj1 (Forall_lookup _ _) Hk _ _ Hgi) as Hki.
    inv Hki; simpl in Hf; try done.
    + by destruct channels as [|c0 [|c1 [|c2 rest]]].
    + destruct (next gj); try done.
      destruct (((λ c, CRecv c (λ _ _, GDeferred [orDone])) <$> cases) !! bi) as [cl|] eqn:Hcl;
        simpl in Hf; [|done].
      apply or_select_clauses in Hcl as [c ->]. simpl in Hf.
      by destruct (cls !! bj).
    + by destruct cs.
Qed.

Lemma or_world_start (heap : list chanst) channels (m : Mem) d :
  ∃ n, n ≤ 3 * length channels + 1
    ∧ or_inv (length channels / 2) n (or_world heap channels m d).
Proof.
  unfold or_world.
  destruct (decide (2 ≤ length channels)) as [Hlen|Hlen].
  - rewrite Or_two_or_more by done. simpl.
    eexists. split; [|split; [|split; [|reflexivity]]]; simpl.
    + lia.
    + by apply Forall_singleton, or_kind_start.
    + pose proof (Nat.div_le_lower_bound (length channels) 2 1 ltac:(lia) ltac:(lia)).
      lia.
  - destruct channels as [|c0 [|c1 rest]]; simpl in Hlen; try lia.
    + eexists. split; [|split; [|split; [|reflexivity]]]; simpl; [lia|constructor|lia].
    + eexists. split; [|split; [|split; [|reflexivity]]]; simpl; [lia|constructor|lia].
Qed.

(** C10: with three or more channels the default branch of [Or] calls [Or]
    on [channels[3:]] and the new channel, that is on [len(channels) - 2]
    channels, strictly fewer than its own; and every run of [Or] is bounded
    in length and starts at most [len(channels) / 2] goroutines, so the
    recursion ends. *)
Theorem Or_recursion_terminates (heap : list chanst) (channels : list chan) (m : Mem) d :
  (∀ c0 c1 c2 rest orDone, channels = c0 :: c1 :: c2 :: rest →
     ∃ k, next (GOr channels orDone : goroutine) = ICall (Or (rest ++ [orDone])) k
          ∧ length (rest ++ [orDone]) = length channels - 2
          ∧ length (rest ++ [orDone]) < length channels)
  ∧ (∀ sched w, run sched (or_world heap channels m d) = Some w →
       length sched ≤ 3 * length channels + 1
       ∧ length (pool w) ≤ length channels / 2).
Proof.
  split.
  - intros c0 c1 c2 rest orDone ->. eexists. split; [reflexivity|].
    rewrite length_app. simpl. lia.
  - intros sched w Hrun.
    destruct (or_world_start heap channels m d) as (n & Hn & HI).
    destruct (run_measure _ (or_step (length channels / 2)) _ _ _ _ HI Hrun)
      as (n' & Hlen & (_ & Hb & _)).
    split; lia.
Qed.

(** C7: [Or] of no channel returns the nil channel and [Or] of one channel
    returns that channel; neither starts a goroutine nor makes a channel
    (the world is unchanged). *)
Theorem Or_zero_or_one_channel (w : world) (c : chan) :
  Or [] w = (None, w) ∧ Or [c] w = (c, w).
Proof. done. Qed.

(** ** FanIn *)

Lemma fanin_pool_drain K (ds : list drain_st) rest i d :
  ds !! i = Some d →
  (imap (drain_goroutine K) ds ++ rest) !! i = Some (drain_goroutine K i d).
Proof. intros Hd. apply lookup_app_l_Some. by rewrite list_lookup_imap, Hd. Qed.

Lemma fanin_pool_rest K (ds : list drain_st) rest i :
  ds !! i = None →
  (imap (drain_goroutine K) ds ++ rest) !! i = rest !! (i - length ds).
Proof.
  intros Hd. apply lookup_ge_None in Hd.
  rewrite lookup_app_r by (rewrite length_imap; lia). by rewrite length_imap.
Qed.

Lemma fanin_pool_insert K (ds : list drain_st) rest i d' :
  i < length ds →
  <[i:=drain_goroutine K i d']> (imap (drain_goroutine K) ds ++ rest)
  = imap (drain_goroutine K) (<[i:=d']> ds) ++ rest.
Proof.
  intros Hi. rewrite insert_app_l by (by rewrite length_imap). f_equal.
  apply list_eq. intros j. rewrite list_lookup_imap.
  destruct (decide (i = j)) as [->|Hne].
  - rewrite !list_lookup_insert_eq by (rewrite ?length_imap; lia). done.
  - rewrite !list_lookup_insert_ne by done. by rewrite list_lookup_imap.
Qed.

Lemma fanin_pool_insert_rest K (ds : list drain_st) rest j g :
  <[length ds + j:=g]> (imap (drain_goroutine K) ds ++ rest)
  = imap (drain_goroutine K) ds ++ <[j:=g]> rest.
Proof.
  rewrite <- (length_imap (drain_goroutine K) ds) at 1. apply insert_app_r.
Qed.

Lemma fanin_chan_drain (xss : list (list T)) (ds : list drain_st) out i xs d :
  xss !! i = Some xs → ds !! i = Some d →
  (zip_with drain_chan xss ds ++ [out]) !! i = Some (drain_chan xs d).
Proof.
  intros Hx Hd. apply lookup_app_l_Some. by rewrite lookup_zip_with, Hx, Hd.
Qed.

Lemma fanin_chan_out (xss : list (list T)) (ds : list drain_st) out :
  length ds = length xss →
  (zip_with drain_chan xss ds ++ [out]) !! length xss = Some out.
Proof.
  intros Hl. rewrite lookup_app_r by (rewrite length_zip_with; lia).
  rewrite length_zip_with. replace (length xss - _) with 0 by lia. done.
Qed.

Lemma fanin_chan_insert (xss : list (list T)) (ds : list drain_st) out i xs d' :
  xss !! i = Some xs → i < length ds →
  <[i:=drain_chan xs d']> (zip_with drain_chan xss ds ++ [out])
  = zip_with drain_chan xss (<[i:=d']> ds) ++ [out].
Proof.
  intros Hx Hi. pose proof (lookup_lt_Some _ _ _ Hx).
  rewrite insert_app_l by (rewrite length_zip_with; lia). f_equal.
  rewrite <- (list_insert_id xss i xs Hx) at 2. by rewrite insert_zip_with.
Qed.

Lemma fanin_chan_insert_out (xss : list (list T)) (ds : list drain_st) out out' :
  length ds = length xss →
  <[length xss:=out']> (zip_with drain_chan xss ds ++ [out])
  = zip_with drain_chan xss ds ++ [out'].
Proof.
  intros Hl.
  replace (length xss) with (length (zip_with drain_chan xss ds) + 0) at 1
    by (rewrite length_zip_with; lia).
  by rewrite insert_app_r.
Qed.

Lemma fanin_chan_same (xss : list (list T)) (ds : list drain_st) i d d' :
  ds !! i = Some d → drain_buf d' = drain_buf d →
  zip_with drain_chan xss (<[i:=d']> ds) = zip_with drain_chan xss ds.
Proof.
  intros Hd Hb. apply list_eq. intros j. rewrite !lookup_zip_with.
  destruct (decide (i = j)) as [->|Hne].
  - rewrite list_lookup_insert_eq by (by eapply lookup_lt_Some). rewrite Hd.
    destruct (xss !! j); simpl; [|done]. unfold drain_chan. by rewrite Hb.
  - by rewrite list_lookup_insert_ne.
Qed.

Lemma pending_insert_same (ds : list drain_st) i d d' :
  ds !! i = Some d → drain_pending d' = drain_pending d →
  drain_pending <$> <[i:=d']> ds = drain_pending <$> ds.
Proof.
  intros Hd Hp. rewrite list_fmap_insert, Hp. apply list_insert_id.
  by rewrite list_lookup_fmap, Hd.
Qed.

Lemma pending_insert_sent (ds : list drain_st) i d d' v :
  ds !! i = Some d → drain_pending d = v :: drain_pending d' →
  concat (drain_pending <$> ds) ≡ₚ v :: concat (drain_pending <$> <[i:=d']> ds).
Proof.
  intros Hd Hp. rewrite insert_take_drop by (by eapply lookup_lt_Some).
  rewrite <- (take_drop_middle ds i d Hd) at 1.
  rewrite !fmap_app, !fmap_cons, !concat_app, !concat_cons, Hp.
  simpl. symmetry. apply Permutation_middle.
Qed.

Lemma fanin_intro (xss : list (list T)) (m : Mem) ds gw gs cm hm n nw ns N chs pl :
  length ds = length xss →
  waiter_inv (length xss) gw cm n nw →
  sink_inv (Some (length xss)) gs cm ns →
  n = sum_list_with drain_live ds →
  hm ++ concat (drain_pending <$> ds) ≡ₚ concat xss →
  chs = zip_with drain_chan xss ds ++ [ChanSt 0 [] cm hm] →
  pl = imap (drain_goroutine (length xss)) ds ++ [gw; gs] →
  N = sum_list_with drain_rank ds + nw + ns →
  fanin_inv xss m N (World chs [] pl [n] m false false).
Proof. intros. subst. by apply fanin_running. Qed.

Lemma fanin_step xss m n w ch w' :
  fanin_inv xss m n w → fire ch w = Some w' →
  ∃ n', n' < n ∧ fanin_inv xss m n' w'.
Proof.
  intros HI Hf. destruct HI as [ds gw gs cm hm n nw ns Hlen Hw Hs Hn Hperm].
  unfold fire in Hf. simpl in Hf.
  destruct ch as [i b|i bi j bj].
  - destruct (ds !! i) as [d|] eqn:Hd.
    + (* a drain goroutine *)
      rewrite (fanin_pool_drain _ _ _ _ _ Hd) in Hf. simpl in Hf.
      pose proof (lookup_lt_Some _ _ _ Hd) as Hi.
      destruct (lookup_lt_is_Some_2 xss i ltac:(lia)) as [xs Hx].
      pose proof (sum_list_insert drain_rank ds i d) as Hrank.
      pose proof (sum_list_insert drain_live ds i d) as Hlive.
      destruct d as [buf|val buf| |]; simpl in Hf.
      * (* val, ok := <-c *)
        destruct b as [|b]; simpl in Hf; [|done].
        rewrite (fanin_chan_drain _ _ _ _ _ _ Hx Hd) in Hf. simpl in Hf.
        destruct buf as [|v buf]; simplify_eq.
        -- specialize (Hrank DDone Hd). specialize (Hlive DDone Hd).
           eexists. split; [|eapply (fanin_intro _ _ (<[i:=DDone]> ds)); try done].
           ++ simpl in *. lia.
           ++ by rewrite length_insert.
           ++ simpl in *. lia.
           ++ by rewrite (pending_insert_same _ _ _ _ Hd).
           ++ simpl. by rewrite (fanin_chan_same _ _ _ _ _ Hd).
           ++ simpl. by rewrite <- fanin_pool_insert.
        -- specialize (Hrank (DSend v buf) Hd). specialize (Hlive (DSend v buf) Hd).
           eexists. split; [|eapply (fanin_intro _ _ (<[i:=DSend v buf]> ds)); try done].
           ++ simpl in *. lia.
           ++ by rewrite length_insert.
           ++ simpl in *. lia.
           ++ by rewrite (pending_insert_same _ _ _ _ Hd).
           ++ simpl. by rewrite <- (fanin_chan_insert _ _ _ _ xs).
           ++ simpl. by rewrite <- fanin_pool_insert.
      * (* multiplexed <- val needs the consumer *)
        specialize (Hlive DExit Hd).
        destruct b as [|[|b]]; simpl in Hf; try done.
        rewrite (fanin_chan_out _ _ _ Hlen) in Hf. simpl in Hf.
        destruct cm; [|done]. inv Hw. simpl in *. exfalso. lia.
      * (* wg.Done() *)
        specialize (Hrank DExit Hd). specialize (Hlive DExit Hd).
        destruct n as [|n]; [exfalso; simpl in *; lia|]. simplify_eq.
        inv Hw.
        eexists. split; [|eapply (fanin_intro _ _ (<[i:=DExit]> ds) _ _ _ _ _ 2); try done].
        -- simpl in *. lia.
        -- by rewrite length_insert.
        -- apply waiter_waiting.
        -- simpl in *. lia.
        -- by rewrite (pending_insert_same _ _ _ _ Hd).
        -- simpl. by rewrite (fanin_chan_same _ _ _ _ _ Hd).
        -- simpl. by rewrite <- fanin_pool_insert.
      * done.
    + (* the waiting goroutine or the consumer *)
      rewrite (fanin_pool_rest _ _ _ _ Hd) in Hf.
      apply lookup_ge_None in Hd.
      destruct (i - length ds) as [|[|k]] eqn:Hk; simpl in Hf; [| |done].
      * assert (i = length ds + 0) as -> by lia.
        inv Hw; simpl in Hf.
        -- destruct (sum_list_with drain_live ds) eqn:Hn; [|done]. simplify_eq.
           eexists. split; [|eapply (fanin_intro _ _ ds _ _ _ _ _ 1); try done].
           ++ simpl. lia.
           ++ apply waiter_closing.
           ++ simpl. by rewrite fanin_pool_insert_rest.
        -- rewrite (fanin_chan_out _ _ _ Hlen) in Hf. simpl in Hf. simplify_eq.
           inv Hs.
           eexists. split; [|eapply (fanin_intro _ _ ds _ _ true _ _ 0 1); try done].
           ++ simpl. lia.
           ++ rewrite <- H1. apply waiter_closed.
           ++ constructor.
           ++ simpl. by rewrite fanin_chan_insert_out.
           ++ simpl. by rewrite fanin_pool_insert_rest.
      * assert (i = length ds + 1) as -> by lia.
        inv Hs; simpl in Hf; try done.
        destruct b as [|b]; simpl in Hf; [|done].
        rewrite (fanin_chan_out _ _ _ Hlen) in Hf. simpl in Hf.
        destruct cm; [|done]. simplify_eq.
        eexists. split; [|eapply (fanin_intro _ _ ds _ _ _ _ _ _ 0); try done].
        -- simpl. lia.
        -- constructor.
        -- simpl. by rewrite fanin_pool_insert_rest.
  - (* a drain hands a value to the consumer *)
    destruct (decide (i = j)) as [|Hij]; [done|].
    destruct (ds !! i) as [di|] eqn:Hdi.
    2:{ (* neither the waiting goroutine nor the consumer sends *)
        rewrite (fanin_pool_rest _ _ _ _ Hdi) in Hf.
        destruct (i - length ds) as [|[|k]]; simpl in Hf; [| |done].
        - inv Hw; simpl in Hf; by destruct (_ !! j).
        - inv Hs; simpl in Hf; [|by destruct (_ !! j)].
          destruct (_ !! j) as [gj|]; simpl in Hf; [|done].
          destruct (next gj); try done.
          destruct bi as [|bi]; simpl in Hf; [|done].
          by destruct (cls !! bj). }
    rewrite (fanin_pool_drain _ _ _ _ _ Hdi) in Hf. simpl in Hf.
    destruct di as [buf|val buf| |]; simpl in Hf.
    { destruct (_ !! j) as [gj|]; simpl in Hf; [|done].
      destruct (next gj); try done.
      destruct bi as [|bi]; simpl in Hf; [|done].
      by destruct (cls !! bj). }
    2,3: by destruct (_ !! j).
    destruct bi as [|[|bi]]; simpl in Hf.
    1,3: (destruct (_ !! j) as [gj|]; simpl in Hf; [|done];
          destruct (next gj); try done; by destruct (cls !! bj)).
    destruct (ds !! j) as [dj|] eqn:Hdj.
    { (* a drain receives from its own stream only *)
      rewrite (fanin_pool_drain _ _ _ _ _ Hdj) in Hf. simpl in Hf.
      pose proof (lookup_lt_Some _ _ _ Hdj).
      destruct dj; simpl in Hf; try done.
      - destruct bj as [|bj]; simpl in Hf; [|done].
        destruct (decide (length xss = j)); [lia|done].
      - by destruct bj as [|[|bj]]. }
    rewrite (fanin_pool_rest _ _ _ _ Hdj) in Hf.
    apply lookup_ge_None in Hdj.
    destruct (j - length ds) as [|[|k]] eqn:Hk; simpl in Hf; [| |done].
    { inv Hw; simpl in Hf; done. }
    assert (j = length ds + 1) as -> by lia.
    inv Hs; simpl in Hf; try done.
    destruct bj as [|bj]; simpl in Hf; [|done].
    destruct (decide (length xss = length xss)); [|done].
    rewrite (fanin_chan_out _ _ _ Hlen) in Hf. simpl in Hf.
    destruct cm; [done|]. simplify_eq.
    pose proof (lookup_lt_Some _ _ _ Hdi) as Hi.
    pose proof (sum_list_insert drain_rank ds i _ (DRecv buf) Hdi) as Hrank.
    pose proof (sum_list_insert drain_live ds i _ (DRecv buf) Hdi) as Hlive.
    eexists. split; [|eapply (fanin_intro _ _ (<[i:=DRecv buf]> ds) _ _ _ _ _ _ 1); try done].
    all: simpl in *.
    + lia.
    + by rewrite length_insert.
    + apply sink_ranging.
    + lia.
    + instantiate (1 := hm ++ [val]).
      rewrite <- Hperm, <- app_assoc. apply Permutation_app_head. simpl.
      symmetry. by apply (pending_insert_sent _ _ _ _ _ Hdi).
    + rewrite fanin_chan_insert_out by done.
      by rewrite (fanin_chan_same _ _ _ _ _ Hdi).
    + change (GDrain (Some i) 0 (Some (length xss)))
        with (drain_goroutine (length xss) i (DRecv buf)).
      rewrite fanin_pool_insert by lia.
      rewrite <- (length_insert ds i (DRecv buf)).
      by rewrite fanin_pool_insert_rest.
Qed.

Lemma go_each_spec {A} (f : A → goroutine) (l : list A) (w : world) :
  go_each f l w = (tt, set_pool (λ p, p ++ (f <$> l)) w).
Proof.
  revert w. induction l as [|a l IH]; intros w; simpl.
  - unfold ret, set_pool. destruct w; simpl. by rewrite app_nil_r.
  - unfold bind, go at 1. rewrite IH. unfold set_pool. simpl.
    by rewrite <- app_assoc.
Qed.

Lemma fanin_drains_start (xss : list (list T)) :
  (λ c, GDrain c 0 (Some (length xss)) : goroutine) <$> (Some <$> seq 0 (length xss))
  = imap (drain_goroutine (length xss)) (DRecv <$> xss).
Proof.
  apply list_eq. intros i.
  rewrite list_lookup_imap, !list_lookup_fmap.
  destruct (xss !! i) as [xs|] eqn:Hx; simpl.
  - pose proof (lookup_lt_Some _ _ _ Hx).
    by rewrite (proj2 (lookup_seq 0 (length xss) i i)).
  - apply lookup_ge_None in Hx. by rewrite lookup_seq_ge.
Qed.

Lemma fanin_chans_start (xss : list (list T)) :
  filled <$> xss = zip_with drain_chan xss (DRecv <$> xss).
Proof. induction xss as [|xs xss IH]; csimpl; [done|]. by rewrite IH. Qed.

Lemma fanin_live_start (xss : list (list T)) :
  sum_list_with drain_live (DRecv <$> xss) = length xss.
Proof. induction xss as [|xs xss IH]; csimpl; [done|]. by rewrite IH. Qed.

Lemma fanin_rank_start (xss : list (list T)) :
  sum_list_with drain_rank (DRecv <$> xss) = 2 * length (concat xss) + 2 * length xss.
Proof.
  induction xss as [|xs xss IH]; csimpl; [done|].
  rewrite IH, length_app. lia.
Qed.

Lemma fanin_pending_start (xss : list (list T)) :
  concat (drain_pending <$> (DRecv <$> xss)) = concat xss.
Proof. induction xss as [|xs xss IH]; csimpl; [done|]. by rewrite IH. Qed.

Lemma fanin_world_start (xss : list (list T)) (m : Mem) :
  fanin_inv xss m (2 * length (concat xss) + 2 * length xss + 3) (fanin_world xss m).
Proof.
  unfold fanin_world, FanIn, bind, new_wg, make, go, ret. simpl.
  rewrite go_each_spec. simpl. rewrite length_fmap.
  eapply (fanin_intro _ _ (DRecv <$> xss) _ _ _ [] _ 2 1).
  all: try apply waiter_waiting; try apply sink_ranging.
  all: rewrite ?length_fmap, ?fanin_live_start, ?fanin_pending_start, <- ?fanin_chans_start,
         <- ?fanin_drains_start, ?fanin_rank_start, <- ?app_assoc; try done.
  - by rewrite length_seq.
  - simpl. by rewrite <- app_assoc.
  - lia.
Qed.

Lemma drain_live_exists (ds : list drain_st) :
  0 < sum_list_with drain_live ds →
  ∃ i d, ds !! i = Some d ∧ drain_live d = 1.
Proof.
  induction ds as [|d ds IH]; simpl; [lia|].
  intros Hs. destruct (drain_live d) eqn:Hd.
  - destruct IH as (i & d' & ? & ?); [lia|]. by exists (S i), d'.
  - exists 0, d. split; [done|]. by destruct d.
Qed.

(** C4: with the context never cancelled, whatever the schedule, the values
    [FanIn] has sent on its output are, up to order, part of the values of
    the input streams, and once the output is closed they are, up to order,
    exactly those values: none lost, none duplicated.  Nothing panics, the
    run is never stuck before the close and is bounded in length. *)
Theorem FanIn_merges (xss : list (list T)) (m : Mem) sched w :
  run sched (fanin_world xss m) = Some w →
  ∃ st, chans w !! length xss = Some st ∧ panicked w = false
    ∧ (∃ pending, hist st ++ pending ≡ₚ concat xss)
    ∧ (closed st = true → hist st ≡ₚ concat xss)
    ∧ (closed st = false → ∃ ch w', fire ch w = Some w')
    ∧ length sched ≤ 2 * length (concat xss) + 2 * length xss + 3.
Proof.
  intros Hrun.
  destruct (run_measure _ (fanin_step xss m) _ _ _ _ (fanin_world_start xss m) Hrun)
    as (n' & Hbound & HI).
  destruct HI as [ds gw gs cm hm n nw ns Hlen Hw Hs Hn Hperm].
  eexists. split; [by apply fanin_chan_out|]. simpl.
  split; [done|]. split; [eauto|].
  split.
  { intros ->. inv Hw.
    assert (Forall (λ d, drain_pending d = []) ds) as Hnil.
    { apply Forall_forall. intros d Hd.
      pose proof (sum_list_with_in _ drain_live _ Hd) as Hle.
      destruct d; simpl in *; try done; lia. }
    assert (concat (drain_pending <$> ds) = []) as Hc.
    { clear -Hnil. induction Hnil as [|d ds Hd _ IH]; csimpl; [done|]. by rewrite Hd, IH. }
    by rewrite Hc, app_nil_r in Hperm. }
  split; [|lia].
  intros ->. unfold fire. simpl.
  destruct (sum_list_with drain_live ds) as [|k] eqn:Hk.
  - (* every drain has returned: wg.Wait() passes, then close *)
    exists (Solo (length ds + 0) 0).
    rewrite fanin_pool_rest by (apply lookup_ge_None; lia).
    replace (length ds + 0 - length ds) with 0 by lia. simpl.
    inv Hw; simpl; [eauto|].
    rewrite (fanin_chan_out _ _ _ Hlen). simpl. eauto.
  - destruct (drain_live_exists ds) as (i & d & Hd & Hlive); [lia|].
    pose proof (lookup_lt_Some _ _ _ Hd) as Hi.
    destruct (lookup_lt_is_Some_2 xss i ltac:(lia)) as [xs Hx].
    destruct d as [buf|val buf| |]; [| | |done].
    + exists (Solo i 0). rewrite (fanin_pool_drain _ _ _ _ _ Hd). simpl.
      rewrite (fanin_chan_drain _ _ _ _ _ _ Hx Hd). simpl.
      destruct buf; eauto.
    + exists (Sync i 1 (length ds + 1) 0).
      destruct (decide (i = length ds + 1)); [lia|].
      rewrite (fanin_pool_drain _ _ _ _ _ Hd). simpl.
      rewrite fanin_pool_rest by (apply lookup_ge_None; lia).
      replace (length ds + 1 - length ds) with 1 by lia. simpl.
      inv Hs. simpl.
      destruct (decide (length xss = length xss)); [|done].
      rewrite (fanin_chan_out _ _ _ Hlen). simpl. eauto.
    + exists (Solo i 0). rewrite (fanin_pool_drain _ _ _ _ _ Hd). subst n. simpl. eauto.
Qed.

(** ** Bridge *)

Lemma lookup_replicate_app {A} d (x : A) (l : list A) i :
  (replicate d x ++ l) !! i = if decide (i < d) then Some x else l !! (i - d).
Proof.
  destruct (decide (i < d)).
  - rewrite lookup_app_l by (by rewrite length_replicate).
    by apply lookup_replicate_2.
  - rewrite lookup_app_r by (rewrite length_replicate; lia).
    by rewrite length_replicate.
Qed.

Lemma length_inner_chans (xss : list (list T)) d b :
  length (inner_chans xss d b) = length xss.
Proof. apply length_imap. Qed.

Lemma length_closed_dyn (xss : list (list T)) d :
  d ≤ length xss → length (closed_dyn xss d) = d.
Proof. intros. unfold closed_dyn. rewrite length_fmap, length_take. lia. Qed.

Lemma bridge_chan_inner (xss : list (list T)) d b rest xs :
  xss !! d = Some xs →
  (inner_chans xss d b ++ rest) !! d = Some (ChanSt (length xs) b true xs).
Proof.
  intros Hx. apply lookup_app_l_Some. unfold inner_chans.
  rewrite list_lookup_imap, Hx. simpl.
  destruct (decide (d < d)); [lia|]. by destruct (decide (d = d)).
Qed.

Lemma bridge_chan_out (xss : list (list T)) d b out rest :
  (inner_chans xss d b ++ out :: rest) !! length xss = Some out.
Proof.
  rewrite lookup_app_r by (by rewrite length_inner_chans).
  rewrite length_inner_chans. by replace (length xss - length xss) with 0 by lia.
Qed.

Lemma bridge_chan_dyn (xss : list (list T)) d b out stv :
  d ≤ length xss →
  (inner_chans xss d b ++ out :: (closed_dyn xss d ++ [stv])) !! (length xss + 1 + d)
  = Some stv.
Proof.
  intros Hd. rewrite lookup_app_r by (rewrite length_inner_chans; lia).
  rewrite length_inner_chans.
  replace (length xss + 1 + d - length xss) with (S d) by lia. simpl.
  rewrite lookup_app_r by (rewrite length_closed_dyn; lia).
  rewrite length_closed_dyn by done. by replace (d - d) with 0 by lia.
Qed.

Lemma bridge_insert_inner (xss : list (list T)) d b b' rest xs :
  xss !! d = Some xs →
  <[d:=ChanSt (length xs) b' true xs]> (inner_chans xss d b ++ rest)
  = inner_chans xss d b' ++ rest.
Proof.
  intros Hx. pose proof (lookup_lt_Some _ _ _ Hx).
  rewrite insert_app_l by (by rewrite length_inner_chans). f_equal.
  apply list_eq. intros i. unfold inner_chans.
  destruct (decide (d = i)) as [<-|Hne].
  - rewrite list_lookup_insert_eq by (by rewrite length_imap).
    rewrite list_lookup_imap, Hx. simpl.
    destruct (decide (d < d)); [lia|]. by destruct (decide (d = d)).
  - rewrite list_lookup_insert_ne by done. rewrite !list_lookup_imap.
    destruct (xss !! i); simpl; [|done].
    destruct (decide (i < d)); [done|]. by destruct (decide (i = d)).
Qed.

Lemma bridge_insert_out (xss : list (list T)) d b out out' rest :
  <[length xss:=out']> (inner_chans xss d b ++ out :: rest)
  = inner_chans xss d b ++ out' :: rest.
Proof.
  replace (length xss) with (length (inner_chans xss d b) + 0) at 1
    by (rewrite length_inner_chans; lia).
  by rewrite insert_app_r.
Qed.

Lemma bridge_insert_dyn (xss : list (list T)) d b out stv stv' :
  d ≤ length xss →
  <[length xss + 1 + d:=stv']>
    (inner_chans xss d b ++ out :: (closed_dyn xss d ++ [stv]))
  = inner_chans xss d b ++ out :: (closed_dyn xss d ++ [stv']).
Proof.
  intros Hd.
  replace (length xss + 1 + d) with (length (inner_chans xss d b) + S d)
    by (rewrite length_inner_chans; lia).
  rewrite insert_app_r. simpl. do 2 f_equal.
  rewrite <- (length_closed_dyn xss d Hd) at 1.
  replace (length (closed_dyn xss d)) with (length (closed_dyn xss d) + 0) by lia.
  by rewrite insert_app_r.
Qed.

Lemma bridge_chans_length (xss : list (list T)) d b out :
  d ≤ length xss →
  length (inner_chans xss d b ++ out :: (closed_dyn xss d ++ [])) = length xss + 1 + d.
Proof.
  intros. rewrite length_app, length_inner_chans. simpl.
  rewrite length_app, length_closed_dyn by done. simpl. lia.
Qed.

Lemma inner_chans_next (xss : list (list T)) d :
  inner_chans xss d [] = inner_chans xss (S d) (default [] (xss !! S d)).
Proof.
  apply list_eq. intros i. unfold inner_chans. rewrite !list_lookup_imap.
  destruct (xss !! i) as [xs|] eqn:Hx; simpl; [|done].
  do 2 f_equal.
  destruct (decide (i < d)), (decide (i < S d)), (decide (i = d)), (decide (i = S d));
    try done; try lia.
  subst. by rewrite Hx.
Qed.

Lemma inner_chans_full (xss : list (list T)) d xs :
  xss !! d = Some xs →
  inner_chans xss d (default [] (xss !! d)) = inner_chans xss d xs.
Proof. by intros ->. Qed.

Lemma inner_chans_start (xss : list (list T)) :
  inner_chans xss 0 (default [] (xss !! 0)) = filled <$> xss.
Proof.
  apply list_eq. intros i. unfold inner_chans.
  rewrite list_lookup_imap, list_lookup_fmap.
  destruct (xss !! i) as [xs|] eqn:Hx; simpl; [|done].
  unfold filled. do 2 f_equal.
  destruct (decide (i < 0)); [lia|].
  destruct (decide (i = 0)) as [->|]; [|done]. by rewrite Hx.
Qed.

Lemma closed_dyn_next (xss : list (list T)) d xs :
  xss !! d = Some xs →
  closed_dyn xss d ++ [ChanSt 0 [] true xs] = closed_dyn xss (S d).
Proof.
  intros Hx. unfold closed_dyn. by rewrite (take_S_r _ _ _ Hx), fmap_app.
Qed.

Lemma bridge_streams_next n d s :
  (Some <$> seq 0 n) !! d = Some s → s = Some d ∧ d < n.
Proof.
  rewrite list_lookup_fmap. intros Hs.
  destruct (seq 0 n !! d) as [k|] eqn:Hk; simplify_eq/=.
  apply lookup_seq in Hk as [-> ?]. done.
Qed.

Lemma bridge_cost_next (xss : list (list T)) d xs :
  xss !! d = Some xs →
  sum_list_with stream_cost (drop d xss)
  = 4 * length xs + 5 + sum_list_with stream_cost (drop (S d) xss).
Proof. intros Hx. by rewrite (drop_S _ _ _ Hx). Qed.

Lemma bridge_pool_insert {A} d (x go go' : A) :
  <[d:=go']> (replicate d x ++ [go]) = replicate d x ++ [go'].
Proof.
  replace d with (length (replicate d x) + 0) at 1 by (rewrite length_replicate; lia).
  by rewrite insert_app_r.
Qed.

Lemma bridge_pool_next {A} d (x : A) :
  replicate d x ++ [x] = replicate (S d) x ++ [].
Proof. by rewrite app_nil_r, replicate_S_end. Qed.

Lemma bridge_hist_next (xss : list (list T)) d xs j :
  xss !! d = Some xs → length xs ≤ j →
  concat (take d xss) ++ take j xs = concat (take (S d) xss).
Proof.
  intros Hx Hj. rewrite (take_S_r _ _ _ Hx), concat_app. simpl.
  rewrite app_nil_r. rewrite (take_ge xs j) by lia. done.
Qed.

Lemma bridge_intro (xss : list (list T)) (m : Mem) d gb gs soff live dynlive b cl hout
    nb ns N chs ss pl :
  d ≤ length xss →
  bridge_inv xss d gb soff live dynlive b cl hout nb →
  sink_inv (Some (length xss)) gs cl ns →
  chs = inner_chans xss d b ++ ChanSt 0 [] cl hout :: (closed_dyn xss d ++ dynlive) →
  ss = [drop soff (Some <$> seq 0 (length xss))] →
  pl = gb :: gs :: (replicate d (GDeferred []) ++ live) →
  N = nb + ns →
  bridge_world_inv xss m N (World chs ss pl [] m false false).
Proof. intros. subst. by apply bridge_running. Qed.

Local Arguments inner_chans : simpl never.
Local Arguments closed_dyn : simpl never.
Local Arguments replicate : simpl never.

Ltac bridge_cases H :=
  unfold fire in H; simpl in H;
  repeat match type of H with
  | context [match ?ch with Solo _ _ => _ | Sync _ _ _ _ => _ end] =>
      destruct ch; simpl in H
  | context [decide ?P] => destruct (decide P); simpl in H
  | context [@lookup nat _ _ _ ?c ?l] =>
      match goal with H' : l !! c = _ |- _ => rewrite H' in H; simpl in H end
  | context [(replicate ?d ?x ++ ?l) !! ?i] =>
      rewrite (lookup_replicate_app d x l i) in H
  | context [@lookup nat _ _ _ (?i - ?d) (_ :: _)] =>
      let Hk := fresh "Hk" in destruct (i - d) eqn:Hk; simpl in H
  | context [@lookup nat _ _ _ (?i - ?d) []] =>
      let Hk := fresh "Hk" in destruct (i - d) eqn:Hk; simpl in H
  | context [@lookup nat _ _ _ ?i (_ :: _)] => destruct i; simpl in H
  | context [@lookup nat _ _ _ ?i []] => destruct i; simpl in H
  | context [match drop ?j ?l with [] => _ | _ :: _ => _ end] =>
      let Hd := fresh "Hd" in
      destruct (drop j l) eqn:Hd in H;
      [apply drop_lookup_nil in Hd|apply drop_lookup_cons in Hd as [? ?]];
      simpl in H
  | _ => discriminate H
  end.

Lemma bridge_step xss m n w ch w' :
  bridge_world_inv xss m n w → fire ch w = Some w' →
  ∃ n', n' < n ∧ bridge_world_inv xss m n' w'.
Proof.
  intros HI Hf.
  destruct HI as [d gb gs soff live dynlive b cl hout nb ns Hd Hb Hs].
  inv Hb.
  - (* at the select over streams *)
    match type of Hf with context [World ?chs _ _ _ _ _ _] =>
      assert (chs !! length xss = Some (ChanSt 0 [] false (concat (take soff xss))))
        as Hout by apply bridge_chan_out end.
    inv Hs. bridge_cases Hf; simplify_eq; wsimpl.
    + (* streams is closed *)
      rewrite length_fmap, length_seq in *.
      eexists. split; [|eapply (bridge_intro _ _ soff);
        [done|by apply bridge_closing|apply sink_ranging| | |reflexivity|reflexivity] ].
      * simpl. lia.
      * rewrite lookup_ge_None_2 by lia. simpl. by rewrite firstn_all2 by lia.
      * by rewrite drop_ge by (rewrite length_fmap, length_seq; lia).
    + (* the next inner stream *)
      match goal with H : _ !! soff = Some _ |- _ =>
        apply bridge_streams_next in H as [-> Hlt] end.
      destruct (lookup_lt_is_Some_2 xss soff Hlt) as [xs Hx].
      eexists. split; [|eapply (bridge_intro _ _ soff);
        [done|by apply (bridge_inner _ _ xs)|apply sink_ranging
        |by rewrite Hx|reflexivity|reflexivity|reflexivity] ].
      simpl. lia.
  - (* the call of OrDone *)
    match type of Hf with context [World ?chs _ _ _ _ _ _] =>
      assert (chs !! length xss = Some (ChanSt 0 [] false (concat (take d xss))))
        as Hout by apply bridge_chan_out end.
    inv Hs. bridge_cases Hf; simplify_eq; wsimpl.
    rewrite bridge_chans_length by done.
    pose proof (bridge_cost_next _ _ _ H) as Hcost.
    eexists. split; [|eapply (bridge_intro _ _ d);
      [done
      |eapply (bridge_range _ _ b _ _ _ 0); [done|by apply (ordone_recv _ _ _ 0)|by rewrite app_nil_r]
      |apply sink_ranging
      |by rewrite app_nil_r, <- app_assoc
      |reflexivity
      |by rewrite app_nil_r
      |reflexivity] ].
    simpl. lia.
  - (* ranging over the output of OrDone *)
    match type of Hf with context [World ?chs _ _ _ _ _ _] =>
      assert (chs !! length xss
              = Some (ChanSt 0 [] false (concat (take d xss) ++ take j xs)))
        as Hout by apply bridge_chan_out;
      assert (chs !! d = Some (ChanSt (length xs) b true xs))
        as Hin by (by apply bridge_chan_inner);
      assert (chs !! (length xss + 1 + d) = Some stv)
        as Hdyn by (by apply bridge_chan_dyn)
    end.
    pose proof (lookup_lt_Some _ _ _ H) as Hlt.
    inv Hs; inv H0; bridge_cases Hf; simplify_eq; try (exfalso; lia); wsimpl.
    all: try (assert (i = d) as -> by lia; rewrite bridge_pool_insert).
    + (* OrDone finds the inner stream closed *)
      eexists. split; [|eapply (bridge_intro _ _ d);
        [done
        |eapply (bridge_range _ _ xs _ _ _ j);
           [done|by apply (ordone_closing _ _ _ j (take j xs)); [|apply take_ge]|done]
        |apply sink_ranging|reflexivity|reflexivity|reflexivity|reflexivity] ].
      simpl. lia.
    + (* OrDone receives a value *)
      rewrite bridge_insert_inner by done.
      eexists. split; [|eapply (bridge_intro _ _ d);
        [done
        |eapply (bridge_range _ _ xs _ _ _ j);
           [done|by eapply (ordone_send _ _ _ j)|done]
        |apply sink_ranging|reflexivity|reflexivity|reflexivity|reflexivity] ].
      lookup_bounds. simpl. lia.
    + (* OrDone hands the value to Bridge *)
      rewrite bridge_insert_dyn by done.
      eexists. split; [|eapply (bridge_intro _ _ d);
        [done
        |eapply (bridge_send _ _ xs _ _ _ j v);
           [done|done|by apply (ordone_recv _ _ _ (S j)); [|apply take_snoc_lookup]|done]
        |apply sink_ranging|reflexivity|reflexivity|reflexivity|reflexivity] ].
      lookup_bounds. simpl. lia.
    + (* OrDone closes its output *)
      rewrite bridge_insert_dyn by done.
      eexists. split; [|eapply (bridge_intro _ _ d);
        [done
        |eapply (bridge_range _ _ xs _ _ _ j);
           [done|by apply (ordone_closed _ _ _ j)|done]
        |apply sink_ranging|reflexivity|reflexivity|reflexivity|reflexivity] ].
      simpl. lia.
    + (* the range loop ends: back to the select over streams *)
      rewrite inner_chans_next, (closed_dyn_next _ _ _ H), bridge_pool_next.
      rewrite (bridge_hist_next _ _ _ _ H) by done.
      eexists. split; [|eapply (bridge_intro _ _ (S d));
        [lia|by apply bridge_outer
        |apply sink_ranging|by rewrite app_nil_r|reflexivity|reflexivity|reflexivity] ].
      simpl. lia.
  - (* about to forward a value *)
    match type of Hf with context [World ?chs _ _ _ _ _ _] =>
      assert (chs !! length xss
              = Some (ChanSt 0 [] false (concat (take d xss) ++ take j xs)))
        as Hout by apply bridge_chan_out;
      assert (chs !! d = Some (ChanSt (length xs) b true xs))
        as Hin by (by apply bridge_chan_inner);
      assert (chs !! (length xss + 1 + d) = Some stv)
        as Hdyn by (by apply bridge_chan_dyn)
    end.
    pose proof (lookup_lt_Some _ _ _ H) as Hlt.
    inv Hs; inv H1; bridge_cases Hf; simplify_eq; try (exfalso; lia); wsimpl.
    all: try (assert (i = d) as -> by lia; rewrite bridge_pool_insert).
    all: rewrite ?bridge_insert_inner, ?bridge_insert_dyn, ?bridge_insert_out by done.
    all: lookup_bounds.
    all: clear Hout Hin Hdyn; lookup_bounds.
    all: eexists; (split; [|eapply (bridge_intro _ _ d);
      [ | | |reflexivity|reflexivity|reflexivity|reflexivity];
      [done
      |first [ eapply (bridge_send _ _ xs _ _ _ j val); [done|done| |done]
             | eapply (bridge_range _ _ xs _ _ _ (S j));
                 [done| |by rewrite <- app_assoc, (take_snoc_lookup _ _ _ H0)] ];
       econstructor; first [done|lia|by rewrite take_ge by lia]
      |apply sink_ranging] ]).
    all: simpl; lia.
  - (* close(values) *)
    match type of Hf with context [World ?chs _ _ _ _ _ _] =>
      assert (chs !! length xss = Some (ChanSt 0 [] false (concat xss)))
        as Hout by apply bridge_chan_out end.
    inv Hs; bridge_cases Hf; simplify_eq; try (exfalso; lia); wsimpl.
    rewrite bridge_insert_out.
    eexists; (split; [|eapply (bridge_intro _ _ soff);
      [ | | |reflexivity|reflexivity|reflexivity|reflexivity];
      [done|by apply bridge_closed|apply sink_ranging] ]).
    simpl. lia.
  - (* the consumer sees the close *)
    match type of Hf with context [World ?chs _ _ _ _ _ _] =>
      assert (chs !! length xss = Some (ChanSt 0 [] true (concat xss)))
        as Hout by apply bridge_chan_out end.
    inv Hs; bridge_cases Hf; simplify_eq; try (exfalso; lia); wsimpl.
    eexists; (split; [|eapply (bridge_intro _ _ soff);
      [ | | |reflexivity|reflexivity|reflexivity|reflexivity];
      [done|by apply bridge_closed|apply sink_returned] ]).
    simpl. lia.
Qed.

Lemma bridge_cost_total (xss : list (list T)) :
  sum_list_with stream_cost xss = 4 * length (concat xss) + 5 * length xss.
Proof.
  induction xss as [|xs xss IH]; simpl; [done|].
  rewrite IH, length_app. unfold stream_cost. lia.
Qed.

Lemma bridge_world_start (xss : list (list T)) (m : Mem) :
  bridge_world_inv xss m (4 * length (concat xss) + 5 * length xss + 3)
    (bridge_world xss m).
Proof.
  unfold bridge_world, Bridge, bind, make, go, ret, world0. simpl.
  rewrite length_fmap.
  eapply (bridge_intro _ _ 0);
    [lia|by apply bridge_outer|apply sink_ranging| |reflexivity|reflexivity|].
  - by rewrite inner_chans_start.
  - rewrite bridge_cost_total, drop_0. lia.
Qed.

Lemma bridge_hist_prefix (xss : list (list T)) d xs j :
  xss !! d = Some xs →
  concat (take d xss) ++ take j xs `prefix_of` concat xss.
Proof.
  intros Hx.
  replace (concat xss) with (concat (take d xss) ++ xs ++ concat (drop (S d) xss)).
  - apply prefix_app, prefix_app_r, prefix_take.
  - rewrite <- (take_drop_middle xss d xs Hx) at 3. by rewrite concat_app.
Qed.

Lemma bridge_hist_prefix_outer (xss : list (list T)) d :
  concat (take d xss) `prefix_of` concat xss.
Proof.
  replace (concat xss) with (concat (take d xss) ++ concat (drop d xss)).
  - by apply prefix_app_r.
  - by rewrite <- concat_app, take_drop.
Qed.

(** C5: with the context never cancelled, whatever the schedule, the output
    of [Bridge] is a prefix of the inner streams' values taken stream after
    stream, and once it is closed it is exactly their concatenation.  Nothing
    panics, the run is never stuck before the close and is bounded in
    length. *)
Theorem Bridge_flattens (xss : list (list T)) (m : Mem) sched w :
  run sched (bridge_world xss m) = Some w →
  ∃ st, chans w !! length xss = Some st ∧ panicked w = false
    ∧ hist st `prefix_of` concat xss
    ∧ (closed st = true → hist st = concat xss)
    ∧ (closed st = false → ∃ ch w', fire ch w = Some w')
    ∧ length sched ≤ 4 * length (concat xss) + 5 * length xss + 3.
Proof.
  intros Hrun.
  destruct (run_measure _ (bridge_step xss m) _ _ _ _ (bridge_world_start xss m) Hrun)
    as (n' & Hbound & HI).
  destruct HI as [d gb gs soff live dynlive b cl hout nb ns Hd Hb Hs].
  eexists. split; [by apply bridge_chan_out|]. simpl.
  split; [done|].
  split; [inv Hb; eauto using bridge_hist_prefix, bridge_hist_prefix_outer|].
  split; [inv Hb; intros; simplify_eq; done|].
  split; [|lia].
  intros ->. unfold fire. simpl.
  inv Hb.
  - exists (Solo 0 0). simpl. destruct (drop _ _); eauto.
  - exists (Solo 0 0). simpl. eauto.
  - match goal with H : ordone_inv _ _ _ _ _ _ _ _ |- _ => inv H end.
    + exists (Solo (S (S d)) 1). simpl.
      rewrite lookup_replicate_app. destruct (decide (d < d)); [lia|].
      replace (d - d) with 0 by lia. simpl.
      rewrite (bridge_chan_inner _ _ _ _ xs) by done. simpl.
      destruct (drop j xs); eauto.
    + exists (Sync (S (S d)) 0 0 0). simpl.
      rewrite lookup_replicate_app. destruct (decide (d < d)); [lia|].
      replace (d - d) with 0 by lia. simpl.
      destruct (decide (length xss + 1 + d = length xss + 1 + d)); [|done].
      rewrite bridge_chan_dyn by done. simpl. eauto.
    + exists (Solo (S (S d)) 0). simpl.
      rewrite lookup_replicate_app. destruct (decide (d < d)); [lia|].
      replace (d - d) with 0 by lia. simpl.
      rewrite bridge_chan_dyn by done. simpl. eauto.
    + exists (Solo 0 0). simpl.
      rewrite bridge_chan_dyn by done. simpl. eauto.
  - exists (Sync 0 0 1 0). simpl. inv Hs. simpl.
    destruct (decide (length xss = length xss)); [|done].
    rewrite bridge_chan_out. simpl. eauto.
  - exists (Solo 0 0). simpl. rewrite bridge_chan_out. simpl. eauto.
Qed.

(** ** Or under a changing environment *)

Local Arguments or_pool : simpl never.
Local Arguments or_goroutine : simpl never.

Local Abbreviation or_occur := (@or_occur T zero Mem).
Local Abbreviation or_run := (@or_run T zero Mem).
Local Abbreviation or_event := (@or_event T).
Local Abbreviation or_goroutine := (@or_goroutine T Mem).
Local Abbreviation or_pool := (@or_pool T Mem).
Local Abbreviation or_consumer := (@or_consumer T Mem).
Local Abbreviation or_chan := (@or_chan T).

Lemma or_pool_cons channels n s0 rest cons :
  or_pool channels n (s0 :: rest) cons
  = or_goroutine channels n 0 s0
    :: (or_consumer n <$> cons) ++ imap (or_goroutine channels n ∘ S) rest.
Proof. done. Qed.

Lemma or_pool_stage channels n sts cons j s :
  sts !! j = Some s →
  or_pool channels n sts cons !! or_idx (length cons) j
  = Some (or_goroutine channels n j s).
Proof.
  destruct sts as [|s0 rest]; [done|]. rewrite or_pool_cons.
  destruct j as [|j]; simpl; intros Hs; [by simplify_eq|].
  rewrite lookup_app_r by (rewrite length_fmap; lia).
  rewrite length_fmap.
  replace (length cons + j - length cons) with j by lia.
  by rewrite list_lookup_imap, Hs.
Qed.

Lemma or_pool_consumer channels n sts cons c b :
  1 ≤ length sts → cons !! c = Some b →
  or_pool channels n sts cons !! S c = Some (or_consumer n b).
Proof.
  destruct sts as [|s0 rest]; [simpl; lia|]. intros _ Hc. rewrite or_pool_cons. simpl.
  apply lookup_app_l_Some. by rewrite list_lookup_fmap, Hc.
Qed.

Lemma or_pool_lookup channels n sts cons i g :
  1 ≤ length sts →
  or_pool channels n sts cons !! i = Some g →
  (∃ j s, i = or_idx (length cons) j ∧ sts !! j = Some s
          ∧ g = or_goroutine channels n j s)
  ∨ (∃ c b, i = S c ∧ cons !! c = Some b ∧ g = or_consumer n b).
Proof.
  destruct sts as [|s0 rest]; [simpl; lia|]. intros _. rewrite or_pool_cons.
  destruct i as [|i]; simpl.
  - intros; simplify_eq. left. by exists 0, s0.
  - intros Hi. apply lookup_app_Some in Hi as [Hi|[Hlen Hi]].
    + right. rewrite list_lookup_fmap in Hi.
      destruct (cons !! i) as [b|] eqn:Hb; simplify_eq/=. eauto.
    + left. rewrite length_fmap in Hlen, Hi. rewrite list_lookup_imap in Hi.
      destruct (rest !! (i - length cons)) as [s|] eqn:Hs; simplify_eq/=.
      exists (S (i - length cons)), s. simpl. split; [f_equal; lia|done].
Qed.

Lemma or_pool_insert_stage channels n sts cons j s :
  j < length sts →
  <[or_idx (length cons) j := or_goroutine channels n j s]> (or_pool channels n sts cons)
  = or_pool channels n (<[j:=s]> sts) cons.
Proof.
  destruct sts as [|s0 rest]; [simpl; lia|]. intros Hj.
  destruct j as [|j]; [done|]. simpl in Hj.
  change (<[S j:=s]> (s0 :: rest)) with (s0 :: <[j:=s]> rest).
  rewrite !or_pool_cons. simpl. f_equal.
  rewrite insert_app_r_alt by (rewrite length_fmap; lia).
  rewrite length_fmap. replace (length cons + j - length cons) with j by lia.
  f_equal. apply list_eq. intros i.
  destruct (decide (i = j)) as [->|Hne].
  - rewrite list_lookup_insert_eq by (rewrite length_imap; lia).
    rewrite list_lookup_imap, list_lookup_insert_eq by lia. done.
  - rewrite list_lookup_insert_ne by done.
    rewrite !list_lookup_imap, list_lookup_insert_ne by done. done.
Qed.

Lemma or_pool_insert_consumer channels n sts cons c b :
  1 ≤ length sts → c < length cons →
  <[S c := or_consumer n b]> (or_pool channels n sts cons)
  = or_pool channels n sts (<[c:=b]> cons).
Proof.
  destruct sts as [|s0 rest]; [simpl; lia|]. intros _ Hc.
  rewrite !or_pool_cons. simpl. f_equal.
  rewrite insert_app_l by (rewrite length_fmap; lia).
  by rewrite list_fmap_insert.
Qed.

Lemma or_pool_spawn channels n sts cons :
  1 ≤ length sts →
  or_pool channels n sts cons ++ [or_goroutine channels n (length sts) OStart]
  = or_pool channels n (sts ++ [OStart]) cons.
Proof.
  destruct sts as [|s0 rest]; [simpl; lia|]. intros _.
  change ((s0 :: rest) ++ [OStart]) with (s0 :: (rest ++ [OStart])).
  rewrite !or_pool_cons. simpl. f_equal.
  rewrite imap_app. simpl. rewrite <- app_assoc, Nat.add_0_r. done.
Qed.

(** The channels of Or's own making sit behind the inputs. *)
Lemma or_chans_input (ins : list chanst) sts i :
  i < length ins → (ins ++ (or_chan <$> sts)) !! i = ins !! i.
Proof. intros. by apply lookup_app_l. Qed.

Lemma or_chans_made (ins : list chanst) sts j :
  (ins ++ (or_chan <$> sts)) !! (length ins + j) = or_chan <$> sts !! j.
Proof.
  rewrite lookup_app_r by lia.
  replace (length ins + j - length ins) with j by lia.
  by rewrite list_lookup_fmap.
Qed.

Lemma or_chans_insert_input (ins : list chanst) sts i st :
  i < length ins →
  <[i:=st]> (ins ++ (or_chan <$> sts)) = <[i:=st]> ins ++ (or_chan <$> sts).
Proof. intros. by apply insert_app_l. Qed.

Lemma or_chans_insert_made (ins : list chanst) sts j s :
  <[length ins + j := or_chan s]> (ins ++ (or_chan <$> sts))
  = ins ++ (or_chan <$> <[j:=s]> sts).
Proof.
  rewrite insert_app_r_alt by lia.
  replace (length ins + j - length ins) with j by lia.
  by rewrite list_fmap_insert.
Qed.

Lemma elem_of_drop_1 {A} (l : list A) k x : x ∈ drop k l → x ∈ l.
Proof. intros Hx. rewrite <- (take_drop k l). apply elem_of_app. by right. Qed.

Lemma or_args_length channels n j :
  2 + 2 * j ≤ length channels →
  length (or_args channels n j) = length channels - 2 * j.
Proof.
  induction j as [|j IH]; intros Hj; simpl; [lia|].
  rewrite length_app, length_drop, IH by lia. simpl. lia.
Qed.

Lemma or_args_elem channels n j c :
  c ∈ or_args channels n j → c ∈ channels ∨ ∃ j', j' < j ∧ c = Some (n + j').
Proof.
  induction j as [|j IH]; simpl; [by left|].
  rewrite elem_of_app, list_elem_of_singleton. intros [Hc| ->].
  - apply elem_of_drop_1 in Hc. destruct (IH Hc) as [?|(j' & ? & ?)]; [by left|].
    right. exists j'. split; [lia|done].
  - right. exists j. split; [lia|done].
Qed.

Lemma or_cases_elem channels n j c :
  c ∈ or_cases channels n j →
  c ∈ or_args channels n j ∨ c = Some (n + j) ∨ c = Some (n + S j).
Proof.
  unfold or_cases.
  destruct (or_args channels n j) as [|c0 [|c1 [|c2 rest]]];
    [intros Hc; first [by left | by apply elem_of_nil in Hc]..|].
  rewrite !elem_of_cons, elem_of_nil.
  intros [->|[->|[->|[->|[]]]]]; [left; by eauto..|].
  right. destruct rest; [by left|by right].
Qed.

(** A select of Or reads an input only if Or was called on it. *)
Lemma or_cases_input channels n j i :
  Some i ∈ or_cases channels n j → i < n → Some i ∈ channels.
Proof.
  intros Hc Hi. apply or_cases_elem in Hc as [Hc|[?|?]]; simplify_eq; try lia.
  apply or_args_elem in Hc as [?|(j' & ? & ?)]; simplify_eq; [done|lia].
Qed.

(** A goroutine that started another one selects on that one's channel. *)
Lemma or_cases_next channels n j :
  4 + 2 * j ≤ length channels →
  or_cases channels n j !! 3 = Some (Some (n + S j)).
Proof.
  intros Hj. pose proof (or_args_length channels n j ltac:(lia)) as Hlen.
  unfold or_cases.
  destruct (or_args channels n j) as [|c0 [|c1 [|c2 [|c3 rest]]]]; simpl in *; try lia.
  done.
Qed.

(** Once every call has been made, each argument of a call is selected on
    by its goroutine or by one started later. *)
Lemma or_args_cover channels n M d j c :
  length channels ≤ 2 * M + 1 → 2 * M ≤ length channels →
  S (j + d) = M → c ∈ or_args channels n j →
  ∃ j', j' < M ∧ c ∈ or_cases channels n j'.
Proof.
  intros Hup Hlow. revert j.
  induction d as [|d IH]; intros j HM Hc.
  - exists j. split; [lia|].
    pose proof (or_args_length channels n j ltac:(lia)) as Hlen.
    unfold or_cases.
    destruct (or_args channels n j) as [|c0 [|c1 [|c2 [|c3 rest]]]];
      simpl in *; try lia; [done|].
    revert Hc. rewrite !elem_of_cons. tauto.
  - pose proof (or_args_length channels n j ltac:(lia)) as Hlen.
    destruct (or_args channels n j) as [|c0 [|c1 [|c2 [|c3 rest]]]] eqn:Hargs;
      simpl in *; try lia.
    apply elem_of_cons in Hc as [->|Hc]; [|apply elem_of_cons in Hc as [->|Hc];
      [|apply elem_of_cons in Hc as [->|Hc]]].
    1-3: exists j; split; [lia|]; unfold or_cases; rewrite Hargs;
      rewrite !elem_of_cons; by eauto.
    apply (IH (S j)); [lia|]. simpl. rewrite Hargs.
    apply elem_of_app. by left.
Qed.

Lemma or_cover channels n M c :
  length channels ≤ 2 * M + 1 → 2 * M ≤ length channels → 1 ≤ M →
  c ∈ channels → ∃ j, j < M ∧ c ∈ or_cases channels n j.
Proof.
  intros ??? Hc. apply (or_args_cover channels n M (M - 1) 0); try done. lia.
Qed.

Lemma or_chain_insert len sts j s s' :
  or_chain len sts → sts !! j = Some s → s ≠ OStart → s' ≠ OStart →
  or_chain len (<[j:=s']> sts).
Proof.
  intros (H1 & H2 & H3 & H4) Hs Hn Hn'. unfold or_chain. rewrite length_insert.
  pose proof (lookup_lt_Some _ _ _ Hs) as Hj.
  split; [done|]. split; [done|]. split.
  - intros j' Hj'. destruct (decide (j' = j)) as [->|Hne].
    + rewrite list_lookup_insert_eq in Hj' by done. by simplify_eq.
    + rewrite list_lookup_insert_ne in Hj' by done. eauto.
  - destruct H4 as [[j' Hj']|?]; [|by right]. left. exists j'.
    rewrite list_lookup_insert_ne; [done|]. intros ->. by simplify_eq.
Qed.

Lemma or_chain_start len sts j :
  or_chain len sts → sts !! j = Some OStart → len ≤ 2 * j + 3 →
  or_chain len (<[j:=OSelect]> sts).
Proof.
  intros (H1 & H2 & H3 & H4) Hs Hlen. unfold or_chain. rewrite length_insert.
  pose proof (lookup_lt_Some _ _ _ Hs) as Hj. pose proof (H3 _ Hs).
  split; [done|]. split; [done|]. split; [|right; lia].
  intros j' Hj'. destruct (decide (j' = j)) as [->|Hne].
  - rewrite list_lookup_insert_eq in Hj' by done. by simplify_eq.
  - rewrite list_lookup_insert_ne in Hj' by done. eauto.
Qed.

Lemma or_chain_spawn len sts j :
  or_chain len sts → sts !! j = Some OStart → 2 * j + 4 ≤ len →
  or_chain len (<[j:=OSelect]> sts ++ [OStart]).
Proof.
  intros (H1 & H2 & H3 & H4) Hs Hlen. unfold or_chain.
  rewrite length_app, length_insert. simpl.
  pose proof (lookup_lt_Some _ _ _ Hs) as Hj. pose proof (H3 _ Hs).
  split; [lia|]. split; [lia|]. split.
  - intros j' Hj'. apply lookup_app_Some in Hj' as [Hj'|[Hge Hj']].
    + destruct (decide (j' = j)) as [->|Hne].
      * rewrite list_lookup_insert_eq in Hj' by done. by simplify_eq.
      * rewrite list_lookup_insert_ne in Hj' by done. apply H3 in Hj'. lia.
    + rewrite length_insert in Hge, Hj'.
      apply list_lookup_singleton_Some in Hj' as [? _]. lia.
  - left. exists (length sts). rewrite lookup_app_r by (rewrite length_insert; lia).
    rewrite length_insert, Nat.sub_diag. done.
Qed.

Lemma or_chain_bound len sts j s :
  or_chain len sts → sts !! j = Some s → 2 + 2 * j ≤ len.
Proof. intros (H1 & H2 & _) Hs. apply lookup_lt_Some in Hs. lia. Qed.

Lemma Exists_past_lookup sts :
  Exists past sts ↔ ∃ j s, sts !! j = Some s ∧ past s.
Proof.
  rewrite Exists_exists. split.
  - intros (s & Hin & Hp). apply list_elem_of_lookup_1 in Hin as [j Hj]. eauto.
  - intros (j & s & Hj & Hp). exists s. split; [by eapply list_elem_of_lookup_2|done].
Qed.

Lemma past_insert sts j s' :
  j < length sts → past s' → Exists past (<[j:=s']> sts).
Proof.
  intros Hj Hp. apply Exists_past_lookup. exists j, s'.
  by rewrite list_lookup_insert_eq.
Qed.

Lemma past_insert_same sts j s s' :
  sts !! j = Some s → (past s ↔ past s') →
  Exists past (<[j:=s']> sts) ↔ Exists past sts.
Proof.
  intros Hs Hiff. pose proof (lookup_lt_Some _ _ _ Hs) as Hj.
  rewrite !Exists_past_lookup. split; intros (j' & s1 & Hj' & Hp).
  - destruct (decide (j' = j)) as [->|Hne].
    + rewrite list_lookup_insert_eq in Hj' by done. simplify_eq.
      exists j, s. split; [done|]. by apply Hiff.
    + rewrite list_lookup_insert_ne in Hj' by done. eauto.
  - destruct (decide (j' = j)) as [->|Hne].
    + simplify_eq. exists j, s'. rewrite list_lookup_insert_eq by done.
      split; [done|]. by apply Hiff.
    + exists j', s1. by rewrite list_lookup_insert_ne.
Qed.

Lemma past_app_start sts : Exists past (sts ++ [OStart]) ↔ Exists past sts.
Proof.
  rewrite Exists_app, Exists_cons, Exists_nil. unfold past at 2.
  split; [intros [?|[[?|?]|[]]]; by simplify_eq|by left].
Qed.

Lemma or_track_same channels (ins : list chanst) sts sts' :
  (Exists past sts' ↔ Exists past sts) →
  or_track channels ins sts → or_track channels ins sts'.
Proof. intros Hiff (H1 & H2 & H3). unfold or_track. rewrite Hiff. done. Qed.

Lemma or_track_pass channels (ins : list chanst) sts :
  Forall (λ st, buf st = [] ∨ hist st ≠ []) ins →
  (∃ i st, Some i ∈ channels ∧ ins !! i = Some st ∧ resolved st) →
  Exists past sts → or_track channels ins sts.
Proof. intros H1 H2 H3. split; [done|]. split; [done|]. by right. Qed.

Lemma or_track_env channels (ins : list chanst) sts c st st' :
  or_track channels ins sts → ins !! c = Some st →
  ready st' → (buf st' = [] ∨ hist st' ≠ []) → (resolved st → resolved st') →
  or_track channels (<[c:=st']> ins) sts.
Proof.
  intros (H1 & H2 & H3) Hc Hready Hlog Hres.
  pose proof (lookup_lt_Some _ _ _ Hc) as Hlt.
  split; [by apply Forall_insert|]. split.
  - intros Hp. destruct (H2 Hp) as (i & sti & Hin & Hi & Hr).
    destruct (decide (i = c)) as [->|Hne].
    + simplify_eq. exists c, st'. rewrite list_lookup_insert_eq by done. eauto.
    + exists i, sti. rewrite list_lookup_insert_ne by done. eauto.
  - intros (i & sti & Hin & Hi & Hr).
    destruct (decide (i = c)) as [->|Hne].
    + rewrite list_lookup_insert_eq in Hi by done. simplify_eq.
      left. exists c, sti. by rewrite list_lookup_insert_eq.
    + rewrite list_lookup_insert_ne in Hi by done.
      destruct H3 as [(i2 & st2 & Hin2 & Hi2 & Hr2)|Hp]; [by eauto| |by right].
      left. destruct (decide (i2 = c)) as [->|Hne2].
      * exists c, st'. by rewrite list_lookup_insert_eq.
      * exists i2, st2. by rewrite list_lookup_insert_ne.
Qed.


Lemma or_chan_insert_same (sts : list or_st) j s s' :
  sts !! j = Some s → or_chan s' = or_chan s →
  or_chan <$> <[j:=s']> sts = or_chan <$> sts.
Proof.
  intros Hs Heq. rewrite list_fmap_insert. apply list_insert_id.
  by rewrite list_lookup_fmap, Hs, Heq.
Qed.

Lemma or_returned_insert (cons : list bool) (sts : list or_st) j s s' :
  (true ∈ cons → sts !! 0 = Some ODone) → sts !! j = Some s → s ≠ ODone →
  true ∈ cons → <[j:=s']> sts !! 0 = Some ODone.
Proof.
  intros Hret Hs Hne Hin. specialize (Hret Hin).
  rewrite list_lookup_insert_ne; [done|]. intros ->. by simplify_eq.
Qed.

Lemma or_rank_insert len sts cons j s s' :
  sts !! j = Some s →
  or_close_rank len (<[j:=s']> sts) cons + or_st_rank s
  = or_close_rank len sts cons + or_st_rank s'.
Proof.
  intros Hs. unfold or_close_rank. rewrite length_insert.
  pose proof (sum_list_insert or_st_rank _ _ _ s' Hs). lia.
Qed.

Lemma or_rank_spawn len sts cons j :
  sts !! j = Some OStart → S j = length sts → 2 * j + 4 ≤ len →
  or_close_rank len (<[j:=OSelect]> sts ++ [OStart]) cons + 4
  = or_close_rank len sts cons.
Proof.
  intros Hs Hj Hlen. unfold or_close_rank.
  rewrite length_app, length_insert, sum_list_snoc. simpl.
  pose proof (sum_list_insert or_st_rank _ _ _ OSelect Hs). simpl in *. lia.
Qed.

Lemma past_start_select : past OStart ↔ past OSelect.
Proof. unfold past. split; intros [?|?]; done. Qed.

Lemma past_closing_done : past OClosing ↔ past ODone.
Proof. unfold past. split; intros _; [by right|by left]. Qed.

Lemma or_close_step channels n k r w e w' :
  or_close_inv channels n k r w → or_occur n e w = Some w' →
  ∃ r', r' + or_moves [e] ≤ r ∧ or_close_inv channels n k r' w'.
Proof.
  intros HI Hf.
  destruct HI as [w ins sts cons Hch Hpool Hpan Hlen Hcons Hchain Htrack Hret].
  pose proof (proj1 Hchain) as Hone.
  destruct e as [ch|c|c v|c v j bj]; simpl in Hf.
  - unfold fire in Hf. rewrite Hpan in Hf.
    destruct ch as [i b|i bi j bj].
    + destruct (pool w !! i) as [g|] eqn:Hg; simpl in Hf; [|done].
      rewrite Hpool in Hg.
      apply or_pool_lookup in Hg as [(j & s & -> & Hs & ->)|(c & b' & -> & Hc & ->)];
        [| |exact Hone].
      * pose proof (or_chain_bound _ _ _ _ Hchain Hs) as Hj.
        pose proof (lookup_lt_Some _ _ _ Hs) as Hjlt.
        pose proof (or_args_length channels n j Hj) as Hargl.
        destruct s.
        -- (* the goroutine starts *)
           unfold or_goroutine in Hf. simpl in Hf.
           destruct (or_args channels n j) as [|c0 [|c1 [|c2 [|c3 rest]]]] eqn:Hargs;
             simpl in Hargl; try lia.
           1-2: simplify_eq/=;
             eexists; split; cycle 1;
             [eapply (or_close_running _ _ _ _ ins (<[j:=OSelect]> sts) cons); wsimpl;
                try done;
                [by rewrite Hch, (or_chan_insert_same _ _ OStart)
                |rewrite Hpool, <- or_pool_insert_stage by done;
                 unfold or_goroutine, or_cases; by rewrite Hargs
                |apply or_chain_start; [done..|lia]
                |eapply or_track_same; [|done];
                 eapply past_insert_same; [done|]; apply past_start_select
                |by eapply or_returned_insert]
             |pose proof (or_rank_insert (length channels) _ cons _ _ OSelect Hs);
              simpl in *; lia].
           rewrite Or_two_or_more in Hf by (simpl; rewrite length_app; simpl; lia).
           simplify_eq.
           pose proof (proj1 (proj2 (proj2 Hchain)) _ Hs) as Hlast.
           assert (length (chans w) = length ins + S j) as Hnew.
           { rewrite Hch, length_app, length_fmap. lia. }
           eexists. split; cycle 1.
           ++ eapply (or_close_running _ _ _ _ ins (<[j:=OSelect]> sts ++ [OStart]) cons);
                wsimpl; try done.
              ** rewrite Hch, fmap_app, (or_chan_insert_same _ _ OStart) by done.
                 by rewrite <- app_assoc.
              ** rewrite <- or_pool_spawn by (rewrite length_insert; lia).
                 rewrite <- or_pool_insert_stage by done.
                 rewrite Hpool, insert_app_l, length_insert.
                 2:{ eapply lookup_lt_Some. by apply or_pool_stage. }
                 rewrite Hnew, <- Hlast. unfold or_goroutine, or_cases. simpl.
                 by rewrite Hargs.
              ** apply or_chain_spawn; [done..|lia].
              ** eapply or_track_same; [|done].
                 rewrite past_app_start.
                 eapply past_insert_same; [done|]. apply past_start_select.
              ** intros Hin. rewrite lookup_app_l by (rewrite length_insert; lia).
                 by eapply or_returned_insert.
           ++ pose proof (or_rank_spawn (length channels) _ cons _ Hs Hlast ltac:(lia)).
              simpl in *. lia.
        -- (* it is at its select *)
           unfold or_goroutine in Hf. simpl in Hf.
           rewrite list_lookup_fmap in Hf.
           destruct (or_cases channels n j !! b) as [[i|]|] eqn:Hcase; simpl in Hf;
             [|done..].
           apply list_elem_of_lookup_2 in Hcase.
           rewrite Hch in Hf.
           destruct (decide (i < length ins)) as [Hi|Hi].
           ++ (* an input is closed or holds a value *)
              rewrite or_chans_input in Hf by done.
              destruct (ins !! i) as [st|] eqn:Hst; simpl in Hf; [|done].
              pose proof (or_cases_input _ _ _ _ Hcase ltac:(lia)) as Hin.
              pose proof (proj1 Htrack) as Hlog.
              pose proof (proj1 (Forall_lookup _ _) Hlog _ _ Hst) as Hlogi.
              destruct (buf st) as [|v rest] eqn:Hbuf.
              ** destruct (closed st) eqn:Hcl; simplify_eq.
                 eexists. split; cycle 1.
                 --- eapply (or_close_running _ _ _ _ ins (<[j:=OClosing]> sts) cons);
                       wsimpl; try done.
                     +++ by rewrite Hch, (or_chan_insert_same _ _ OSelect).
                     +++ by rewrite Hpool, <- or_pool_insert_stage.
                     +++ by eapply or_chain_insert.
                     +++ apply or_track_pass; [done| |by apply past_insert; [|left]].
                         exists i, st. split; [done|]. split; [done|]. by left.
                     +++ by eapply or_returned_insert.
                 --- pose proof (or_rank_insert (length channels) _ cons _ _ OClosing Hs).
                     simpl in *. lia.
              ** simplify_eq.
                 assert (hist st ≠ []) as Hh by (destruct Hlogi; [congruence|done]).
                 eexists. split; cycle 1.
                 --- eapply (or_close_running _ _ _ _
                       (<[i:=ChanSt (cap st) rest (closed st) (hist st)]> ins)
                       (<[j:=OClosing]> sts) cons);
                       wsimpl; try done.
                     +++ rewrite Hch, or_chans_insert_input by done.
                         by rewrite (or_chan_insert_same _ _ OSelect).
                     +++ by rewrite Hpool, <- or_pool_insert_stage.
                     +++ by rewrite length_insert.
                     +++ by eapply or_chain_insert.
                     +++ apply or_track_pass; [| |by apply past_insert; [|left]].
                         *** apply Forall_insert; [done|]. by right.
                         *** eexists i, _. split; [done|].
                             rewrite list_lookup_insert_eq by done.
                             split; [done|]. by right.
                     +++ by eapply or_returned_insert.
                 --- pose proof (or_rank_insert (length channels) _ cons _ _ OClosing Hs).
                     simpl in *. lia.
           ++ (* the channel of a goroutine of Or is closed *)
              replace i with (length ins + (i - length ins)) in Hf by lia.
              rewrite or_chans_made in Hf.
              destruct (sts !! (i - length ins)) as [s'|] eqn:Hs'; simpl in Hf; [|done].
              destruct s'; simpl in Hf; try done. simplify_eq.
              assert (Exists past sts) as Hpast.
              { apply Exists_past_lookup. eexists _, _. split; [done|]. by right. }
              eexists. split; cycle 1.
              ** eapply (or_close_running _ _ _ _ ins (<[j:=OClosing]> sts) cons);
                   wsimpl; try done.
                 --- by rewrite Hch, (or_chan_insert_same _ _ OSelect).
                 --- by rewrite Hpool, <- or_pool_insert_stage.
                 --- by eapply or_chain_insert.
                 --- apply or_track_pass; [by apply Htrack|by apply Htrack|].
                     by apply past_insert; [|left].
                 --- by eapply or_returned_insert.
              ** pose proof (or_rank_insert (length channels) _ cons _ _ OClosing Hs).
                 simpl in *. lia.
        -- (* it closes its channel *)
           unfold or_goroutine in Hf. simpl in Hf.
           rewrite Hch, <- Hlen, or_chans_made, Hs in Hf. simpl in Hf. simplify_eq.
           eexists. split; cycle 1.
           ++ eapply (or_close_running _ _ _ _ ins (<[j:=ODone]> sts) cons);
                wsimpl; try done.
              ** by rewrite Hch, <- (or_chans_insert_made _ _ _ ODone).
              ** by rewrite Hpool, <- or_pool_insert_stage.
              ** by eapply or_chain_insert.
              ** eapply or_track_same; [|done].
                 eapply past_insert_same; [done|]. apply past_closing_done.
              ** by eapply or_returned_insert.
           ++ pose proof (or_rank_insert (length channels) _ cons _ _ ODone Hs).
              simpl in *. lia.
        -- (* it has returned *)
           done.
      * (* a consumer sees the close *)
        destruct b'; simpl in Hf; [done|].
        destruct b as [|b]; simpl in Hf; [|done].
        rewrite Hch, <- Hlen, <- (Nat.add_0_r (length ins)), or_chans_made in Hf.
        destruct (sts !! 0) as [s0|] eqn:Hs0; simpl in Hf; [|done].
        destruct s0; simpl in Hf; try done. simplify_eq.
        pose proof (lookup_lt_Some _ _ _ Hc) as Hclt.
        eexists. split; cycle 1.
        -- eapply (or_close_running _ _ _ _ ins sts (<[c:=true]> cons)); wsimpl; try done.
           ++ rewrite Hpool, <- or_pool_insert_consumer by done. done.
           ++ by rewrite length_insert.
        -- unfold or_close_rank.
           pose proof (sum_list_insert (λ b : bool, if b then 0 else 1) _ _ _ true Hc).
           simpl in *. lia.
    + (* no goroutine sends *)
      destruct (decide (i = j)); [done|].
      destruct (pool w !! i) as [gi|] eqn:Hgi; simpl in Hf; [|done].
      destruct (pool w !! j) as [gj|] eqn:Hgj; simpl in Hf; [|done].
      rewrite Hpool in Hgi.
      apply or_pool_lookup in Hgi as [(j' & s & -> & Hs & ->)|(c & b' & -> & Hc & ->)];
        [| |exact Hone].
      * destruct s; unfold or_goroutine in Hf; simpl in Hf; try done.
        -- by destruct (or_args channels n j') as [|c0 [|c1 [|c2 rest]]].
        -- destruct (next gj); try done.
           rewrite list_lookup_fmap in Hf.
           destruct (or_cases channels n j' !! bi); simpl in Hf; [|done].
           by destruct (cls !! bj).
      * destruct b'; simpl in Hf; [done|].
        destruct (next gj); try done.
        destruct bi as [|bi]; simpl in Hf; [|done].
        by destruct (cls !! bj).
  - (* the owner of an input closes it *)
    destruct (decide (c < n)) as [Hc|]; [|done].
    rewrite Hch, or_chans_input in Hf by lia.
    destruct (ins !! c) as [st|] eqn:Hst; simpl in Hf; [|done].
    destruct (closed st) eqn:Hcl; simplify_eq.
    pose proof (proj1 (Forall_lookup _ _) (proj1 Htrack) _ _ Hst) as Hlog.
    eexists. split; cycle 1.
    + eapply (or_close_running _ _ _ _
        (<[c:=ChanSt (cap st) (buf st) true (hist st)]> ins) sts cons); wsimpl; try done.
      * by rewrite Hch, or_chans_insert_input.
      * by rewrite length_insert.
      * eapply or_track_env; [done..|by left|done|by left].
    + simpl. lia.
  - (* a value is put into the buffer of an input *)
    destruct (decide (c < n)) as [Hc|]; [|done].
    rewrite Hch, or_chans_input in Hf by lia.
    destruct (ins !! c) as [st|] eqn:Hst; simpl in Hf; [|done].
    destruct (closed st) eqn:Hcl; [done|].
    destruct (decide (length (buf st) < cap st)); simplify_eq.
    eexists. split; cycle 1.
    + eapply (or_close_running _ _ _ _
        (<[c:=ChanSt (cap st) (buf st ++ [v]) false (hist st ++ [v])]> ins) sts cons);
        wsimpl; try done.
      * by rewrite Hch, or_chans_insert_input.
      * by rewrite length_insert.
      * eapply or_track_env; [done..| | |]; unfold ready, resolved; simpl.
        -- right. by destruct (buf st).
        -- right. by destruct (hist st).
        -- right. by destruct (hist st).
    + simpl. lia.
  - (* a value is handed to a goroutine at its select *)
    destruct (decide (c < n)) as [Hc|]; [|done].
    rewrite Hch, or_chans_input in Hf by lia.
    destruct (ins !! c) as [st|] eqn:Hst; simpl in Hf; [|done].
    destruct (pool w !! j) as [g|] eqn:Hg; simpl in Hf; [|done].
    destruct (closed st) eqn:Hcl; [done|].
    destruct (buf st) as [|] eqn:Hbuf; [|done].
    rewrite Hpool in Hg.
    apply or_pool_lookup in Hg as [(j' & s & -> & Hs & ->)|(c' & b' & -> & Hc' & ->)];
      [| |exact Hone].
    + pose proof (lookup_lt_Some _ _ _ Hs) as Hjlt.
      destruct s; unfold or_goroutine in Hf; simpl in Hf; try done.
      { by destruct (or_args channels n j') as [|c0 [|c1 [|c2 rest]]]. }
      rewrite list_lookup_fmap in Hf.
      destruct (or_cases channels n j' !! bj) as [[i|]|] eqn:Hcase; simpl in Hf;
        [|done..].
      destruct (decide (c = i)) as [<-|]; simplify_eq.
      apply list_elem_of_lookup_2 in Hcase.
      pose proof (or_cases_input _ _ _ _ Hcase ltac:(lia)) as Hin.
      eexists. split; cycle 1.
      * eapply (or_close_running _ _ _ _
          (<[c:=ChanSt (cap st) [] false (hist st ++ [v])]> ins)
          (<[j':=OClosing]> sts) cons); wsimpl; try done.
        -- rewrite Hch, or_chans_insert_input by lia.
           by rewrite (or_chan_insert_same _ _ OSelect).
        -- by rewrite Hpool, <- or_pool_insert_stage.
        -- by rewrite length_insert.
        -- by eapply or_chain_insert.
        -- apply or_track_pass; [| |by apply past_insert; [|left]].
           ++ apply Forall_insert; [by apply Htrack|]. right. by destruct (hist st).
           ++ eexists c, _. split; [done|].
              rewrite list_lookup_insert_eq by lia.
              split; [done|]. right. by destruct (hist st).
        -- by eapply or_returned_insert.
      * pose proof (or_rank_insert (length channels) _ cons _ _ OClosing Hs).
        simpl in *. lia.
    + destruct b'; simpl in Hf; [done|].
      destruct bj as [|bj]; simpl in Hf; [|done].
      destruct (decide (c = n)); [lia|done].
Qed.

Lemma or_close_run channels n k evs :
  ∀ r w w', or_close_inv channels n k r w → or_run n evs w = Some w' →
    ∃ r', r' + or_moves evs ≤ r ∧ or_close_inv channels n k r' w'.
Proof.
  induction evs as [|e evs IH]; intros r w w' HI Hrun; simpl in Hrun.
  - simplify_eq. exists r. split; [simpl; lia|done].
  - destruct (or_occur n e w) as [w1|] eqn:Hf; simpl in Hrun; [|done].
    destruct (or_close_step _ _ _ _ _ _ _ HI Hf) as (r1 & Hr1 & HI1).
    destruct (IH _ _ _ HI1 Hrun) as (r2 & Hr2 & HI2).
    exists r2. split; [|done]. unfold or_moves in *. simpl in *. lia.
Qed.

Lemma or_consumers_start n k s :
  (λ _ : nat, GRange (Some n) : goroutine) <$> seq s k
  = or_consumer n <$> replicate k false.
Proof. revert s. induction k as [|k IH]; intros s; simpl; [done|]. by rewrite IH. Qed.

Lemma or_consumers_rank k :
  sum_list_with (λ b : bool, if b then 0 else 1) (replicate k false) = k.
Proof. induction k as [|k IH]; simpl; [done|]. by rewrite IH. Qed.

Lemma or_client_start (heap : list chanst) channels k (m : Mem) :
  2 ≤ length channels →
  Forall (λ st, hist st = buf st) heap →
  ∃ r, r ≤ 3 * length channels + k
    ∧ or_close_inv channels (length heap) k r (or_client heap channels k m).
Proof.
  intros Hlen Hheap. unfold or_client.
  rewrite Or_two_or_more by done. rewrite go_each_spec. simpl.
  eexists. split; cycle 1.
  - eapply (or_close_running _ _ _ _ heap [OStart] (replicate k false)); simpl.
    + done.
    + rewrite or_consumers_start, or_pool_cons. simpl.
      unfold or_goroutine. simpl. by rewrite Nat.add_0_r, app_nil_r.
    + done.
    + done.
    + by rewrite length_replicate.
    + split; [simpl; lia|]. split; [simpl; lia|]. split.
      * intros [|j]; simpl; [done|]. by rewrite lookup_nil.
      * left. by exists 0.
    + split; [|split].
      * eapply Forall_impl; [exact Hheap|]. simpl. intros st ->.
        destruct (buf st); [by left|by right].
      * rewrite Exists_cons, Exists_nil. unfold past. by intros [[?|?]|[]].
      * intros (i & st & Hin & Hi & Hres). left. exists i, st.
        split; [done|]. split; [done|].
        pose proof (proj1 (Forall_lookup _ _) Hheap _ _ Hi) as Heq. simpl in Heq.
        destruct Hres as [?|Hh]; [by left|right]. by rewrite <- Heq.
    + intros Hin. by apply elem_of_replicate in Hin as [? _].
  - unfold or_close_rank. rewrite or_consumers_rank. simpl. lia.
Qed.

Lemma or_sts_cases sts :
  (∃ j, sts !! j = Some OStart) ∨ (∃ j, sts !! j = Some OClosing)
  ∨ Forall (λ s, s = OSelect ∨ s = ODone) sts.
Proof.
  induction sts as [|s sts IH]; [by right; right|].
  destruct IH as [[j Hj]|[[j Hj]|Hall]].
  - left. by exists (S j).
  - right. left. by exists (S j).
  - destruct s.
    + left. by exists 0.
    + right. right. constructor; [by left|done].
    + right. left. by exists 0.
    + right. right. constructor; [by right|done].
Qed.

(** Below a goroutine that is done sits one that selects on its channel. *)
Lemma or_sts_boundary sts j :
  Forall (λ s, s = OSelect ∨ s = ODone) sts →
  sts !! 0 = Some OSelect → sts !! j = Some ODone →
  ∃ j', sts !! j' = Some OSelect ∧ sts !! S j' = Some ODone.
Proof.
  intros Hall H0. induction j as [|j IH]; intros Hj; [by simplify_eq|].
  destruct (sts !! j) as [s|] eqn:Hs.
  - destruct (proj1 (Forall_lookup _ _) Hall _ _ Hs) as [->| ->]; [by eauto|].
    by apply IH.
  - apply lookup_ge_None in Hs. apply lookup_lt_Some in Hj. lia.
Qed.

Lemma or_close_progress channels n k r w st :
  or_close_inv channels n k r w →
  chans w !! n = Some st → closed st = false →
  (∃ i sti, Some i ∈ channels ∧ chans w !! i = Some sti ∧ resolved sti) →
  ∃ i b w', fire (Solo i b) w = Some w'.
Proof.
  intros HI Hst Hopen Hres.
  destruct HI as [w ins sts cons Hch Hpool Hpan Hlen Hcons Hchain Htrack Hret].
  destruct Hchain as (Hone & Hlow & Hlast & Hfull).
  rewrite Hch, <- Hlen, <- (Nat.add_0_r (length ins)), or_chans_made in Hst.
  destruct (sts !! 0) as [s0|] eqn:Hs0; simplify_eq/=.
  destruct (or_sts_cases sts) as [[j Hj]|[[j Hj]|Hall]].
  - (* a goroutine has yet to start *)
    exists (or_idx (length cons) j), 0. unfold fire.
    rewrite Hpan, Hpool, (or_pool_stage _ _ _ _ _ _ Hj). simpl.
    unfold or_goroutine. simpl.
    destruct (or_args channels (length ins) j) as [|c0 [|c1 [|c2 rest]]]; simpl; eauto.
    destruct (Or (rest ++ [Some (length ins + j)]) w). eauto.
  - (* a goroutine has yet to close its channel *)
    exists (or_idx (length cons) j), 0. unfold fire.
    rewrite Hpan, Hpool, (or_pool_stage _ _ _ _ _ _ Hj). simpl.
    unfold or_goroutine. simpl.
    rewrite Hch, or_chans_made, Hj. simpl. eauto.
  - destruct (proj1 (Forall_lookup _ _) Hall _ _ Hs0) as [-> | ->]; [|done].
    assert (∀ j, sts !! j = Some ODone → ∃ i b w', fire (Solo i b) w = Some w')
      as Hdone.
    { (* a goroutine selects on a channel of Or that is closed *)
      intros j Hj.
      destruct (or_sts_boundary _ _ Hall Hs0 Hj) as (j' & Hsel & Hnext).
      exists (or_idx (length cons) j'), 3. unfold fire.
      rewrite Hpan, Hpool, (or_pool_stage _ _ _ _ _ _ Hsel). simpl.
      unfold or_goroutine. simpl. rewrite list_lookup_fmap.
      apply lookup_lt_Some in Hnext as Hlt.
      rewrite or_cases_next by lia. simpl.
      rewrite Hch, or_chans_made, Hnext. simpl. eauto. }
    assert (Exists past sts → ∃ i b w', fire (Solo i b) w = Some w') as Hpast.
    { intros Hp. apply Exists_past_lookup in Hp as (j & s & Hj & Hp).
      destruct (proj1 (Forall_lookup _ _) Hall _ _ Hj) as [-> | ->]; [|by eauto].
      by destruct Hp. }
    destruct Hfull as [[j Hj]|Hfull].
    { destruct (proj1 (Forall_lookup _ _) Hall _ _ Hj) as [?|?]; done. }
    assert ((∃ i sti, Some i ∈ channels ∧ ins !! i = Some sti ∧ resolved sti)
            ∨ Exists past sts) as [Hin|Hp]; [|clear Hres|by auto].
    { destruct Hres as (i & sti & Hin & Hi & Hr). rewrite Hch in Hi.
      destruct (decide (i < length ins)) as [Hlt|Hge].
      - rewrite or_chans_input in Hi by done. left. eauto.
      - replace i with (length ins + (i - length ins)) in Hi by lia.
        rewrite or_chans_made in Hi.
        destruct (sts !! (i - length ins)) as [s|] eqn:Hs; simplify_eq/=.
        right. apply Exists_past_lookup. exists (i - length ins), s.
        split; [done|]. destruct Hr as [Hr|Hr]; simpl in Hr; [|done].
        destruct s; try done. by right. }
    destruct (proj2 (proj2 Htrack) Hin) as [(i & sti & Hi & Hsti & Hready)|Hp];
      [|by auto].
    (* an input is ready and every call of Or has been made *)
    destruct (or_cover channels (length ins) (length sts) (Some i))
      as (j & Hj & Hcase); [lia..|done|].
    apply list_elem_of_lookup_1 in Hcase as [b Hb].
    destruct (sts !! j) as [s|] eqn:Hs; [|apply lookup_ge_None in Hs; lia].
    destruct (proj1 (Forall_lookup _ _) Hall _ _ Hs) as [-> | ->]; [|by eauto].
    exists (or_idx (length cons) j), b. unfold fire.
    rewrite Hpan, Hpool, (or_pool_stage _ _ _ _ _ _ Hs). simpl.
    unfold or_goroutine. simpl. rewrite list_lookup_fmap, Hb. simpl.
    pose proof (lookup_lt_Some _ _ _ Hsti).
    rewrite Hch, or_chans_input, Hsti by done. simpl.
    destruct Hready as [Hcl|Hbuf].
    + rewrite Hcl. destruct (buf sti); eauto.
    + destruct (buf sti); [done|eauto].
Qed.

(** X14: for two channels or more, whatever the schedule and whatever the
    owners of the inputs do, the channel [Or] returns never carries a value
    and nothing panics (no channel is closed twice); it is closed only after
    an input has been closed or has accepted a value; from then on, as long as
    it is open, some goroutine of [Or] can move, and the goroutines make at
    most [3 * len(channels) + k] moves in all; a consumer ranging over it
    stays in its loop until the channel is closed, can then leave it, and has
    left it only after the close. *)
Theorem Or_closes_once (heap : list chanst) (channels : list chan) k (m : Mem) evs w :
  2 ≤ length channels →
  Forall (λ st, hist st = buf st) heap →
  or_run (length heap) evs (or_client heap channels k m) = Some w →
  (Or channels (World heap [] [] [] m false false)).1 = Some (length heap)
  ∧ ∃ st, chans w !! length heap = Some st
    ∧ panicked w = false
    ∧ buf st = [] ∧ hist st = []
    ∧ (closed st = true →
         ∃ i sti, Some i ∈ channels ∧ i < length heap
                  ∧ chans w !! i = Some sti ∧ resolved sti)
    ∧ (closed st = false →
         (∃ i sti, Some i ∈ channels ∧ chans w !! i = Some sti ∧ resolved sti) →
         ∃ i b w', fire (Solo i b) w = Some w')
    ∧ (∀ c, c < k →
         (pool w !! S c = Some (GRange (Some (length heap)))
          ∧ (closed st = true →
               ∃ w', fire (Solo (S c) 0) w = Some w'
                     ∧ pool w' !! S c = Some GReturn))
         ∨ (pool w !! S c = Some GReturn ∧ closed st = true))
    ∧ or_moves evs ≤ 3 * length channels + k.
Proof.
  intros Hlen Hheap Hrun.
  split; [by rewrite Or_two_or_more|].
  destruct (or_client_start heap channels k m Hlen Hheap) as (r & Hr & HI).
  destruct (or_close_run _ _ _ _ _ _ _ HI Hrun) as (r' & Hr' & HI').
  assert (∃ st, chans w !! length heap = Some st) as [st Hst].
  { destruct HI' as [w ins sts cons Hch Hpool Hpan Hn Hcons Hchain Htrack Hret].
    rewrite Hch, <- Hn, <- (Nat.add_0_r (length ins)), or_chans_made.
    destruct sts; [destruct Hchain; simpl in *; lia|]. simpl. eauto. }
  exists st. split; [done|].
  pose proof (or_close_progress _ _ _ _ _ _ HI' Hst) as Hprog.
  destruct HI' as [w ins sts cons Hch Hpool Hpan Hn Hcons Hchain Htrack Hret].
  pose proof (proj1 Hchain) as Hone.
  pose proof Hst as Hst'.
  rewrite Hch, <- Hn, <- (Nat.add_0_r (length ins)), or_chans_made in Hst'.
  destruct (sts !! 0) as [s0|] eqn:Hs0; simplify_eq/=.
  split; [done|]. split; [done|]. split; [done|]. split; [|split; [|split]].
  - intros Hcl. destruct s0; try done.
    destruct (proj1 (proj2 Htrack)) as (i & sti & Hin & Hi & Hres).
    { apply Exists_past_lookup. exists 0, ODone. split; [done|]. by right. }
    pose proof (lookup_lt_Some _ _ _ Hi).
    exists i, sti. split; [done|]. split; [lia|]. split; [|done].
    by rewrite Hch, or_chans_input.
  - done.
  - intros c Hc.
    destruct (cons !! c) as [b|] eqn:Hb; [|apply lookup_ge_None in Hb; lia].
    rewrite Hpool, (or_pool_consumer _ _ _ _ _ _ Hone Hb).
    destruct b; simpl.
    + right. split; [done|].
      assert (Some s0 = Some ODone) by (by eapply Hret, list_elem_of_lookup_2).
      by simplify_eq.
    + left. split; [done|]. intros Hcl. eexists. split.
      * unfold fire. rewrite Hpan, Hpool, (or_pool_consumer _ _ _ _ _ _ Hone Hb). simpl.
        rewrite Hst. simpl. by rewrite Hcl.
      * wsimpl. rewrite list_lookup_insert_eq; [done|].
        eapply lookup_lt_Some. rewrite Hpool. by apply or_pool_consumer.
  - lia.
Qed.

(** ** Further properties *)

(** X1: at any time the two outputs of [Tee] have accepted the same values
    up to one: for some [j] each has accepted the first [j] or the first
    [j + 1] values of the input, so neither output runs ahead of the other by
    more than one value. *)
Theorem Tee_outputs_in_lockstep xs (m : Mem) sched w :
  run sched (tee_world xs m) = Some w →
  ∃ stl str j, chans w !! 1 = Some stl ∧ chans w !! 2 = Some str
    ∧ (hist stl = take j xs ∨ hist stl = take (S j) xs)
    ∧ (hist str = take j xs ∨ hist str = take (S j) xs)
    ∧ length (hist stl) ≤ S (length (hist str))
    ∧ length (hist str) ≤ S (length (hist stl)).
Proof.
  intros Hrun.
  destruct (run_measure _ (tee_step xs m) _ _ _ _ (tee_world_start xs m) Hrun)
    as (n' & Hlen & HI).
  assert (∀ j, length (take (S j) xs) ≤ S (length (take j xs))) as Hstep.
  { intros j. rewrite !length_take. lia. }
  assert (∀ j, length (take j xs) ≤ S (length (take (S j) xs))) as Hstep'.
  { intros j. rewrite !length_take. lia. }
  destruct HI as [|gt gl gr go bin stl str stv j nt no nl nr Ht Ho Hl Hr].
  - exists (ChanSt 0 [] false []), (ChanSt 0 [] false []), 0. simpl.
    repeat split; try done; try (by left); lia.
  - exists stl, str.
    inv Ht; simpl.
    all: try (exists j; repeat split; try done; eauto; lia).
    all: try (exists j0; repeat split; try done; eauto; lia).
    all: exists (length xs); rewrite !take_ge by lia;
      repeat split; try done; eauto; lia.
Qed.

(** ** Cancellation *)

(** An invariant whose index drops at every choice of the runtime, and does
    not grow when the context is cancelled, bounds the choices of a run. *)
Lemma run_events_measure (I : nat → world → Prop) :
  (∀ n w e w', I n w → occur e w = Some w' →
     ∃ n', n' + event_steps [e] ≤ n ∧ I n' w') →
  ∀ evs n w w', I n w → run_events evs w = Some w' →
    ∃ n', n' + event_steps evs ≤ n ∧ I n' w'.
Proof.
  intros Hstep evs.
  induction evs as [|e evs IH]; intros n w w' HI Hrun; simpl in Hrun.
  - simplify_eq. exists n. split; [simpl; lia|done].
  - destruct (occur e w) as [w1|] eqn:Hf; simpl in Hrun; [|done].
    destruct (Hstep _ _ _ _ HI Hf) as (n1 & Hle1 & HI1).
    destruct (IH _ _ _ HI1 Hrun) as (n' & Hle & HI').
    exists n'. split; [|done]. unfold event_steps in *. simpl in *. lia.
Qed.

Lemma take_cancel_step xs num (m : Mem) n w e w' :
  take_cancel_world_inv zero xs num m n w → occur e w = Some w' →
  ∃ n', n' + event_steps [e] ≤ n ∧ take_cancel_world_inv zero xs num m n' w'.
Proof.
  intros HI Hf. destruct HI as [gt gs b st d nt ns Ht Hs].
  destruct e as [ch|]; simpl in Hf; cycle 1.
  { (* the context is cancelled *)
    simplify_eq. unfold cancel_ctx. simpl.
    exists (nt + ns). split; [simpl; lia|].
    constructor; [|done]. inv Ht; by econstructor. }
  inv Ht.
  - (* Take receives, or has sent [num] values *)
    inv Hs. fire_cases Hf; simplify_eq; wsimpl.
    + eexists. split; cycle 1.
      * constructor; [|constructor].
        eapply tc_send; [|by rewrite drop_ge by lia|done|by rewrite recv_at_closed]. lia.
      * lia.
    + eexists. split; cycle 1.
      * constructor; [|constructor].
        eapply tc_send; [|done..|by erewrite recv_at_lookup]. lia.
      * lia.
    + eexists. split; cycle 1.
      * constructor; [|constructor].
        apply tc_finished; f_equal; lia.
      * lia.
  - (* Take offers the value it has read *)
    inv Hs. destruct d; fire_cases Hf; simplify_eq; wsimpl.
    + eexists. split; cycle 1.
      * constructor; [|constructor]. by eapply tc_cancelled.
      * lia.
    + replace (Z.of_nat k + 1)%Z with (Z.of_nat (S k)) by lia.
      eexists. split; cycle 1.
      * constructor; [eapply tc_recv; [|done|by rewrite take_output_S]; lia|constructor].
      * lia.
    + replace (Z.of_nat k + 1)%Z with (Z.of_nat (S k)) by lia.
      eexists. split; cycle 1.
      * constructor; [eapply tc_recv; [|done|by rewrite take_output_S]; lia|constructor].
      * lia.
  - (* the deferred close after a cancellation *)
    inv Hs. fire_cases Hf; simplify_eq; wsimpl.
    eexists. split; cycle 1.
    + constructor; [|constructor]. by eapply tc_cancelled_closed.
    + lia.
  - inv Hs; fire_cases Hf; simplify_eq; wsimpl.
    eexists. split; cycle 1.
    + constructor; [|constructor]. by eapply tc_cancelled_closed.
    + lia.
  - inv Hs; fire_cases Hf; simplify_eq; wsimpl.
    eexists. split; cycle 1.
    + constructor; [|constructor]. by constructor.
    + lia.
Qed.

Lemma take_cancel_start xs num (m : Mem) :
  take_cancel_world_inv zero xs num m (2 * Z.to_nat num + 1 + 1) (take_world xs num m).
Proof.
  replace (2 * Z.to_nat num + 1) with (2 * (Z.to_nat num - 0) + 1) by lia.
  unfold take_world. simpl.
  constructor; [|constructor]. by apply (tc_recv zero xs num 0); [lia|..].
Qed.

Lemma length_take_output (xs : list T) k : length (take_output zero xs k) = k.
Proof. unfold take_output. by rewrite length_fmap, length_seq. Qed.

(** X2: [Take] under a context that may be cancelled at any time, over a
    stream carrying [xs] and then closed: the output is a prefix of what
    [Take] would send without cancellation, it is closed before [num] values
    are sent only if the context was cancelled, [Take] has read from its input
    the values it has sent and at most one more (which a cancellation loses),
    nothing panics, the run is never stuck before the close and the runtime
    makes at most [2 * num + 2] choices. *)
Theorem Take_under_cancellation xs num (m : Mem) evs w :
  run_events evs (take_world xs num m) = Some w →
  ∃ sti st, chans w !! 0 = Some sti ∧ chans w !! 1 = Some st
    ∧ panicked w = false
    ∧ hist st `prefix_of` take_output zero xs (Z.to_nat num)
    ∧ (closed st = true →
         ctx_done w = true ∨ hist st = take_output zero xs (Z.to_nat num))
    ∧ (buf sti = drop (length (hist st)) xs
       ∨ buf sti = drop (S (length (hist st))) xs)
    ∧ (closed st = false → ∃ ch w', fire ch w = Some w')
    ∧ event_steps evs ≤ 2 * Z.to_nat num + 2.
Proof.
  intros Hrun.
  destruct (run_events_measure _ (take_cancel_step xs num m) _ _ _ _
              (take_cancel_start xs num m) Hrun) as (n' & Hlen & HI).
  destruct HI as [gt gs b st d nt ns Ht Hs].
  exists (ChanSt (length xs) b true xs), st. simpl.
  split; [done|]. split; [done|]. split; [done|].
  inv Ht; simpl; rewrite ?length_take_output.
  - split; [apply take_output_prefix; lia|]. split; [done|]. split; [by left|].
    split; [|lia]. intros _.
    destruct (Z.ltb_spec (Z.of_nat k) num) as [Hlt|Hge].
    + exists (Solo 0 0). unfold fire; simpl.
      destruct (Z.ltb_spec (Z.of_nat k) num); [|lia]. simpl.
      destruct (drop k xs); eauto.
    + exists (Solo 0 0). unfold fire; simpl.
      destruct (Z.ltb_spec (Z.of_nat k) num); [lia|]. eauto.
  - split; [apply take_output_prefix; lia|]. split; [done|]. split; [by right|].
    split; [|lia]. intros _. inv Hs.
    exists (Sync 0 1 1 0). unfold fire; simpl. eauto.
  - split; [apply take_output_prefix; lia|]. split; [done|]. split; [by right|].
    split; [|lia]. intros _. exists (Solo 0 0). unfold fire; simpl. eauto.
  - split; [apply take_output_prefix; lia|]. split; [by left|]. split; [by right|].
    split; [done|lia].
  - split; [done|]. split; [by right|]. split; [by left|]. split; [done|lia].
Qed.

(** No choice of the runtime cancels the context. *)
Lemma Or_ctx_done (channels : list chan) (w : world) :
  ctx_done (Or channels w).2 = ctx_done w.
Proof. by destruct channels as [|c0 [|c1 rest]]. Qed.

Lemma fire_clause_ctx_done i cl (w w' : world) :
  fire_clause zero i cl w = Some w' → ctx_done w' = ctx_done w.
Proof.
  unfold fire_clause. intros Hf.
  repeat (case_match; simplify_option_eq; try done).
Qed.

Lemma fire_ctx_done ch (w w' : world) :
  fire ch w = Some w' → ctx_done w' = ctx_done w.
Proof.
  unfold fire. intros Hf. destruct (panicked w); [done|].
  destruct ch as [i b|i bi j bj].
  - destruct (pool w !! i) as [g|]; simpl in Hf; [|done].
    destruct (next g) as [cls|c k|f k|f k|wg k|wg k|k| |] eqn:Hn; simplify_eq.
    + destruct (cls !! b); simpl in Hf; [|done]. by eapply fire_clause_ctx_done.
    + repeat (case_match; simplify_option_eq; try done).
    + destruct (f w) as [r w1] eqn:Hcall. simplify_eq. simpl.
      destruct g; simpl in Hn; repeat case_match; simplify_eq.
      all: try (by inv Hcall).
      all: match goal with H : Or ?cs ?w0 = _ |- _ =>
             pose proof (Or_ctx_done cs w0) as Hctx; by rewrite H in Hctx end.
    + destruct (f (mem w)). by simplify_eq.
    + by destruct (wgs w !! wg) as [[|n]|]; simplify_eq/=.
    + by destruct (wgs w !! wg) as [[|n]|]; simplify_eq/=.
    + done.
    + done.
  - repeat (case_match; simplify_option_eq; try done).
Qed.

Lemma run_ctx_done sched (w w' : world) :
  run sched w = Some w' → ctx_done w' = ctx_done w.
Proof.
  revert w. induction sched as [|ch sched IH]; intros w Hrun; simpl in Hrun.
  - by simplify_eq.
  - destruct (fire ch w) as [w1|] eqn:Hf; simpl in Hrun; [|done].
    rewrite (IH _ Hrun). by eapply fire_ctx_done.
Qed.

Lemma run_as_events sched (w : world) :
  run sched w = run_events (Step <$> sched) w.
Proof.
  revert w. induction sched as [|ch sched IH]; intros w; simpl; [done|].
  destruct (fire ch w); simpl; [apply IH|done].
Qed.

(** X3: with a context that is never cancelled, [Take] over a stream that
    holds at least [num] values forwards exactly the first [num] of them, in
    order, and leaves the others in the stream. *)
Theorem Take_leaves_the_rest xs num (m : Mem) sched w :
  Z.to_nat num ≤ length xs →
  run sched (take_world xs num m) = Some w →
  ∃ sti st, chans w !! 0 = Some sti ∧ chans w !! 1 = Some st
    ∧ hist st `prefix_of` take (Z.to_nat num) xs
    ∧ (closed st = true →
         hist st = take (Z.to_nat num) xs ∧ buf sti = drop (Z.to_nat num) xs).
Proof.
  intros Hlen Hrun.
  pose proof (run_ctx_done _ _ _ Hrun) as Hctx.
  rewrite run_as_events in Hrun.
  destruct (run_events_measure _ (take_cancel_step xs num m) _ _ _ _
              (take_cancel_start xs num m) Hrun) as (n' & _ & HI).
  assert (take_output zero xs (Z.to_nat num) = take (Z.to_nat num) xs) as Hout.
  { rewrite take_output_pad. replace (Z.to_nat num - length xs) with 0 by lia.
    by rewrite app_nil_r. }
  destruct HI as [gt gs b st d nt ns Ht Hs].
  exists (ChanSt (length xs) b true xs), st. simpl in *.
  split; [done|]. split; [done|]. rewrite <- Hout.
  inv Ht; simpl; try done.
  all: split; [apply take_output_prefix; lia|done].
Qed.

Lemma take_waiting_occur c num (m : Mem) d e w :
  (0 < num)%Z →
  occur e (World [ChanSt c [] false []; ChanSt 0 [] false []] []
             [GTake (Some 0) num 0 (Some 1); GRange (Some 1)] [] m d false) = Some w →
  ∃ d', w = World [ChanSt c [] false []; ChanSt 0 [] false []] []
                  [GTake (Some 0) num 0 (Some 1); GRange (Some 1)] [] m d' false.
Proof.
  intros Hnum Hf. destruct e as [ch|]; simpl in Hf.
  - fire_cases Hf. lia.
  - simplify_eq. by exists true.
Qed.

Lemma take_waiting_run c num (m : Mem) evs :
  (0 < num)%Z →
  ∀ d w,
    run_events evs (World [ChanSt c [] false []; ChanSt 0 [] false []] []
        [GTake (Some 0) num 0 (Some 1); GRange (Some 1)] [] m d false) = Some w →
    ∃ d', w = World [ChanSt c [] false []; ChanSt 0 [] false []] []
                    [GTake (Some 0) num 0 (Some 1); GRange (Some 1)] [] m d' false.
Proof.
  intros Hnum. induction evs as [|e evs IH]; intros d w Hrun; simpl in Hrun.
  - simplify_eq. by exists d.
  - destruct (occur e _) as [w1|] eqn:Hf; simpl in Hrun; [|done].
    apply take_waiting_occur in Hf as [d1 ->]; [|done]. by eapply IH.
Qed.

(** X4: while its input is open and empty, [Take] cannot be cancelled: the
    operand [<-stream] of its send clause is evaluated before the select can
    look at [ctx.Done()], so with [num > 0] no choice of the runtime is ever
    enabled, before or after the context is cancelled, and the output is never
    closed. *)
Theorem Take_waiting_ignores_cancellation c num (m : Mem) evs w :
  (0 < num)%Z →
  run_events evs (take_waiting_world c num m) = Some w →
  chans w = [ChanSt c [] false []; ChanSt 0 [] false []]
  ∧ pool w = [GTake (Some 0) num 0 (Some 1); GRange (Some 1)]
  ∧ panicked w = false
  ∧ (∀ ch, fire ch w = None)
  ∧ (∀ ch, fire ch (cancel_ctx w) = None).
Proof.
  intros Hnum Hrun. apply take_waiting_run in Hrun as [d ->]; [|done].
  split; [done|]. split; [done|]. split; [done|].
  assert (∀ d' ch, fire ch (World [ChanSt c [] false []; ChanSt 0 [] false []] []
            [GTake (Some 0) num 0 (Some 1); GRange (Some 1)] [] m d' false) = None)
    as Hnone.
  { intros d' ch.
    destruct (fire ch _) as [w'|] eqn:Hf; [|done].
    fire_cases Hf. lia. }
  split; intros ch; apply Hnone.
Qed.

(** ** Confine without a consumer *)

Lemma confine_alone_step fns (m0 : Mem) n w ch w' :
  confine_alone_inv fns m0 n w → fire ch w = Some w' →
  ∃ n', n' < n ∧ confine_alone_inv fns m0 n' w'.
Proof.
  intros HI Hf. destruct HI as [gc st m n Hc Hb].
  inv Hc; simpl in Hb; subst.
  all: fire_cases Hf.
  all: simplify_eq; wsimpl.
  - (* close(results) *)
    eexists. split; [|eapply confine_alone_running; [eapply confine_returned|done]].
    + simpl. lia.
    + by rewrite take_ge in * by lia.
  - (* do() *)
    eexists. split; [|eapply confine_alone_running;
      [eapply (confine_sending _ _ s); eauto using call_all_take_S|done]].
    all: simpl; lookup_bounds; lia.
  - (* results <- r, into the buffer *)
    eexists. split; [|eapply confine_alone_running;
      [eapply (confine_calling _ _ (S s)); eauto|done]].
    all: try rewrite length_app; simpl; lia.
Qed.

Lemma confine_alone_start (fns : list func) (m : Mem) :
  confine_alone_inv fns m (3 * length fns + 2) (confine_alone_world fns m).
Proof.
  replace (3 * length fns + 2) with (3 * (length fns - 0) + 2 + length (@nil T))
    by (simpl; lia).
  apply confine_alone_running; [|done].
  by apply (confine_calling _ _ 0); simpl; try lia.
Qed.

Lemma call_all_length (fns : list func) (m : Mem) :
  length (call_all fns m).1 = length fns.
Proof.
  revert m. induction fns as [|f fns IH]; intros m; simpl; [done|].
  destruct (f m) as [r m1]. specialize (IH m1).
  destruct (call_all fns m1). simpl in *. by rewrite IH.
Qed.

(** X5: [Confine] needs no consumer: the buffer of [results] has room for
    one result per function, so the goroutine of [Confine] is never blocked;
    under every schedule it runs to the close of [results], which then holds
    all the results, in order, for whoever ranges over it later. *)
Theorem Confine_never_blocks (fns : list func) (m : Mem) sched w :
  run sched (confine_alone_world fns m) = Some w →
  ∃ st, chans w !! 0 = Some st ∧ panicked w = false
    ∧ buf st = hist st
    ∧ length (buf st) ≤ cap st
    ∧ hist st `prefix_of` (call_all fns m).1
    ∧ (closed st = true → (buf st, mem w) = call_all fns m)
    ∧ (closed st = false → ∃ w', fire (Solo 0 0) w = Some w')
    ∧ length sched ≤ 2 * length fns + 2.
Proof.
  intros Hrun.
  destruct (run_measure _ (confine_alone_step fns m) _ _ _ _
              (confine_alone_start fns m) Hrun) as (n' & Hlen & HI).
  destruct HI as [gc st m' n Hc Hb].
  exists st. split; [done|]. simpl. split; [done|]. split; [done|].
  assert (hist st `prefix_of` (call_all fns m).1) as Hpre.
  { inv Hc; simpl; eauto using call_all_prefix.
    - apply prefix_app_l with [r]. eauto using call_all_prefix.
    - rewrite <- (take_ge fns (length fns)) in H by lia. eauto using call_all_prefix. }
  assert (length (hist st) ≤ length fns) as Hle.
  { apply prefix_length in Hpre. by rewrite call_all_length in Hpre. }
  split; [inv Hc; simpl in *; subst; lia|].
  split; [done|].
  split; [inv Hc; simpl in *; intros; simplify_eq; done|].
  split.
  - intros Hcl. inv Hc; simpl in Hcl; try discriminate Hcl; simpl in *; subst.
    + unfold fire; simpl.
      destruct (drop s fns) as [|f fs]; simpl; [eauto|destruct (f m'); eauto].
    + unfold fire; simpl.
      destruct (decide (length h < length fns)); [eauto|lia].
  - inv Hc; simpl in *; subst.
    all: match goal with H : call_all ?l _ = _ |- _ =>
           pose proof (call_all_length l m) as Hl; rewrite H in Hl;
           rewrite ?length_take in Hl end.
    all: cbn [fst] in Hl; rewrite ?length_app in Hl; cbn [length] in Hl; lia.
Qed.

(** ** Or leaves no goroutine behind *)

Lemma or_args_cover_from channels n M d j c :
  length channels ≤ 2 * M + 1 → 2 * M ≤ length channels →
  S (j + d) = M → c ∈ or_args channels n j →
  ∃ j', j ≤ j' ∧ j' < M ∧ c ∈ or_cases channels n j'.
Proof.
  intros Hup Hlow. revert j.
  induction d as [|d IH]; intros j HM Hc.
  - exists j. split; [lia|]. split; [lia|].
    pose proof (or_args_length channels n j ltac:(lia)) as Hlen.
    unfold or_cases.
    destruct (or_args channels n j) as [|c0 [|c1 [|c2 [|c3 rest]]]];
      simpl in *; try lia; [done|].
    revert Hc. rewrite !elem_of_cons. tauto.
  - pose proof (or_args_length channels n j ltac:(lia)) as Hlen.
    destruct (or_args channels n j) as [|c0 [|c1 [|c2 [|c3 rest]]]] eqn:Hargs;
      simpl in *; try lia.
    apply elem_of_cons in Hc as [->|Hc]; [|apply elem_of_cons in Hc as [->|Hc];
      [|apply elem_of_cons in Hc as [->|Hc]]].
    1-3: exists j; split; [lia|]; split; [lia|]; unfold or_cases; rewrite Hargs;
      rewrite !elem_of_cons; by eauto.
    destruct (IH (S j)) as (j' & ? & ? & ?); [lia| |].
    + simpl. rewrite Hargs. apply elem_of_app. by left.
    + exists j'. split; [lia|done].
Qed.

(** Either a goroutine at its select sits right above one that is done, or
    the goroutines that are done come first. *)
Lemma or_sts_split sts :
  Forall (λ s, s = OSelect ∨ s = ODone) sts →
  (∃ a, sts !! a = Some OSelect ∧ sts !! S a = Some ODone)
  ∨ (∃ p, p ≤ length sts
          ∧ (∀ j, j < p → sts !! j = Some ODone)
          ∧ (∀ j s, sts !! j = Some s → p ≤ j → s = OSelect)).
Proof.
  induction 1 as [|s sts Hs Hall IH].
  - right. exists 0. split; [done|]. split; [lia|]. by intros j s.
  - destruct IH as [(a & Ha & Hb)|(p & Hp & Hdone & Hsel)].
    { left. by exists (S a). }
    destruct Hs as [-> | ->].
    + destruct p as [|p].
      * right. exists 0. split; [simpl; lia|]. split; [lia|].
        intros [|j] s Hj _; simpl in Hj; [by simplify_eq|].
        eapply Hsel; [done|lia].
      * left. exists 0. split; [done|]. simpl. apply Hdone. lia.
    + right. exists (S p). split; [simpl; lia|]. split.
      * intros [|j] Hj; simpl; [done|]. apply Hdone. lia.
      * intros [|j] s Hj Hle; simpl in Hj; [lia|]. eapply Hsel; [done|lia].
Qed.

Lemma or_args_last channels n j : Some (n + j) ∈ or_args channels n (S j).
Proof. simpl. apply elem_of_app. right. by apply list_elem_of_singleton. Qed.

Lemma or_close_drain channels n k r w :
  or_close_inv channels n k r w →
  (∃ i sti, Some i ∈ channels ∧ chans w !! i = Some sti ∧ resolved sti) →
  (∀ g, g ∈ pool w → next g = IReturn)
  ∨ ∃ i b w', fire (Solo i b) w = Some w'.
Proof.
  intros HI Hres.
  destruct HI as [w ins sts cons Hch Hpool Hpan Hlen Hcons Hchain Htrack Hret].
  destruct Hchain as (Hone & Hlow & Hlast & Hfull).
  destruct (or_sts_cases sts) as [[j Hj]|[[j Hj]|Hall]].
  - (* a goroutine has yet to start *)
    right. exists (or_idx (length cons) j), 0. unfold fire.
    rewrite Hpan, Hpool, (or_pool_stage _ _ _ _ _ _ Hj). simpl.
    unfold or_goroutine. simpl.
    destruct (or_args channels n j) as [|c0 [|c1 [|c2 rest]]]; simpl; eauto.
    destruct (Or (rest ++ [Some (n + j)]) w). eauto.
  - (* a goroutine has yet to close its channel *)
    right. exists (or_idx (length cons) j), 0. unfold fire.
    rewrite Hpan, Hpool, (or_pool_stage _ _ _ _ _ _ Hj). simpl.
    unfold or_goroutine. simpl.
    rewrite Hch, <- Hlen, or_chans_made, Hj. simpl. eauto.
  - destruct Hfull as [[j Hj]|Hfull].
    { destruct (proj1 (Forall_lookup _ _) Hall _ _ Hj) as [?|?]; done. }
    (* a goroutine at its select on a channel that is closed can move *)
    assert (∀ j b c, sts !! j = Some OSelect →
              or_cases channels n j !! b = Some (Some (n + c)) →
              sts !! c = Some ODone →
              ∃ i b w', fire (Solo i b) w = Some w') as Hmove.
    { intros j b c Hj Hb Hc.
      exists (or_idx (length cons) j), b. unfold fire.
      rewrite Hpan, Hpool, (or_pool_stage _ _ _ _ _ _ Hj). simpl.
      unfold or_goroutine. simpl. rewrite list_lookup_fmap, Hb. simpl.
      rewrite Hch, <- Hlen, or_chans_made, Hc. simpl. eauto. }
    destruct (or_sts_split _ Hall) as [(a & Ha & Hb)|(p & Hp & Hdone & Hsel)].
    { right. apply lookup_lt_Some in Hb as Hlt.
      eapply (Hmove a 3 (S a)); [done| |done].
      apply or_cases_next. lia. }
    destruct (decide (p = length sts)) as [->|Hne].
    + (* every goroutine of Or is done *)
      destruct (decide (false ∈ cons)) as [Hin|Hout].
      * right. apply list_elem_of_lookup_1 in Hin as [c Hc].
        exists (S c), 0. unfold fire.
        rewrite Hpan, Hpool, (or_pool_consumer _ _ _ _ _ _ Hone Hc). simpl.
        rewrite Hch, <- Hlen, <- (Nat.add_0_r (length ins)), or_chans_made.
        rewrite (Hdone 0) by lia. simpl. eauto.
      * left. intros g Hg. rewrite Hpool in Hg.
        apply list_elem_of_lookup_1 in Hg as [i Hi].
        apply or_pool_lookup in Hi as [(j & s & -> & Hs & ->)|(c & b & -> & Hc & ->)];
          [| |exact Hone].
        -- rewrite (Hdone j) in Hs by (by eapply lookup_lt_Some). by simplify_eq.
        -- destruct b; [done|]. destruct Hout. by eapply list_elem_of_lookup_2.
    + right.
      destruct (sts !! p) as [sp|] eqn:Hsp; [|apply lookup_ge_None in Hsp; lia].
      pose proof (Hsel _ _ Hsp ltac:(lia)); subst sp.
      destruct p as [|p].
      * (* no goroutine is done: an input is ready *)
        assert (¬ Exists past sts) as Hnp.
        { intros Hx. apply Exists_past_lookup in Hx as (j & s & Hj & Hpast).
          pose proof (Hsel _ _ Hj ltac:(lia)); subst s. by destruct Hpast. }
        assert (∃ i sti, Some i ∈ channels ∧ ins !! i = Some sti ∧ resolved sti)
          as Hin.
        { destruct Hres as (i & sti & Hin & Hi & Hr). rewrite Hch in Hi.
          destruct (decide (i < length ins)) as [Hlt|Hge].
          - rewrite or_chans_input in Hi by done. eauto.
          - replace i with (length ins + (i - length ins)) in Hi by lia.
            rewrite or_chans_made in Hi.
            destruct (sts !! (i - length ins)) as [s|] eqn:Hs; simplify_eq/=.
            pose proof (Hsel _ _ Hs ltac:(lia)); subst s.
            by destruct Hr. }
        destruct (proj2 (proj2 Htrack) Hin) as [(i & sti & Hi & Hsti & Hready)|Hx];
          [|done].
        destruct (or_cover channels (length ins) (length sts) (Some i))
          as (j & Hj & Hcase); [lia..|done|].
        apply list_elem_of_lookup_1 in Hcase as [b Hb].
        destruct (sts !! j) as [s|] eqn:Hs; [|apply lookup_ge_None in Hs; lia].
        pose proof (Hsel _ _ Hs ltac:(lia)); subst s.
        exists (or_idx (length cons) j), b. unfold fire.
        rewrite Hpan, Hpool, (or_pool_stage _ _ _ _ _ _ Hs). simpl.
        unfold or_goroutine. simpl. rewrite <- Hlen, list_lookup_fmap, Hb. simpl.
        pose proof (lookup_lt_Some _ _ _ Hsti).
        rewrite Hch, or_chans_input, Hsti by done. simpl.
        destruct Hready as [Hcl|Hbuf].
        -- rewrite Hcl. destruct (buf sti); eauto.
        -- destruct (buf sti); [done|eauto].
      * (* the channel of the last goroutine that is done was passed down *)
        destruct (or_args_cover_from channels n (length sts)
                    (length sts - S (S p)) (S p) (Some (n + p)))
          as (j & Hge & Hlt & Hcase); [lia..|apply or_args_last|].
        apply list_elem_of_lookup_1 in Hcase as [b Hb].
        destruct (sts !! j) as [s|] eqn:Hs; [|apply lookup_ge_None in Hs; lia].
        pose proof (Hsel _ _ Hs ltac:(lia)); subst s.
        eapply (Hmove j b p); [done..|]. apply Hdone. lia.
Qed.

(** X6: [Or] leaves no goroutine behind.  For two channels or more, under
    every schedule and whatever the owners of the inputs do: once an input
    has been closed or has delivered a value, either every goroutine in the
    pool (the goroutines of all the nested calls of [Or], and the consumers)
    has returned, or one of them can move; and they make at most
    [3 * len(channels) + k] moves in all.  This is what passing [orDone] down
    to the nested call is for: the close of any goroutine's channel wakes the
    ones below it too. *)
Theorem Or_leaves_no_goroutine (heap : list chanst) (channels : list chan) k
    (m : Mem) evs w :
  2 ≤ length channels →
  Forall (λ st, hist st = buf st) heap →
  or_run (length heap) evs (or_client heap channels k m) = Some w →
  (∃ i sti, Some i ∈ channels ∧ chans w !! i = Some sti ∧ resolved sti) →
  ((∀ g, g ∈ pool w → next g = IReturn)
   ∨ ∃ i b w', fire (Solo i b) w = Some w')
  ∧ or_moves evs ≤ 3 * length channels + k.
Proof.
  intros Hlen Hheap Hrun Hres.
  destruct (or_client_start heap channels k m Hlen Hheap) as (r & Hr & HI).
  destruct (or_close_run _ _ _ _ _ _ _ HI Hrun) as (r' & Hr' & HI').
  split; [by eapply or_close_drain|lia].
Qed.

(** ** OrDone *)

Lemma sublist_take_snoc (xs h : list T) j v :
  xs !! j = Some v → h `sublist_of` take j xs →
  h ++ [v] `sublist_of` take (S j) xs ∧ h `sublist_of` take (S j) xs.
Proof.
  intros Hv Hh. rewrite (take_S_r _ _ _ Hv). split.
  - by apply sublist_app.
  - by apply sublist_inserts_r.
Qed.

Lemma ordone_cancel_step (xs : list T) (m : Mem) n w e w' :
  ordone_world_inv xs m n w → occur e w = Some w' →
  ∃ n', n' + event_steps [e] ≤ n ∧ ordone_world_inv xs m n' w'.
Proof.
  intros HI Hf. destruct HI as [go gs b st d no ns Ho Hs].
  destruct e as [ch|]; simpl in Hf; cycle 1.
  { simplify_eq. unfold cancel_ctx. simpl.
    exists (no + ns). split; [simpl; lia|].
    constructor; [|done]. inv Ho; by econstructor. }
  assert (∀ h j, h `sublist_of` take j xs → h `sublist_of` xs) as Hsub.
  { intros h j Hh. etrans; [done|apply sublist_take]. }
  inv Ho.
  - (* OrDone at its outer select *)
    inv Hs. destruct d; fire_cases Hf; simplify_eq; wsimpl.
    + eexists; split; cycle 1;
        [constructor; [apply oc_closing; [by eauto|done]|constructor]|simpl; lookup_bounds; lia].
    + eexists; split; cycle 1;
        [constructor; [apply oc_closing; [by eauto|done]|constructor]|simpl; lookup_bounds; lia].
    + eexists; split; cycle 1;
        [constructor; [eapply oc_send; eauto|constructor]|simpl; lookup_bounds; lia].
    + eexists; split; cycle 1;
        [constructor; [apply oc_closing; [by eauto|]|constructor]|simpl; lookup_bounds; lia].
      intros _.
      match goal with H : false = false → _ |- _ => rewrite H by done end.
      by rewrite take_ge.
    + eexists; split; cycle 1;
        [constructor; [eapply oc_send; eauto|constructor]|simpl; lookup_bounds; lia].
  - (* OrDone offers the value it has received *)
    inv Hs. destruct d; fire_cases Hf; simplify_eq; wsimpl.
    + eexists; split; cycle 1;
        [constructor; [eapply (oc_recv _ (S j)); [done| |done]|constructor]
        |simpl; lookup_bounds; lia].
      by eapply proj2, sublist_take_snoc.
    + eexists; split; cycle 1;
        [constructor; [eapply (oc_recv _ (S j)); [done| |done]|constructor]
        |simpl; lookup_bounds; lia].
      by eapply proj1, sublist_take_snoc.
    + eexists; split; cycle 1;
        [constructor; [eapply (oc_recv _ (S j)); [done| |]|constructor]
        |simpl; lookup_bounds; lia].
      * by eapply proj1, sublist_take_snoc.
      * intros _. rewrite (take_S_r _ _ _ H). f_equal. auto.
  - (* the deferred close *)
    inv Hs. fire_cases Hf; simplify_eq; wsimpl.
    eexists; split; cycle 1;
      [constructor; [by apply oc_closed|constructor]|simpl; lookup_bounds; lia].
  - inv Hs; fire_cases Hf; simplify_eq; wsimpl.
    eexists; split; cycle 1;
      [constructor; [by apply oc_closed|constructor]|simpl; lookup_bounds; lia].
Qed.

Lemma ordone_world_start (xs : list T) (m : Mem) :
  ordone_world_inv xs m (2 * length xs + 2 + 1) (ordone_world xs m).
Proof.
  unfold ordone_world. simpl.
  constructor; [|constructor].
  replace (2 * length xs + 2) with (2 * (length xs - 0) + 2) by lia.
  by apply (oc_recv xs 0).
Qed.

(** X7: [OrDone] over a stream carrying [xs] and then closed, the context
    being cancelled at any time or never.  What it forwards is always a
    subsequence of [xs] in order; as long as the context is not cancelled it
    is a prefix of [xs], and the output is then closed only after all of
    [xs]; after a cancellation values may be dropped (a value received just
    before is lost when the inner select takes [ctx.Done()], and later ones
    may still get through).  Nothing panics, the run is never stuck before
    the close and the runtime makes at most [2 * len(xs) + 3] choices. *)
Theorem OrDone_under_cancellation (xs : list T) (m : Mem) evs w :
  run_events evs (ordone_world xs m) = Some w →
  ∃ st, chans w !! 1 = Some st ∧ panicked w = false
    ∧ hist st `sublist_of` xs
    ∧ (ctx_done w = false → hist st `prefix_of` xs)
    ∧ (closed st = true → ctx_done w = true ∨ hist st = xs)
    ∧ (closed st = false → ∃ ch w', fire ch w = Some w')
    ∧ event_steps evs ≤ 2 * length xs + 3.
Proof.
  intros Hrun.
  destruct (run_events_measure _ (ordone_cancel_step xs m) _ _ _ _
              (ordone_world_start xs m) Hrun) as (n' & Hlen & HI).
  destruct HI as [go gs b st d no ns Ho Hs].
  exists st. simpl. split; [done|]. split; [done|].
  inv Ho; simpl.
  - split; [etrans; [done|apply sublist_take]|].
    split; [intros ->; rewrite H1 by done; apply prefix_take|].
    split; [done|]. split; [|lia]. intros _.
    exists (Solo 0 1). unfold fire; simpl. destruct (drop j xs); eauto.
  - split; [etrans; [done|apply sublist_take]|].
    split; [intros ->; rewrite H2 by done; apply prefix_take|].
    split; [done|]. split; [|lia]. intros _. inv Hs.
    exists (Sync 0 0 1 0). unfold fire; simpl. eauto.
  - split; [done|]. split; [by intros ->; rewrite H0|].
    split; [done|]. split; [|lia]. intros _.
    exists (Solo 0 0). unfold fire; simpl. eauto.
  - split; [done|]. split; [by intros ->; rewrite H0|].
    split; [|split; [done|lia]].
    intros _. destruct d; [by left|right; auto].
Qed.

(** ** Repeat *)

Lemma repeat_cancel_step (values : list T) (m : Mem) w e w' :
  repeat_world_inv zero values m w → occur e w = Some w' →
  repeat_world_inv zero values m w'.
Proof.
  intros HI Hf. destruct HI as [gr gs st d ns Hr Hs].
  destruct e as [ch|]; simpl in Hf; cycle 1.
  { simplify_eq. unfold cancel_ctx. simpl.
    econstructor; [|done]. inv Hr; by econstructor. }
  inv Hr.
  - inv Hs. destruct d; fire_cases Hf; simplify_eq; wsimpl; lookup_bounds.
    + (* the next pass *)
      econstructor; [|constructor].
      apply (rc_pass _ _ (S q) 0); [lia|done|].
      f_equal. rewrite ?Nat.mul_succ_l. lia.
    + (* cancelled *)
      econstructor; [|constructor]. by eapply rc_closing.
    + (* stream <- v *)
      econstructor; [|constructor].
      apply (rc_pass _ _ q (S p)); [lia|done|].
      replace (q * length values + S p) with (S (q * length values + p)) by lia.
      rewrite repeat_output_S. by erewrite cycle_at_offset by eassumption.
    + econstructor; [|constructor].
      apply (rc_pass _ _ (S q) 0); [lia|done|].
      f_equal. rewrite ?Nat.mul_succ_l. lia.
    + econstructor; [|constructor].
      apply (rc_pass _ _ q (S p)); [lia|done|].
      replace (q * length values + S p) with (S (q * length values + p)) by lia.
      rewrite repeat_output_S. by erewrite cycle_at_offset by eassumption.
  - inv Hs. fire_cases Hf; simplify_eq; wsimpl.
    econstructor; [|constructor]. by eapply rc_closed.
  - inv Hs; fire_cases Hf; simplify_eq; wsimpl.
    econstructor; [|constructor]. by eapply rc_closed.
Qed.

Lemma repeat_cancel_run (values : list T) (m : Mem) evs : ∀ w w',
  repeat_world_inv zero values m w → run_events evs w = Some w' →
  repeat_world_inv zero values m w'.
Proof.
  induction evs as [|e evs IH]; intros w w' HI Hrun; simpl in Hrun.
  - by simplify_eq.
  - destruct (occur e w) as [w1|] eqn:Hf; simpl in Hrun; [|done].
    eauto using repeat_cancel_step.
Qed.

Lemma length_repeat_output (values : list T) k :
  length (repeat_output zero values k) = k.
Proof. unfold repeat_output. by rewrite length_fmap, length_seq. Qed.

(** X8: [Repeat] over a non-empty seed, with a ranging consumer, the context
    being cancelled at any time or never: the stream always carries the
    seed repeated cyclically, it is closed only after the context was
    cancelled, nothing panics, and the run is never stuck: either both
    goroutines have returned, or the runtime has a choice.  So with a context
    that is never cancelled Repeat generates for ever; and after a
    cancellation it may still send, as long as the select takes the send. *)
Theorem Repeat_cycles_until_cancelled (values : list T) (m : Mem) d evs w :
  values ≠ [] →
  run_events evs (repeat_world values m d) = Some w →
  ∃ st, chans w !! 0 = Some st ∧ panicked w = false
    ∧ hist st = repeat_output zero values (length (hist st))
    ∧ (closed st = true → ctx_done w = true)
    ∧ (pool w = [GDeferred []; GReturn] ∨ ∃ ch w', fire ch w = Some w').
Proof.
  intros Hne Hrun.
  assert (0 < length values) as Hlen by (destruct values; simpl; [done|lia]).
  assert (repeat_world_inv zero values m (repeat_world values m d)) as HI.
  { unfold repeat_world. simpl. econstructor; [|constructor].
    by apply (rc_pass _ _ 0 0); [lia|..]. }
  pose proof (repeat_cancel_run _ _ _ _ _ HI Hrun) as HI'.
  destruct HI' as [gr gs st d' ns Hr Hs].
  exists st. simpl. split; [done|]. split; [done|].
  inv Hr; simpl; rewrite length_repeat_output.
  - split; [done|]. split; [done|]. right. inv Hs.
    destruct (drop p values) as [|v rest] eqn:Hd.
    + exists (Solo 0 0). unfold fire; simpl. eauto.
    + exists (Sync 0 1 1 0). unfold fire; simpl. eauto.
  - split; [done|]. split; [done|]. right.
    exists (Solo 0 0). unfold fire; simpl. eauto.
  - split; [done|]. split; [done|]. inv Hs.
    + right. exists (Solo 1 0). unfold fire; simpl. eauto.
    + by left.
Qed.

(** ** Take over Repeat, with cancellation *)

Lemma pipe_out_value (values : list T) a :
  (repeat_output zero values a ++ replicate 0 zero) ++ [cycle_at zero values a]
  = repeat_output zero values (S a) ++ replicate 0 zero.
Proof. rewrite repeat_output_S. simpl. by rewrite !app_nil_r. Qed.

Lemma pipe_out_zero (values : list T) a z :
  (repeat_output zero values a ++ replicate z zero) ++ [zero]
  = repeat_output zero values a ++ replicate (S z) zero.
Proof. by rewrite replicate_S_end, app_assoc. Qed.

Ltac pipe_side :=
  try done; try lia;
  try (intros; done);
  try (intros; lia);
  try (by rewrite pipe_out_value);
  try (by rewrite pipe_out_zero);
  try (rewrite ?Nat.mul_succ_l; lia);
  try (f_equal; rewrite ?Nat.mul_succ_l; lia);
  try (repeat (destruct (decide _)); simpl; lia);
  try (by rewrite repeat_output_S; erewrite cycle_at_offset by eassumption);
  try (by erewrite cycle_at_offset by eassumption).

Ltac pipe_q k :=
  lazymatch k with
  | S (?q * _ + _) => q
  | ?q * _ + _ => q
  end.

Ltac pipe_repeat :=
  lazymatch goal with
  | |- pipe_repeat_inv _ (GRepeat _ (drop (S ?p) _) _) ?k _ _ _ =>
      let q := pipe_q k in eapply (pr_pass _ q (S p)); solve [pipe_side]
  | |- pipe_repeat_inv _ (GRepeat _ (drop ?p _) _) ?k _ _ _ =>
      let q := pipe_q k in eapply (pr_pass _ q p); solve [pipe_side]
  | |- pipe_repeat_inv _ (GRepeat ?vs ?vs _) ?k _ _ _ =>
      let q := pipe_q k in eapply (pr_pass _ (S q) 0); solve [pipe_side]
  | |- pipe_repeat_inv _ (GDeferred [_]) _ _ _ _ => apply pr_closing
  | |- pipe_repeat_inv _ (GDeferred []) _ _ _ _ => apply pr_closed
  end.

(** The log of the stream after one more value. *)
Ltac pipe_stream :=
  first
  [ done
  | lazymatch goal with
    | |- repeat_output ?z ?vs ?K ++ [_] = _ =>
        transitivity (repeat_output z vs (S K));
        [by rewrite repeat_output_S; erewrite cycle_at_offset by eassumption
        |reflexivity]
    end ].

Ltac pipe_take_with A Z :=
  first [ eapply (pt_recv _ _ _ A Z); solve [pipe_side]
        | eapply (pt_send_value _ _ _ A Z); solve [pipe_side]
        | eapply (pt_send_zero _ _ _ A Z); solve [pipe_side]
        | eapply (pt_cancelled _ _ _ A Z); solve [pipe_side]
        | eapply (pt_cancelled_closed _ _ _ A Z); solve [pipe_side]
        | eapply (pt_finished _ _ _ A Z); solve [pipe_side] ].

Ltac pipe_take :=
  lazymatch goal with
  | |- pipe_take_inv _ _ _ _ _ _
         (ChanSt _ _ _ ((repeat_output _ _ ?A ++ replicate ?Z _) ++ [_])) _ _ _ _ =>
      first [pipe_take_with (S A) 0 | pipe_take_with A (S Z)]
  | |- pipe_take_inv _ _ _ _ _ _
         (ChanSt _ _ _ ((repeat_output _ _ ?A ++ []) ++ [_])) _ _ _ _ =>
      first [pipe_take_with (S A) 0 | pipe_take_with A 1]
  | |- pipe_take_inv _ _ _ _ _ _
         (ChanSt _ _ _ (repeat_output _ _ ?A ++ replicate ?Z _)) _ _ _ _ =>
      pipe_take_with A Z
  | |- pipe_take_inv _ _ _ _ _ _
         (ChanSt _ _ _ (repeat_output _ _ ?A ++ [])) _ _ _ _ =>
      pipe_take_with A 0
  end.

Ltac pipe_no_zero :=
  repeat match goal with
  | H : 0 < ?z → false = true |- _ =>
      assert (z = 0) by (destruct z; [done|specialize (H ltac:(lia)); discriminate H]);
      clear H
  end.

Ltac pipe_next :=
  pipe_no_zero;
  eexists _, _, _; split; cycle 1;
  [eapply pipe_running; [..|pipe_stream]; [pipe_repeat|pipe_take|constructor]
  |simpl; repeat (destruct (decide _)); simpl; lia].

Lemma pipe_step (values : list T) num (m : Mem) a z n w e w' :
  values ≠ [] →
  pipe_inv zero values num m a z n w → occur e w = Some w' →
  ∃ a' z' n', n' + event_steps [e] ≤ n ∧ pipe_inv zero values num m a' z' n' w'.
Proof.
  intros Hne HI Hf.
  destruct HI as [gr gt gs k scl hs st d a z nr nt ns Hr Ht Hs Hhs].
  assert (0 < length values) as Hlen by (destruct values; simpl; [done|lia]).
  destruct e as [ch|]; simpl in Hf; cycle 1.
  { simplify_eq. unfold cancel_ctx. simpl.
    exists a, z, (nr + nt + ns). split; [simpl; lia|].
    econstructor; [| |done|done]; [inv Hr|inv Ht]; by econstructor. }
  inv Hr; inv Ht; inv Hs.
  all: try (destruct d); fire_cases Hf.
  all: simplify_eq; wsimpl.
  all: lookup_bounds.
  all: pipe_next.
Qed.

Lemma pipe_start (values : list T) num (m : Mem) :
  values ≠ [] →
  pipe_inv zero values num m 0 0 (3 * Z.to_nat num + 6) (repeat_take_world values num m).
Proof.
  intros Hne.
  assert (0 < length values) as Hlen by (destruct values; simpl; [done|lia]).
  replace (3 * Z.to_nat num + 6) with (2 + (3 * (Z.to_nat num - (0 + 0)) + 3) + 1) by lia.
  eapply (pipe_running _ _ _ _ _ _ _ 0); [..|done].
  - eapply (pr_pass _ 0 0); pipe_side.
  - eapply (pt_recv _ _ _ 0 0); pipe_side.
  - constructor.
Qed.

(** The choices to try in a world of the pipeline. *)
Ltac pipe_try ch :=
  solve [exists ch; unfold fire; simpl;
         repeat (match goal with
                 | |- context [if ?x then _ else _] => destruct x eqn:?
                 end; simpl);
         eauto; congruence].

Ltac pipe_enabled :=
  try lazymatch goal with
  | |- context [GRepeat _ (drop ?p ?vs) _] => destruct (drop p vs) eqn:?
  end;
  try lazymatch goal with
  | |- context [GTake _ ?n ?i _] => destruct (i <? n)%Z eqn:?
  end;
  first [ pipe_try (Solo 0 0) | pipe_try (Sync 0 1 1 0) | pipe_try (Solo 1 0)
        | pipe_try (Sync 1 1 2 0) | pipe_try (Solo 2 0) ].

(** X9: the pipeline of the example, [Take(ctx, Repeat(ctx, values...), num)]
    with a ranging consumer, the context being cancelled at any time or
    never.  The consumer receives values of the cycle, in order, followed,
    only after a cancellation, by zero values that Repeat never sent (Take
    reads them from the stream Repeat has closed); never more than [num] in
    all.  The output is closed early only after a cancellation.  The run is
    never stuck before the close, and once the context is cancelled it goes
    on until all three goroutines have returned; the runtime makes at most
    [3 * num + 6] choices. *)
Theorem Pipeline_under_cancellation (values : list T) num (m : Mem) evs w :
  values ≠ [] →
  run_events evs (repeat_take_world values num m) = Some w →
  ∃ st a z, chans w !! 1 = Some st ∧ panicked w = false
    ∧ hist st = repeat_output zero values a ++ replicate z zero
    ∧ a + z ≤ Z.to_nat num
    ∧ (ctx_done w = false → z = 0)
    ∧ (closed st = true → ctx_done w = true ∨ a = Z.to_nat num)
    ∧ (closed st = false → ∃ ch w', fire ch w = Some w')
    ∧ (ctx_done w = true →
         (∀ g, g ∈ pool w → next g = IReturn) ∨ ∃ ch w', fire ch w = Some w')
    ∧ event_steps evs ≤ 3 * Z.to_nat num + 6.
Proof.
  intros Hne Hrun.
  destruct (run_events_measure (λ n w, ∃ a z, pipe_inv zero values num m a z n w))
    with (evs := evs) (n := 3 * Z.to_nat num + 6) (w := repeat_take_world values num m)
         (w' := w) as (n & Hn & a & z & HI); [|by eauto using pipe_start|done|].
  { intros n0 w0 e w1 (a0 & z0 & H0) Hf.
    destruct (pipe_step _ _ _ _ _ _ _ _ _ Hne H0 Hf) as (a1 & z1 & n1 & Hle & H1).
    eauto. }
  destruct HI as [gr gt gs k scl hs st d a z nr nt ns Hr Ht Hs Hhs].
  exists st, a, z. simpl.
  split; [done|]. split; [done|].
  split; [inv Ht; simpl; done|]. split; [inv Ht; lia|].
  split.
  { intros ->. inv Hr; inv Ht; pipe_no_zero; lia. }
  split.
  { intros Hcl. destruct d; [by left|right].
    inv Hr. inv Ht; simpl in Hcl; try done. pipe_no_zero. lia. }
  assert (closed st = false → ∃ ch w', fire ch
            (World [ChanSt 0 [] scl hs; st] [] [gr; gt; gs] [] m d false) = Some w')
    as Hopen.
  { intros Hcl.
    inv Ht; simpl in Hcl; try done; inv Hs; inv Hr.
    all: pipe_enabled. }
  split; [done|]. split; [|lia].
  intros ->. destruct (closed st) eqn:Hcl; [|right; by apply Hopen].
  inv Hs; [right; inv Hr; inv Ht; simpl in Hcl; try done; pipe_enabled|].
  inv Hr.
  - right. pipe_enabled.
  - right. pipe_enabled.
  - left. intros g Hg. inv Ht; simpl in Hcl; try done.
    all: repeat (apply elem_of_cons in Hg as [->|Hg]; [done|]).
    all: by apply elem_of_nil in Hg.
Qed.

(** ** FanIn: the order within each stream, and cancellation *)

Lemma merged_sublist (pss : list (list T)) out i ps :
  merged pss out → pss !! i = Some ps → ps `sublist_of` out.
Proof.
  intros Hm. revert i ps.
  induction Hm as [K|pss out j qs x Hm IH Hq]; intros i ps Hps.
  - apply lookup_replicate_1 in Hps as [-> _]. apply sublist_nil_l.
  - pose proof (lookup_lt_Some _ _ _ Hq) as Hj.
    destruct (decide (i = j)) as [->|Hne].
    + rewrite list_lookup_insert_eq in Hps by done. simplify_eq.
      apply sublist_app; [by eapply IH|done].
    + rewrite list_lookup_insert_ne in Hps by done.
      apply sublist_inserts_r. by eapply IH.
Qed.

Local Abbreviation fan_st := (@fan_st T).
Local Abbreviation fan_goroutine := (@fan_goroutine T Mem).

Lemma fan_pool_drain K (ds : list fan_st) rest i d :
  ds !! i = Some d →
  (imap (fan_goroutine K) ds ++ rest) !! i = Some (fan_goroutine K i d).
Proof. intros Hd. apply lookup_app_l_Some. by rewrite list_lookup_imap, Hd. Qed.

Lemma fan_pool_rest K (ds : list fan_st) rest i :
  ds !! i = None →
  (imap (fan_goroutine K) ds ++ rest) !! i = rest !! (i - length ds).
Proof.
  intros Hd. apply lookup_ge_None in Hd.
  rewrite lookup_app_r by (rewrite length_imap; lia). by rewrite length_imap.
Qed.

Lemma fan_pool_insert K (ds : list fan_st) rest i d' :
  i < length ds →
  <[i:=fan_goroutine K i d']> (imap (fan_goroutine K) ds ++ rest)
  = imap (fan_goroutine K) (<[i:=d']> ds) ++ rest.
Proof.
  intros Hi. rewrite insert_app_l by (by rewrite length_imap). f_equal.
  apply list_eq. intros j. rewrite list_lookup_imap.
  destruct (decide (i = j)) as [->|Hne].
  - rewrite !list_lookup_insert_eq by (rewrite ?length_imap; lia). done.
  - rewrite !list_lookup_insert_ne by done. by rewrite list_lookup_imap.
Qed.

Lemma fan_pool_insert_rest K (ds : list fan_st) rest j g :
  <[length ds + j:=g]> (imap (fan_goroutine K) ds ++ rest)
  = imap (fan_goroutine K) ds ++ <[j:=g]> rest.
Proof.
  rewrite <- (length_imap (fan_goroutine K) ds) at 1. apply insert_app_r.
Qed.

Lemma fan_chan_drain (xss : list (list T)) (ds : list fan_st) out i xs d :
  xss !! i = Some xs → ds !! i = Some d →
  (zip_with fan_chan xss ds ++ [out]) !! i = Some (fan_chan xs d).
Proof.
  intros Hx Hd. apply lookup_app_l_Some. by rewrite lookup_zip_with, Hx, Hd.
Qed.

Lemma fan_chan_out (xss : list (list T)) (ds : list fan_st) out :
  length ds = length xss →
  (zip_with fan_chan xss ds ++ [out]) !! length xss = Some out.
Proof.
  intros Hl. rewrite lookup_app_r by (rewrite length_zip_with; lia).
  rewrite length_zip_with. replace (length xss - _) with 0 by lia. done.
Qed.

Lemma fan_chan_insert (xss : list (list T)) (ds : list fan_st) out i xs d' :
  xss !! i = Some xs → i < length ds →
  <[i:=fan_chan xs d']> (zip_with fan_chan xss ds ++ [out])
  = zip_with fan_chan xss (<[i:=d']> ds) ++ [out].
Proof.
  intros Hx Hi. pose proof (lookup_lt_Some _ _ _ Hx).
  rewrite insert_app_l by (rewrite length_zip_with; lia). f_equal.
  rewrite <- (list_insert_id xss i xs Hx) at 2. by rewrite insert_zip_with.
Qed.

Lemma fan_chan_insert_out (xss : list (list T)) (ds : list fan_st) out out' :
  length ds = length xss →
  <[length xss:=out']> (zip_with fan_chan xss ds ++ [out])
  = zip_with fan_chan xss ds ++ [out'].
Proof.
  intros Hl.
  replace (length xss) with (length (zip_with fan_chan xss ds) + 0) at 1
    by (rewrite length_zip_with; lia).
  by rewrite insert_app_r.
Qed.

Lemma fan_chan_same (xss : list (list T)) (ds : list fan_st) i d d' :
  ds !! i = Some d → fan_buf d' = fan_buf d →
  zip_with fan_chan xss (<[i:=d']> ds) = zip_with fan_chan xss ds.
Proof.
  intros Hd Hb. apply list_eq. intros j. rewrite !lookup_zip_with.
  destruct (decide (i = j)) as [->|Hne].
  - rewrite list_lookup_insert_eq by (by eapply lookup_lt_Some). rewrite Hd.
    destruct (xss !! j); simpl; [|done]. unfold fan_chan. by rewrite Hb.
  - by rewrite list_lookup_insert_ne.
Qed.

Lemma fan_order_same (xss : list (list T)) (ds : list fan_st) i d d' hm :
  ds !! i = Some d → fan_pending d' = fan_pending d →
  fan_order xss ds hm → fan_order xss (<[i:=d']> ds) hm.
Proof.
  intros Hd Hp (pss & Hm & Hl & Hall). exists pss. split; [done|]. split; [done|].
  intros j ps dj xs Hps Hdj Hxs.
  destruct (decide (j = i)) as [->|Hne].
  - rewrite list_lookup_insert_eq in Hdj by (by eapply lookup_lt_Some).
    simplify_eq. rewrite Hp. eauto.
  - rewrite list_lookup_insert_ne in Hdj by done. eauto.
Qed.

Lemma fan_order_sent (xss : list (list T)) (ds : list fan_st) i d d' v hm :
  length ds = length xss →
  ds !! i = Some d → fan_pending d = v :: fan_pending d' →
  fan_order xss ds hm → fan_order xss (<[i:=d']> ds) (hm ++ [v]).
Proof.
  intros Hlen Hd Hp (pss & Hm & Hl & Hall).
  pose proof (lookup_lt_Some _ _ _ Hd) as Hi.
  destruct (lookup_lt_is_Some_2 pss i ltac:(lia)) as [ps Hps].
  exists (<[i:=ps ++ [v]]> pss). split; [by apply merged_snoc|].
  split; [by rewrite length_insert|].
  intros j ps' dj xs Hps' Hdj Hxs.
  destruct (decide (j = i)) as [->|Hne].
  - rewrite list_lookup_insert_eq in Hps' by lia.
    rewrite list_lookup_insert_eq in Hdj by lia. simplify_eq.
    rewrite <- app_assoc. simpl. rewrite <- Hp. eauto.
  - rewrite list_lookup_insert_ne in Hps' by done.
    rewrite list_lookup_insert_ne in Hdj by done. eauto.
Qed.

Lemma fan_settled_insert (ds : list fan_st) i d' (c : bool) :
  (c = false → Forall fan_settled ds) → (c = false → fan_settled d') →
  c = false → Forall fan_settled (<[i:=d']> ds).
Proof. intros Hs Hd Hc. apply Forall_insert; auto. Qed.

Lemma fan_intro (xss : list (list T)) (m : Mem) ds gw gs cm hm n nw ns N chs pl c :
  length ds = length xss →
  waiter_inv (length xss) gw cm n nw →
  sink_inv (Some (length xss)) gs cm ns →
  n = sum_list_with fan_live ds →
  fan_order xss ds hm →
  (c = false → Forall fan_settled ds) →
  chs = zip_with fan_chan xss ds ++ [ChanSt 0 [] cm hm] →
  pl = imap (fan_goroutine (length xss)) ds ++ [gw; gs] →
  N = sum_list_with fan_rank ds + nw + ns →
  fan_inv xss m N (World chs [] pl [n] m c false).
Proof. intros. subst. by apply fan_running. Qed.

Lemma fan_step (xss : list (list T)) (m : Mem) n w ch w' :
  fan_inv xss m n w → fire ch w = Some w' →
  ∃ n', n' < n ∧ fan_inv xss m n' w'.
Proof.
  intros HI Hf. destruct HI as [ds gw gs cm hm n nw ns c Hlen Hw Hs Hn Hord Hset].
  unfold fire in Hf. simpl in Hf.
  destruct ch as [i b|i bi j bj].
  - destruct (ds !! i) as [d|] eqn:Hd.
    + (* a drain goroutine *)
      rewrite (fan_pool_drain _ _ _ _ _ Hd) in Hf. simpl in Hf.
      pose proof (lookup_lt_Some _ _ _ Hd) as Hi.
      destruct (lookup_lt_is_Some_2 xss i ltac:(lia)) as [xs Hx].
      pose proof (sum_list_insert fan_rank ds i d) as Hrank.
      pose proof (sum_list_insert fan_live ds i d) as Hlive.
      destruct d as [buf|val buf|lost buf|lost buf]; simpl in Hf.
      * (* val, ok := <-c *)
        destruct b as [|b]; simpl in Hf; [|done].
        rewrite (fan_chan_drain _ _ _ _ _ _ Hx Hd) in Hf. simpl in Hf.
        destruct buf as [|v buf]; simplify_eq.
        -- specialize (Hrank (FDone [] []) Hd). specialize (Hlive (FDone [] []) Hd).
           eexists. split; [|eapply (fan_intro _ _ (<[i:=FDone [] []]> ds)); try done].
           ++ simpl in *. lia.
           ++ by rewrite length_insert.
           ++ simpl in *. lia.
           ++ by eapply fan_order_same.
           ++ by apply fan_settled_insert.
           ++ simpl. by rewrite (fan_chan_same _ _ _ _ _ Hd).
           ++ simpl. by rewrite <- fan_pool_insert.
        -- specialize (Hrank (FSend v buf) Hd). specialize (Hlive (FSend v buf) Hd).
           eexists. split; [|eapply (fan_intro _ _ (<[i:=FSend v buf]> ds)); try done].
           ++ simpl in *. lia.
           ++ by rewrite length_insert.
           ++ simpl in *. lia.
           ++ by eapply fan_order_same.
           ++ by apply fan_settled_insert.
           ++ simpl. by rewrite <- (fan_chan_insert _ _ _ _ xs).
           ++ simpl. by rewrite <- fan_pool_insert.
      * destruct b as [|[|b]]; simpl in Hf; try done.
        -- (* case <-ctx.Done(): return *)
           destruct c; [|done]. simplify_eq.
           specialize (Hrank (FDone [val] buf) Hd). specialize (Hlive (FDone [val] buf) Hd).
           eexists. split; [|eapply (fan_intro _ _ (<[i:=FDone [val] buf]> ds)); try done].
           ++ simpl in *. lia.
           ++ by rewrite length_insert.
           ++ simpl in *. lia.
           ++ by eapply fan_order_same.
           ++ simpl. by rewrite (fan_chan_same _ _ _ _ _ Hd).
           ++ simpl. by rewrite <- fan_pool_insert.
        -- (* multiplexed <- val needs the consumer *)
           specialize (Hlive (FExit [] []) Hd).
           rewrite (fan_chan_out _ _ _ Hlen) in Hf. simpl in Hf.
           destruct cm; [|done]. inv Hw. simpl in *. exfalso. lia.
      * (* wg.Done() *)
        specialize (Hrank (FExit lost buf) Hd). specialize (Hlive (FExit lost buf) Hd).
        destruct n as [|n]; [exfalso; simpl in *; lia|]. simplify_eq.
        inv Hw.
        eexists. split; [|eapply (fan_intro _ _ (<[i:=FExit lost buf]> ds) _ _ _ _ _ 2); try done].
        -- simpl in *. lia.
        -- by rewrite length_insert.
        -- apply waiter_waiting.
        -- simpl in *. lia.
        -- by eapply fan_order_same.
        -- apply fan_settled_insert; [done|].
           intros Hc. specialize (Hset Hc).
           by apply (Forall_lookup_1 _ _ _ _ Hset Hd).
        -- simpl. by rewrite (fan_chan_same _ _ _ _ _ Hd).
        -- simpl. by rewrite <- fan_pool_insert.
      * done.
    + (* the waiting goroutine or the consumer *)
      rewrite (fan_pool_rest _ _ _ _ Hd) in Hf.
      apply lookup_ge_None in Hd.
      destruct (i - length ds) as [|[|k]] eqn:Hk; simpl in Hf; [| |done].
      * assert (i = length ds + 0) as -> by lia.
        inv Hw; simpl in Hf.
        -- destruct (sum_list_with fan_live ds) eqn:Hn; [|done]. simplify_eq.
           eexists. split; [|eapply (fan_intro _ _ ds _ _ _ _ _ 1); try done].
           ++ simpl. lia.
           ++ apply waiter_closing.
           ++ simpl. by rewrite fan_pool_insert_rest.
        -- rewrite (fan_chan_out _ _ _ Hlen) in Hf. simpl in Hf. simplify_eq.
           inv Hs.
           eexists. split; [|eapply (fan_intro _ _ ds _ _ true _ _ 0 1); try done].
           ++ simpl. lia.
           ++ rewrite <- H1. apply waiter_closed.
           ++ constructor.
           ++ simpl. by rewrite fan_chan_insert_out.
           ++ simpl. by rewrite fan_pool_insert_rest.
      * assert (i = length ds + 1) as -> by lia.
        inv Hs; simpl in Hf; try done.
        destruct b as [|b]; simpl in Hf; [|done].
        rewrite (fan_chan_out _ _ _ Hlen) in Hf. simpl in Hf.
        destruct cm; [|done]. simplify_eq.
        eexists. split; [|eapply (fan_intro _ _ ds _ _ _ _ _ _ 0); try done].
        -- simpl. lia.
        -- constructor.
        -- simpl. by rewrite fan_pool_insert_rest.
  - (* a drain hands a value to the consumer *)
    destruct (decide (i = j)) as [|Hij]; [done|].
    destruct (ds !! i) as [di|] eqn:Hdi.
    2:{ (* neither the waiting goroutine nor the consumer sends *)
        rewrite (fan_pool_rest _ _ _ _ Hdi) in Hf.
        destruct (i - length ds) as [|[|k]]; simpl in Hf; [| |done].
        - inv Hw; simpl in Hf; by destruct (_ !! j).
        - inv Hs; simpl in Hf; [|by destruct (_ !! j)].
          destruct (_ !! j) as [gj|]; simpl in Hf; [|done].
          destruct (next gj); try done.
          destruct bi as [|bi]; simpl in Hf; [|done].
          by destruct (cls !! bj). }
    rewrite (fan_pool_drain _ _ _ _ _ Hdi) in Hf. simpl in Hf.
    destruct di as [buf|val buf|lost buf|lost buf]; simpl in Hf.
    { destruct (_ !! j) as [gj|]; simpl in Hf; [|done].
      destruct (next gj); try done.
      destruct bi as [|bi]; simpl in Hf; [|done].
      by destruct (cls !! bj). }
    2,3: by destruct (_ !! j).
    destruct bi as [|[|bi]]; simpl in Hf.
    1,3: (destruct (_ !! j) as [gj|]; simpl in Hf; [|done];
          destruct (next gj); try done; by destruct (cls !! bj)).
    destruct (ds !! j) as [dj|] eqn:Hdj.
    { (* a drain receives from its own stream only *)
      rewrite (fan_pool_drain _ _ _ _ _ Hdj) in Hf. simpl in Hf.
      pose proof (lookup_lt_Some _ _ _ Hdj).
      destruct dj; simpl in Hf; try done.
      - destruct bj as [|bj]; simpl in Hf; [|done].
        destruct (decide (length xss = j)); [lia|done].
      - by destruct bj as [|[|bj]]. }
    rewrite (fan_pool_rest _ _ _ _ Hdj) in Hf.
    apply lookup_ge_None in Hdj.
    destruct (j - length ds) as [|[|k]] eqn:Hk; simpl in Hf; [| |done].
    { inv Hw; simpl in Hf; done. }
    assert (j = length ds + 1) as -> by lia.
    inv Hs; simpl in Hf; try done.
    destruct bj as [|bj]; simpl in Hf; [|done].
    destruct (decide (length xss = length xss)); [|done].
    rewrite (fan_chan_out _ _ _ Hlen) in Hf. simpl in Hf.
    destruct cm; [done|]. simplify_eq.
    pose proof (lookup_lt_Some _ _ _ Hdi) as Hi.
    pose proof (sum_list_insert fan_rank ds i _ (FRecv buf) Hdi) as Hrank.
    pose proof (sum_list_insert fan_live ds i _ (FRecv buf) Hdi) as Hlive.
    eexists. split; [|eapply (fan_intro _ _ (<[i:=FRecv buf]> ds) _ _ _ _ _ _ 1); try done].
    all: simpl in *.
    + lia.
    + by rewrite length_insert.
    + apply sink_ranging.
    + lia.
    + by eapply (fan_order_sent _ _ _ _ (FRecv buf)).
    + by apply fan_settled_insert.
    + rewrite fan_chan_insert_out by done.
      by rewrite (fan_chan_same _ _ _ _ _ Hdi).
    + change (GDrain (Some i) 0 (Some (length xss)))
        with (fan_goroutine (length xss) i (FRecv buf)).
      rewrite fan_pool_insert by lia.
      rewrite <- (length_insert ds i (FRecv buf)).
      by rewrite fan_pool_insert_rest.
Qed.

Lemma fan_occur (xss : list (list T)) (m : Mem) n w e w' :
  fan_inv xss m n w → occur e w = Some w' →
  ∃ n', n' + event_steps [e] ≤ n ∧ fan_inv xss m n' w'.
Proof.
  intros HI He. destruct e as [ch|]; simpl in He.
  - destruct (fan_step _ _ _ _ _ _ HI He) as (n' & Hn & HI').
    exists n'. split; [simpl; lia|done].
  - simplify_eq. exists n. split; [simpl; lia|].
    destruct HI. unfold cancel_ctx. simpl. by constructor.
Qed.

Lemma fan_drains_start (xss : list (list T)) :
  (λ c, GDrain c 0 (Some (length xss)) : goroutine) <$> (Some <$> seq 0 (length xss))
  = imap (fan_goroutine (length xss)) (FRecv <$> xss).
Proof.
  apply list_eq. intros i.
  rewrite list_lookup_imap, !list_lookup_fmap.
  destruct (xss !! i) as [xs|] eqn:Hx; simpl.
  - pose proof (lookup_lt_Some _ _ _ Hx).
    by rewrite (proj2 (lookup_seq 0 (length xss) i i)).
  - apply lookup_ge_None in Hx. by rewrite lookup_seq_ge.
Qed.

Lemma fan_chans_start (xss : list (list T)) :
  filled <$> xss = zip_with fan_chan xss (FRecv <$> xss).
Proof. induction xss as [|xs xss IH]; csimpl; [done|]. by rewrite IH. Qed.

Lemma fan_live_start (xss : list (list T)) :
  sum_list_with fan_live (FRecv <$> xss) = length xss.
Proof. induction xss as [|xs xss IH]; csimpl; [done|]. by rewrite IH. Qed.

Lemma fan_rank_start (xss : list (list T)) :
  sum_list_with fan_rank (FRecv <$> xss) = 2 * length (concat xss) + 2 * length xss.
Proof.
  induction xss as [|xs xss IH]; csimpl; [done|].
  rewrite IH, length_app. lia.
Qed.

Lemma fan_start (xss : list (list T)) (m : Mem) :
  fan_inv xss m (2 * length (concat xss) + 2 * length xss + 3) (fanin_world xss m).
Proof.
  unfold fanin_world, FanIn, bind, new_wg, make, go, ret. simpl.
  rewrite go_each_spec. simpl. rewrite length_fmap.
  eapply (fan_intro _ _ (FRecv <$> xss) _ _ _ [] _ 2 1).
  all: try apply waiter_waiting; try apply sink_ranging.
  all: rewrite ?length_fmap, ?fan_live_start, <- ?fan_chans_start,
         <- ?fan_drains_start, ?fan_rank_start, <- ?app_assoc; try done.
  - by rewrite length_seq.
  - exists (replicate (length xss) []). split; [constructor|].
    split; [by rewrite length_replicate|].
    intros i ps d xs Hps Hd Hxs. apply lookup_replicate_1 in Hps as [-> _].
    rewrite list_lookup_fmap, Hxs in Hd. by simplify_eq/=.
  - intros _. apply Forall_fmap, Forall_forall. by intros xs _.
  - simpl. by rewrite <- app_assoc.
  - lia.
Qed.

Lemma fanin_world_ctx (xss : list (list T)) (m : Mem) :
  ctx_done (fanin_world xss m) = false.
Proof.
  unfold fanin_world, FanIn, bind, new_wg, make, go, ret. simpl.
  by rewrite go_each_spec.
Qed.

Lemma fan_live_exists (ds : list fan_st) :
  0 < sum_list_with fan_live ds →
  ∃ i d, ds !! i = Some d ∧ fan_live d = 1.
Proof.
  induction ds as [|d ds IH]; simpl; [lia|].
  intros Hs. destruct (fan_live d) eqn:Hd.
  - destruct IH as (i & d' & ? & ?); [lia|]. by exists (S i), d'.
  - exists 0, d. split; [done|]. by destruct d.
Qed.

(** The streams as far as the drains have passed them on. *)
Lemma fan_order_prefixes (xss : list (list T)) (ds : list fan_st) hm :
  length ds = length xss → fan_order xss ds hm →
  ∃ pss, merged pss hm ∧ length pss = length xss
    ∧ ∀ i ps xs, pss !! i = Some ps → xss !! i = Some xs → ps `prefix_of` xs.
Proof.
  intros Hlen (pss & Hm & Hl & Hall). exists pss. split; [done|]. split; [done|].
  intros i ps xs Hps Hxs.
  destruct (lookup_lt_is_Some_2 ds i) as [d Hd].
  { apply lookup_lt_Some in Hxs. lia. }
  exists (fan_pending d). symmetry. eauto.
Qed.

(** Once every drain has returned with nothing given up, the output is an
    interleaving of the whole streams. *)
Lemma fan_order_whole (xss : list (list T)) (ds : list fan_st) hm :
  length ds = length xss → fan_order xss ds hm →
  sum_list_with fan_live ds = 0 → Forall fan_settled ds →
  merged xss hm.
Proof.
  intros Hlen (pss & Hm & Hl & Hall) Hlive Hset.
  assert (pss = xss) as ->; [|done].
  apply list_eq_same_length with (length xss); [done..|].
  intros i ps xs Hi Hps Hxs.
  destruct (lookup_lt_is_Some_2 ds i ltac:(lia)) as [d Hd].
  pose proof (Hall _ _ _ _ Hps Hd Hxs) as Heq.
  pose proof (sum_list_with_in _ fan_live _ (list_elem_of_lookup_2 _ _ _ Hd)) as Hle.
  pose proof (Forall_lookup_1 _ _ _ _ Hset Hd) as Hd'.
  destruct d; simpl in *; try lia. by rewrite Hd', app_nil_r in Heq.
Qed.

Lemma fan_enabled (xss : list (list T)) (m : Mem) r w st :
  fan_inv xss m r w → chans w !! length xss = Some st → closed st = false →
  ∃ ch w', fire ch w = Some w'.
Proof.
  intros HI Hst Hcl.
  destruct HI as [ds gw gs cm hm n nw ns c Hlen Hw Hs Hn Hord Hset].
  simpl in Hst. rewrite (fan_chan_out _ _ _ Hlen) in Hst. simplify_eq/=.
  unfold fire. simpl.
  destruct (sum_list_with fan_live ds) as [|k] eqn:Hk.
  - (* every drain has returned: wg.Wait() passes, then close *)
    exists (Solo (length ds + 0) 0).
    rewrite fan_pool_rest by (apply lookup_ge_None; lia).
    replace (length ds + 0 - length ds) with 0 by lia. simpl.
    inv Hw; simpl; [eauto|].
    rewrite (fan_chan_out _ _ _ Hlen). simpl. eauto.
  - destruct (fan_live_exists ds) as (i & d & Hd & Hlive); [lia|].
    pose proof (lookup_lt_Some _ _ _ Hd) as Hi.
    destruct (lookup_lt_is_Some_2 xss i ltac:(lia)) as [xs Hx].
    destruct d as [buf|val buf|lost buf|lost buf]; [| | |done].
    + exists (Solo i 0). rewrite (fan_pool_drain _ _ _ _ _ Hd). simpl.
      rewrite (fan_chan_drain _ _ _ _ _ _ Hx Hd). simpl.
      destruct buf; eauto.
    + exists (Sync i 1 (length ds + 1) 0).
      destruct (decide (i = length ds + 1)); [lia|].
      rewrite (fan_pool_drain _ _ _ _ _ Hd). simpl.
      rewrite fan_pool_rest by (apply lookup_ge_None; lia).
      replace (length ds + 1 - length ds) with 1 by lia. simpl.
      inv Hs. simpl.
      destruct (decide (length xss = length xss)); [|done].
      rewrite (fan_chan_out _ _ _ Hlen). simpl. eauto.
    + exists (Solo i 0). rewrite (fan_pool_drain _ _ _ _ _ Hd). simpl. eauto.
Qed.

(** X11: [FanIn] over streams that carry [xss] and are then closed, with a
    ranging consumer, the context being cancelled at any time or never.  The
    output is always an interleaving of prefixes of the input streams: a
    drain that sees the cancellation gives up the value it holds and
    returns, so nothing of its stream follows.  The output is closed before
    everything was passed on only after a cancellation.  Nothing panics, the
    run is never stuck before the close and the runtime makes at most
    [2 * (number of values) + 2 * len(channels) + 3] choices. *)
Theorem FanIn_under_cancellation (xss : list (list T)) (m : Mem) evs w :
  run_events evs (fanin_world xss m) = Some w →
  ∃ st, chans w !! length xss = Some st ∧ panicked w = false
    ∧ (∃ pss, merged pss (hist st) ∧ length pss = length xss
         ∧ ∀ i ps xs, pss !! i = Some ps → xss !! i = Some xs → ps `prefix_of` xs)
    ∧ (closed st = true → ctx_done w = true ∨ merged xss (hist st))
    ∧ (closed st = false → ∃ ch w', fire ch w = Some w')
    ∧ event_steps evs ≤ 2 * length (concat xss) + 2 * length xss + 3.
Proof.
  intros Hrun.
  destruct (run_events_measure _ (fan_occur xss m) _ _ _ _ (fan_start xss m) Hrun)
    as (n' & Hbound & HI).
  pose proof HI as HI'.
  destruct HI' as [ds gw gs cm hm n nw ns c Hlen Hw Hs Hn Hord Hset].
  eexists. split; [by apply fan_chan_out|]. simpl.
  split; [done|]. split; [by eapply fan_order_prefixes|].
  split.
  { intros ->. destruct c; [by left|right]. inv Hw.
    eapply fan_order_whole; eauto. }
  split; [|lia].
  intros ->. eapply (fan_enabled _ _ _ _ (ChanSt 0 [] false hm)); [done| |done].
  by apply fan_chan_out.
Qed.

(** X10: with the context never cancelled, whatever the schedule, the values
    [FanIn] has sent on its output are an interleaving of prefixes of the
    input streams: the values of each stream appear in the order of that
    stream.  Once the output is closed it is an interleaving of the whole
    streams, so each stream is a subsequence of the output. *)
Theorem FanIn_keeps_stream_order (xss : list (list T)) (m : Mem) sched w :
  run sched (fanin_world xss m) = Some w →
  ∃ st, chans w !! length xss = Some st
    ∧ (∃ pss, merged pss (hist st) ∧ length pss = length xss
         ∧ ∀ i ps xs, pss !! i = Some ps → xss !! i = Some xs → ps `prefix_of` xs)
    ∧ (closed st = true →
         merged xss (hist st) ∧ Forall (λ xs, xs `sublist_of` hist st) xss).
Proof.
  intros Hrun.
  pose proof (run_ctx_done _ _ _ Hrun) as Hctx.
  rewrite fanin_world_ctx in Hctx.
  rewrite run_as_events in Hrun.
  destruct (run_events_measure _ (fan_occur xss m) _ _ _ _ (fan_start xss m) Hrun)
    as (n' & _ & HI).
  destruct HI as [ds gw gs cm hm n nw ns c Hlen Hw Hs Hn Hord Hset].
  simpl in Hctx. subst c.
  eexists. split; [by apply fan_chan_out|]. simpl.
  split; [by eapply fan_order_prefixes|].
  intros ->. inv Hw.
  assert (merged xss hm) as Hm by (eapply fan_order_whole; eauto).
  split; [done|].
  apply Forall_forall. intros xs Hxs.
  apply list_elem_of_lookup in Hxs as [i Hxs]. by eapply merged_sublist.
Qed.

(** ** Tee under cancellation *)

Lemma tee_cancel_world_start (xs : list T) (m : Mem) :
  tee_cancel_world_inv xs m (6 * length xs + 8) (tee_world xs m).
Proof. apply tee_cancel_start. Qed.

Lemma tee_out_cancelled (H' : list T) v d side o h c :
  tee_out H' v d side o h c → tee_out H' v true side o h c.
Proof. intros Ho. inv Ho; by constructor. Qed.

Lemma tee_cancel_cancelled (H : list T) cv d (g : goroutine) stl str n :
  tee_cancel_inv H cv d g stl str n → tee_cancel_inv H cv true g stl str n.
Proof.
  intros Ht. inv Ht; try by constructor.
  eapply tcn_select; eauto using tee_out_cancelled. done.
Qed.

Lemma tee_cancel_od_closed (H : list T) cv d (g : goroutine) stl str n :
  tee_cancel_inv H cv d g stl str n → tee_cancel_inv H true d g stl str n.
Proof. intros Ht. inv Ht; try by constructor. by eapply tcn_select. Qed.

Lemma od_cancel_cancelled (xs : list T) c values (g : goroutine) b st d j n :
  od_cancel_inv xs c values g b st d j n → od_cancel_inv xs c values g b st true j n.
Proof. intros Ho. inv Ho; by econstructor. Qed.

(** What the premises say once the cancellation flag is known. *)
Ltac tee_c_norm :=
  simpl in *;
  repeat match goal with
  | H : true = false → _ |- _ => clear H
  | H : false = false → _ |- _ => specialize (H eq_refl)
  | H : _ ∧ _ |- _ => destruct H
  end.

Ltac tee_c_sub :=
  first
  [ eassumption
  | reflexivity
  | by (etrans; [eassumption|apply sublist_take])
  | by (eapply proj1, sublist_take_snoc)
  | by (eapply proj2, sublist_take_snoc)
  | by apply sublist_inserts_r
  | by (apply sublist_app; [eassumption|reflexivity]) ].

Ltac tee_c_eq :=
  simplify_eq;
  first
  [ reflexivity
  | by apply take_snoc_lookup
  | by (symmetry; apply take_all; lia)
  | by (apply take_all; lia)
  | by (etrans; [eassumption|apply take_all; lia])
  | lia ].

Ltac tee_c_side :=
  simpl;
  try (let Hd := fresh in intros Hd; try discriminate Hd);
  repeat split;
  lazymatch goal with
  | |- _ `sublist_of` _ => tee_c_sub
  | |- _ => first [done | lia | tee_c_eq]
  end.

Ltac tee_c_od :=
  lazymatch goal with
  | |- od_cancel_inv _ _ _ (GOrDone _ _) _ _ _ _ _ => eapply odc_recv
  | |- od_cancel_inv _ _ _ (GOrDoneSend _ _ _) _ _ _ _ _ => eapply odc_send
  | |- od_cancel_inv ?xs _ _ (GDeferred [_]) _ _ _ _ _ => eapply (odc_closing _ _ _ (length xs))
  | |- od_cancel_inv ?xs _ _ (GDeferred []) _ _ _ _ _ => eapply (odc_closed _ _ _ (length xs))
  end; tee_c_side.

Ltac tee_c_out :=
  lazymatch goal with
  | |- tee_out _ _ _ _ None _ _ => apply out_sent
  | |- tee_out _ _ _ _ (Some _) _ _ => apply out_open
  end; tee_c_side.

Ltac tee_c_tee :=
  lazymatch goal with
  | |- tee_cancel_inv _ _ _ (GTeeRange _ _ _) _ _ _ => apply tcn_range; tee_c_side
  | |- tee_cancel_inv _ _ _ (GTeeSelect _ _ _ _ _ _ _) _ _ _ =>
      eapply tcn_select; [reflexivity|tee_c_out|tee_c_out|lia|simpl; lia|tee_c_side|reflexivity]
  | |- tee_cancel_inv _ _ _ (GDeferred [_; _]) _ _ _ => apply tcn_closing_right; tee_c_side
  | |- tee_cancel_inv _ _ _ (GDeferred [_]) _ _ _ => apply tcn_closing_left; tee_c_side
  | |- tee_cancel_inv _ _ _ (GDeferred []) _ _ _ => apply tcn_closed; tee_c_side
  end.

Ltac tee_c_next :=
  eexists; split; cycle 1;
  [eapply tee_cancel_running; [simpl; tee_c_tee|tee_c_od|constructor|constructor]
  |simpl; lookup_bounds; lia].

Lemma tee_cancel_step (xs : list T) (m : Mem) n w e w' :
  tee_cancel_world_inv xs m n w → occur e w = Some w' →
  ∃ n', n' + event_steps [e] ≤ n ∧ tee_cancel_world_inv xs m n' w'.
Proof.
  intros HI Hf.
  destruct e as [ch|]; simpl in Hf; cycle 1.
  { simplify_eq. unfold cancel_ctx.
    destruct HI as [d|gt gl gr go bin stl str stv j d nt no nl nr Ht Ho Hl Hr]; simpl.
    - eexists. split; [|apply tee_cancel_start]. simpl. lia.
    - eexists. split; [|eapply tee_cancel_running; eauto using tee_cancel_cancelled, od_cancel_cancelled].
      simpl. lia. }
  destruct HI as [d|gt gl gr go bin stl str stv j d nt no nl nr Ht Ho Hl Hr].
  - fire_cases Hf. simplify_eq. wsimpl.
    eexists. split; cycle 1.
    + eapply (tee_cancel_running _ _ _ _ _ _ _ _ _ _ 0);
        [apply tcn_range|apply (odc_recv _ _ _ 0)|constructor|constructor]; simpl; try done.
    + simpl. lia.
  - inv Ht; inv Ho; inv Hl; inv Hr.
    all: repeat match goal with H : tee_out _ _ _ _ _ _ _ |- _ => inv H end.
    all: destruct d; fire_cases Hf.
    all: simplify_eq; wsimpl.
    all: tee_c_norm; simplify_eq.
    all: tee_c_next.
Qed.

Lemma od_cancel_sound (xs : list T) c values (g : goroutine) b st d j n :
  od_cancel_inv xs c values g b st d j n →
  hist st `sublist_of` xs ∧ (d = false → hist st `prefix_of` xs)
  ∧ (closed st = true → d = false → hist st = xs).
Proof.
  intros Ho. inv Ho; simpl.
  all: split; [first [done|by (etrans; [eassumption|apply sublist_take])]|].
  all: split; [|by auto].
  all: intros Hd; match goal with H : _ = false → _ |- _ => rewrite (H Hd) end.
  all: first [done|apply prefix_take].
Qed.

Lemma tee_cancel_sound (H : list T) cv d (g : goroutine) stl str n :
  tee_cancel_inv H cv d g stl str n →
  hist stl `sublist_of` H ∧ hist str `sublist_of` H
  ∧ (d = false → hist stl `prefix_of` H ∧ hist str `prefix_of` H)
  ∧ (closed stl = true →
       closed str = true ∧ cv = true ∧ (d = false → hist stl = H ∧ hist str = H)).
Proof.
  intros Ht. inv Ht; simpl.
  all: repeat match goal with H : tee_out _ _ _ _ _ _ _ |- _ => inv H end.
  all: split; [tee_c_sub|]. 
  all: split; [tee_c_sub|].
  all: split; [|by auto].
  all: intros Hd; tee_c_norm; simplify_eq.
  all: repeat match goal with
         | H : false = false → _ |- _ => specialize (H eq_refl)
         | H : _ ∧ _ |- _ => destruct H
         end; simplify_eq.
  all: split; first [done|by apply prefix_app_r].
Qed.


(** The choices to try in a world of Tee. *)
Ltac tee_c_try ch :=
  solve [exists ch; unfold fire; simpl;
         repeat (match goal with
                 | |- context [if ?x then _ else _] => destruct x eqn:?
                 | |- context [match drop ?j ?l with [] => _ | _ :: _ => _ end] =>
                     destruct (drop j l) eqn:?
                 end; simpl);
         eauto; congruence].

Ltac tee_c_enabled :=
  try lazymatch goal with
  | |- context [GTeeSelect _ _ _ ?i _ _ _] =>
      let Hi := fresh in
      destruct (i <? 2)%Z eqn:Hi;
        [try (exfalso; apply Z.ltb_lt in Hi; lia)|try (exfalso; apply Z.ltb_ge in Hi; lia)]
  end;
  first [ tee_c_try (Solo 0 0) | tee_c_try (Sync 0 1 1 0) | tee_c_try (Sync 0 2 2 0)
        | tee_c_try (Sync 3 0 0 0) | tee_c_try (Solo 3 0) | tee_c_try (Solo 3 1)
        | tee_c_try (Solo 1 0) | tee_c_try (Solo 2 0) ].

(** X12: [Tee] over a stream that carries [xs] and is then closed, each output
    ranged over by a consumer, the context being cancelled at any time or
    never.  Each output always carries a subsequence of [xs] in order, and a
    prefix of [xs] as long as the context is not cancelled.  [left] is closed
    last, and it is closed with values of [xs] missing on an output only if
    the context was cancelled.  Nothing panics, the run is never stuck before
    that close and the runtime makes at most [6 * len(xs) + 8] choices. *)
Theorem Tee_under_cancellation (xs : list T) (m : Mem) evs w :
  run_events evs (tee_world xs m) = Some w →
  ∃ stl str, chans w !! 1 = Some stl ∧ chans w !! 2 = Some str
    ∧ panicked w = false
    ∧ hist stl `sublist_of` xs ∧ hist str `sublist_of` xs
    ∧ (ctx_done w = false → hist stl `prefix_of` xs ∧ hist str `prefix_of` xs)
    ∧ (closed stl = true →
         closed str = true
         ∧ (ctx_done w = true ∨ (hist stl = xs ∧ hist str = xs)))
    ∧ (closed stl = false → ∃ ch w', fire ch w = Some w')
    ∧ event_steps evs ≤ 6 * length xs + 8.
Proof.
  intros Hrun.
  destruct (run_events_measure _ (tee_cancel_step xs m) _ _ _ _
              (tee_cancel_world_start xs m) Hrun) as (n' & Hlen & HI).
  destruct HI as [d|gt gl gr go bin stl str stv j d nt no nl nr Ht Ho Hl Hr].
  - do 2 eexists. do 2 (split; [reflexivity|]). simpl.
    split; [done|]. do 2 (split; [apply sublist_nil_l|]).
    split; [intros _; split; apply prefix_nil|].
    split; [done|]. split; [|lia].
    intros _. exists (Solo 0 0). unfold fire. simpl. eauto.
  - do 2 eexists. do 2 (split; [reflexivity|]). simpl.
    destruct (od_cancel_sound _ _ _ _ _ _ _ _ _ Ho) as (Hsv & Hpv & Hcv).
    destruct (tee_cancel_sound _ _ _ _ _ _ _ Ht) as (Hsl & Hsr & Hp & Hc).
    split; [done|].
    split; [by etrans|]. split; [by etrans|].
    split.
    { intros Hd. destruct (Hp Hd). specialize (Hpv Hd). split; by etrans. }
    split.
    { intros Hcl. destruct (Hc Hcl) as (? & Hcv' & Heq). split; [done|].
      destruct d; [by left|right].
      destruct Heq as [-> ->]; [done|]. rewrite Hcv by done. done. }
    split; [|lia].
    intros Hcl. clear Hsv Hpv Hcv Hsl Hsr Hp Hc.
    inv Ht; simpl in Hcl; try done; inv Ho; inv Hl; inv Hr.
    all: repeat match goal with H : tee_out _ _ _ _ _ _ _ |- _ => inv H end.
    all: destruct d; tee_c_norm.
    all: tee_c_enabled.
Qed.

(** ** Bridge under cancellation *)

Lemma length_inner_c (xss bs : list (list T)) d b :
  length (inner_c xss bs d b) = length xss.
Proof. apply length_imap. Qed.

Lemma length_closed_c (hs : list (list T)) : length (closed_c hs) = length hs.
Proof. apply length_fmap. Qed.

Lemma bc_chan_inner (xss bs : list (list T)) d b rest xs :
  xss !! d = Some xs →
  (inner_c xss bs d b ++ rest) !! d = Some (ChanSt (length xs) b true xs).
Proof.
  intros Hx. apply lookup_app_l_Some. unfold inner_c.
  rewrite list_lookup_imap, Hx. simpl.
  destruct (decide (d < d)); [lia|]. by destruct (decide (d = d)).
Qed.

Lemma bc_chan_out (xss bs : list (list T)) d b out rest :
  (inner_c xss bs d b ++ out :: rest) !! length xss = Some out.
Proof.
  rewrite lookup_app_r by (by rewrite length_inner_c).
  rewrite length_inner_c. by replace (length xss - length xss) with 0 by lia.
Qed.

Lemma bc_chan_dyn (xss bs hs : list (list T)) d b out stv :
  length hs = d →
  (inner_c xss bs d b ++ out :: (closed_c hs ++ [stv])) !! (length xss + 1 + d)
  = Some stv.
Proof.
  intros Hd. rewrite lookup_app_r by (rewrite length_inner_c; lia).
  rewrite length_inner_c.
  replace (length xss + 1 + d - length xss) with (S d) by lia. simpl.
  rewrite lookup_app_r by (rewrite length_closed_c; lia).
  rewrite length_closed_c. by replace (d - length hs) with 0 by lia.
Qed.

Lemma bc_insert_inner (xss bs : list (list T)) d b b' rest xs :
  xss !! d = Some xs →
  <[d:=ChanSt (length xs) b' true xs]> (inner_c xss bs d b ++ rest)
  = inner_c xss bs d b' ++ rest.
Proof.
  intros Hx. pose proof (lookup_lt_Some _ _ _ Hx).
  rewrite insert_app_l by (by rewrite length_inner_c). f_equal.
  apply list_eq. intros i. unfold inner_c.
  destruct (decide (d = i)) as [<-|Hne].
  - rewrite list_lookup_insert_eq by (by rewrite length_imap).
    rewrite list_lookup_imap, Hx. simpl.
    destruct (decide (d < d)); [lia|]. by destruct (decide (d = d)).
  - rewrite list_lookup_insert_ne by done. rewrite !list_lookup_imap.
    destruct (xss !! i); simpl; [|done].
    destruct (decide (i < d)); [done|]. by destruct (decide (i = d)).
Qed.

Lemma bc_insert_out (xss bs : list (list T)) d b out out' rest :
  <[length xss:=out']> (inner_c xss bs d b ++ out :: rest)
  = inner_c xss bs d b ++ out' :: rest.
Proof.
  replace (length xss) with (length (inner_c xss bs d b) + 0) at 1
    by (rewrite length_inner_c; lia).
  by rewrite insert_app_r.
Qed.

Lemma bc_insert_dyn (xss bs hs : list (list T)) d b out stv stv' :
  length hs = d →
  <[length xss + 1 + d:=stv']>
    (inner_c xss bs d b ++ out :: (closed_c hs ++ [stv]))
  = inner_c xss bs d b ++ out :: (closed_c hs ++ [stv']).
Proof.
  intros Hd.
  replace (length xss + 1 + d) with (length (inner_c xss bs d b) + S d)
    by (rewrite length_inner_c; lia).
  rewrite insert_app_r. simpl. do 2 f_equal.
  replace d with (length (closed_c hs) + 0) by (rewrite length_closed_c; lia).
  by rewrite insert_app_r.
Qed.

Lemma bc_chans_length (xss bs hs : list (list T)) d b out :
  length hs = d →
  length (inner_c xss bs d b ++ out :: (closed_c hs ++ [])) = length xss + 1 + d.
Proof.
  intros. rewrite length_app, length_inner_c. simpl.
  rewrite length_app, length_closed_c. simpl. lia.
Qed.

Lemma inner_c_next (xss bs : list (list T)) d b :
  length bs = d →
  inner_c xss bs d b = inner_c xss (bs ++ [b]) (S d) (default [] (xss !! S d)).
Proof.
  intros Hb. apply list_eq. intros i. unfold inner_c. rewrite !list_lookup_imap.
  destruct (xss !! i) as [xs|] eqn:Hx; simpl; [|done].
  do 2 f_equal.
  destruct (decide (i < d)), (decide (i < S d)), (decide (i = d)), (decide (i = S d));
    try done; try lia.
  - by rewrite lookup_app_l by lia.
  - subst i. rewrite lookup_app_r by lia.
    by replace (d - length bs) with 0 by lia.
  - subst. by rewrite Hx.
Qed.

Lemma inner_c_full (xss bs : list (list T)) d xs :
  xss !! d = Some xs →
  inner_c xss bs d (default [] (xss !! d)) = inner_c xss bs d xs.
Proof. by intros ->. Qed.

Lemma inner_c_start (xss : list (list T)) :
  inner_c xss [] 0 (default [] (xss !! 0)) = filled <$> xss.
Proof.
  apply list_eq. intros i. unfold inner_c.
  rewrite list_lookup_imap, list_lookup_fmap.
  destruct (xss !! i) as [xs|] eqn:Hx; simpl; [|done].
  unfold filled. do 2 f_equal.
  destruct (decide (i < 0)); [lia|].
  destruct (decide (i = 0)) as [->|]; [|done]. by rewrite Hx.
Qed.

Lemma closed_c_next (hs : list (list T)) h :
  closed_c hs ++ [ChanSt 0 [] true h] = closed_c (hs ++ [h]).
Proof. unfold closed_c. by rewrite fmap_app. Qed.

Lemma bridge_c_intro (xss : list (list T)) (m : Mem) d gb gs soff live dynlive b cl hout
    nb ns bs hs c N chs ss pl :
  chs = inner_c xss bs d b ++ ChanSt 0 [] cl hout :: (closed_c hs ++ dynlive) →
  ss = [drop soff (Some <$> seq 0 (length xss))] →
  pl = gb :: gs :: (replicate d (GDeferred []) ++ live) →
  d ≤ length xss → length bs = d → length hs = d →
  bridge_c_inv xss d c gb soff live dynlive b cl hout nb →
  sink_inv (Some (length xss)) gs cl ns →
  N = nb + ns →
  bridge_c_world_inv xss m N (World chs ss pl [] m c false).
Proof. intros. subst. by apply bridge_c_running. Qed.

Lemma bridge_c_cancelled (xss : list (list T)) d c (g : goroutine) soff live dyn b cl hout n :
  bridge_c_inv xss d c g soff live dyn b cl hout n →
  bridge_c_inv xss d true g soff live dyn b cl hout n.
Proof.
  intros Hb. inv Hb; try (by constructor).
  - eapply bc_range; eauto using od_cancel_cancelled; done.
  - eapply bc_send; eauto using od_cancel_cancelled; done.
Qed.

Lemma sublist_concat_take (xss : list (list T)) d :
  concat (take d xss) `sublist_of` concat xss.
Proof.
  destruct (bridge_hist_prefix_outer xss d) as [k ->]. by apply sublist_inserts_r.
Qed.

Lemma sublist_concat_take_S (xss : list (list T)) d xs h0 hd :
  xss !! d = Some xs →
  h0 `sublist_of` concat (take d xss) → hd `sublist_of` xs →
  h0 ++ hd `sublist_of` concat (take (S d) xss).
Proof.
  intros Hx H0 Hd. rewrite (take_S_r _ _ _ Hx), concat_app. simpl.
  rewrite app_nil_r. by apply sublist_app.
Qed.

Ltac bc_hout :=
  lazymatch goal with
  | |- (_ ++ _) ++ [_] = _ => by rewrite <- app_assoc
  | |- _ => reflexivity
  end.

Ltac bc_inv :=
  lazymatch goal with
  | |- bridge_c_inv _ _ _ (GBridgeRange _ _ _) _ _ _ _ _ _ _ =>
      eapply bc_range; cycle 6;
      [bc_hout
      |eassumption|tee_c_od|tee_c_side..]
  | |- bridge_c_inv _ _ _ (GBridgeSend _ _ _ _) _ _ _ _ _ _ _ =>
      eapply bc_send; cycle 7;
      [bc_hout
      |eassumption|tee_c_od|simpl; reflexivity|tee_c_side..]
  end.

Ltac bc_next :=
  lazymatch goal with
  | |- context [inner_c _ ?bs ?d _ ++ _ :: closed_c ?hs ++ _] =>
      eexists; split; cycle 1;
      [eapply (bridge_c_intro _ _ d _ _ _ _ _ _ _ _ _ _ bs hs);
         [reflexivity|reflexivity|reflexivity|done|done|done
         |bc_inv|apply sink_ranging|reflexivity]
      |simpl; lookup_bounds; lia]
  end.

Lemma bridge_c_step (xss : list (list T)) (m : Mem) n w e w' :
  bridge_c_world_inv xss m n w → occur e w = Some w' →
  ∃ n', n' + event_steps [e] ≤ n ∧ bridge_c_world_inv xss m n' w'.
Proof.
  intros HI Hf.
  destruct HI as [d gb gs soff live dynlive b cl hout nb ns bs hs c Hd Hbs Hhs Hb Hs].
  destruct e as [ch|]; simpl in Hf; cycle 1.
  { simplify_eq. unfold cancel_ctx. simpl.
    eexists. split; [|eapply bridge_c_running; eauto using bridge_c_cancelled].
    simpl. lia. }
  assert (∀ N, (∃ n', n' < N ∧ bridge_c_world_inv xss m n' w') →
            ∃ n', n' + event_steps [Step ch] ≤ N ∧ bridge_c_world_inv xss m n' w') as Hlt.
  { intros N (n' & ? & ?). exists n'. split; [simpl; lia|done]. }
  apply Hlt. clear Hlt.
  pose proof (conj Hbs Hhs) as Hlens. clear Hbs Hhs.
  assert (∀ h, h `sublist_of` concat (take d xss) → h `sublist_of` concat xss) as Hsub.
  { intros h Hh. etrans; [done|apply sublist_concat_take]. }
  inv Hb.
  - (* at the select over streams *)
    match type of Hf with context [World ?chs _ _ _ _ _ _] =>
      assert (chs !! length xss = Some (ChanSt 0 [] false hout))
        as Hout by apply bc_chan_out end.
    inv Hs.
    assert (length xss ≤ soff → hout `sublist_of` concat xss
              ∧ (c = false → hout = concat xss)) as Hend.
    { intros Hle. rewrite take_ge in * by lia. auto. }
    destruct c; bridge_cases Hf; simplify_eq; wsimpl.
    all: destruct Hlens as [Hbs Hhs].
    all: rewrite ?length_fmap, ?length_seq in *.
    + (* streams is closed *)
      destruct Hend as [? ?]; [done|].
      eexists. split; [|eapply (bridge_c_intro _ _ soff _ _ soff);
        [reflexivity| |reflexivity|done|done|done|by apply bc_closing|apply sink_ranging|reflexivity] ].
      * simpl. lia.
      * by rewrite drop_ge by (rewrite length_fmap, length_seq; lia).
    + (* the next inner stream *)
      match goal with H : _ !! soff = Some _ |- _ =>
        apply bridge_streams_next in H as [-> Hlt] end.
      destruct (lookup_lt_is_Some_2 xss soff Hlt) as [xs Hx].
      eexists. split; [|eapply (bridge_c_intro _ _ soff);
        [by rewrite Hx|reflexivity|reflexivity|done|done|done
        |by apply (bc_inner _ _ _ xs)|apply sink_ranging|reflexivity] ].
      simpl. lia.
    + (* case <-ctx.Done(): return *)
      eexists. split; [|eapply (bridge_c_intro _ _ soff);
        [reflexivity|reflexivity|reflexivity|done|done|done
        |apply bc_closing; [by auto|done]|apply sink_ranging|reflexivity] ].
      simpl. lia.
    + destruct Hend as [? ?]; [done|].
      eexists. split; [|eapply (bridge_c_intro _ _ soff _ _ soff);
        [reflexivity| |reflexivity|done|done|done|by apply bc_closing|apply sink_ranging|reflexivity] ].
      * simpl. lia.
      * by rewrite drop_ge by (rewrite length_fmap, length_seq; lia).
    + match goal with H : _ !! soff = Some _ |- _ =>
        apply bridge_streams_next in H as [-> Hlt] end.
      destruct (lookup_lt_is_Some_2 xss soff Hlt) as [xs Hx].
      eexists. split; [|eapply (bridge_c_intro _ _ soff);
        [by rewrite Hx|reflexivity|reflexivity|done|done|done
        |by apply (bc_inner _ _ _ xs)|apply sink_ranging|reflexivity] ].
      simpl. lia.
  - (* the call of OrDone *)
    match type of Hf with context [World ?chs _ _ _ _ _ _] =>
      assert (chs !! length xss = Some (ChanSt 0 [] false hout))
        as Hout by apply bc_chan_out end.
    inv Hs. bridge_cases Hf; simplify_eq; wsimpl.
    destruct Hlens as [Hbs Hhs].
    rewrite bc_chans_length by done.
    pose proof (bridge_cost_next _ _ _ H) as Hcost.
    eexists. split; [|eapply (bridge_c_intro _ _ d);
      [by rewrite app_nil_r, <- app_assoc|reflexivity|by rewrite app_nil_r
      |done|done|done
      |eapply (bc_range _ _ _ b _ _ _ 0 _ hout []);
         [done|by apply (odc_recv _ _ _ 0)|done|done|done|done|by rewrite app_nil_r]
      |apply sink_ranging
      |reflexivity] ].
    simpl. lia.
  - (* ranging over the output of OrDone *)
    destruct Hlens as [Hbs Hhs].
    match type of Hf with context [World ?chs _ _ _ _ _ _] =>
      assert (chs !! length xss = Some (ChanSt 0 [] false (h0 ++ hd)))
        as Hout by apply bc_chan_out;
      assert (chs !! d = Some (ChanSt (length xs) b true xs))
        as Hin by (by apply bc_chan_inner);
      assert (chs !! (length xss + 1 + d) = Some stv)
        as Hdyn by (by apply bc_chan_dyn)
    end.
    pose proof (lookup_lt_Some _ _ _ H) as Hlt.
    pose proof (conj Hbs Hhs) as Hlens. clear Hbs Hhs.
    inv Hs; inv H0; destruct c; bridge_cases Hf; simplify_eq; try (exfalso; lia); wsimpl.
    all: destruct Hlens as [Hbs Hhs].
    all: try (assert (i = d) as -> by lia; rewrite bridge_pool_insert).
    all: rewrite ?bc_insert_inner, ?bc_insert_dyn, ?bc_insert_out by done.
    all: clear Hout Hin Hdyn.
    all: tee_c_norm; simplify_eq.
    all: try bc_next.
    (* the range loop ends: back to the select over streams *)
    all: rewrite (inner_c_next _ _ _ _ eq_refl), closed_c_next, bridge_pool_next.
    all: eexists; (split; [|eapply (bridge_c_intro _ _ (S (length bs)) _ _ _ _ _ _ _ _ _ _
                                      (bs ++ [b]) (hs ++ [_]));
           [by rewrite app_nil_r|reflexivity|reflexivity|lia
           |rewrite length_app; simpl; lia|rewrite length_app; simpl; lia
           |apply bc_outer|apply sink_ranging|reflexivity] ]).
    all: try (simpl; lia).
    all: try (by intros).
    + eapply sublist_concat_take_S; [done|done|by etrans].
    + by eapply sublist_concat_take_S.
    + intros _. rewrite (take_S_r _ _ _ H), concat_app. simpl. by rewrite app_nil_r.
  - (* about to forward a value *)
    destruct Hlens as [Hbs Hhs].
    match type of Hf with context [World ?chs _ _ _ _ _ _] =>
      assert (chs !! length xss = Some (ChanSt 0 [] false (h0 ++ hd)))
        as Hout by apply bc_chan_out;
      assert (chs !! d = Some (ChanSt (length xs) b true xs))
        as Hin by (by apply bc_chan_inner);
      assert (chs !! (length xss + 1 + d) = Some stv)
        as Hdyn by (by apply bc_chan_dyn)
    end.
    pose proof (lookup_lt_Some _ _ _ H) as Hlt.
    pose proof (conj Hbs Hhs) as Hlens. clear Hbs Hhs.
    inv Hs; inv H0; destruct c; bridge_cases Hf; simplify_eq; try (exfalso; lia); wsimpl.
    all: destruct Hlens as [Hbs Hhs].
    all: try (assert (i = d) as -> by lia; rewrite bridge_pool_insert).
    all: rewrite ?bc_insert_inner, ?bc_insert_dyn, ?bc_insert_out by done.
    all: clear Hout Hin Hdyn.
    all: tee_c_norm; simplify_eq.
    all: bc_next.
  - (* close(values) *)
    match type of Hf with context [World ?chs _ _ _ _ _ _] =>
      assert (chs !! length xss = Some (ChanSt 0 [] false hout))
        as Hout by apply bc_chan_out end.
    inv Hs; bridge_cases Hf; simplify_eq; try (exfalso; lia); wsimpl.
    destruct Hlens as [Hbs Hhs].
    rewrite bc_insert_out.
    eexists; (split; [|eapply (bridge_c_intro _ _ soff _ _ soff _ _ _ _ _ _ _ bs hs);
      [reflexivity|reflexivity|reflexivity|done|done|done
      |by apply bc_closed|apply sink_ranging|reflexivity] ]).
    simpl. lia.
  - (* the consumer sees the close *)
    match type of Hf with context [World ?chs _ _ _ _ _ _] =>
      assert (chs !! length xss = Some (ChanSt 0 [] true hout))
        as Hout by apply bc_chan_out end.
    inv Hs; bridge_cases Hf; simplify_eq; try (exfalso; lia); wsimpl.
    destruct Hlens as [Hbs Hhs].
    eexists; (split; [|eapply (bridge_c_intro _ _ soff _ _ soff _ _ _ _ _ _ _ bs hs);
      [reflexivity|reflexivity|reflexivity|done|done|done
      |by apply bc_closed|apply sink_returned|reflexivity] ]).
    simpl. lia.
Qed.

Lemma bridge_c_world_start (xss : list (list T)) (m : Mem) :
  bridge_c_world_inv xss m (4 * length (concat xss) + 5 * length xss + 3)
    (bridge_world xss m).
Proof.
  unfold bridge_world, Bridge, bind, make, go, ret, world0. simpl.
  rewrite length_fmap.
  eapply (bridge_c_intro _ _ 0 _ _ 0 _ _ _ _ _ _ _ [] []);
    [by rewrite inner_c_start|reflexivity|reflexivity|lia|done|done
    |by apply bc_outer|apply sink_ranging|].
  rewrite bridge_cost_total, drop_0. lia.
Qed.

Lemma bridge_c_prefix (xss : list (list T)) d xs hd :
  xss !! d = Some xs → hd `prefix_of` xs →
  concat (take d xss) ++ hd `prefix_of` concat xss.
Proof.
  intros Hx Hp.
  replace (concat xss) with (concat (take d xss) ++ xs ++ concat (drop (S d) xss)).
  - by apply prefix_app, prefix_app_r.
  - rewrite <- (take_drop_middle xss d xs Hx) at 3. by rewrite concat_app.
Qed.

Lemma bridge_c_sublist (xss : list (list T)) d xs h0 hd :
  xss !! d = Some xs →
  h0 `sublist_of` concat (take d xss) → hd `sublist_of` xs →
  h0 ++ hd `sublist_of` concat xss.
Proof.
  intros Hx H0 Hd. etrans; [by eapply sublist_concat_take_S|].
  apply sublist_concat_take.
Qed.

Lemma bridge_c_sound (xss : list (list T)) d c (g : goroutine) soff live dyn b cl hout n :
  bridge_c_inv xss d c g soff live dyn b cl hout n →
  hout `sublist_of` concat xss
  ∧ (c = false → hout `prefix_of` concat xss)
  ∧ (cl = true → c = false → hout = concat xss).
Proof.
  assert (∀ h, h `sublist_of` concat (take d xss) → h `sublist_of` concat xss) as Hsub.
  { intros h Hh. etrans; [done|apply sublist_concat_take]. }
  intros Hb. inv Hb.
  - split; [by auto|]. split; [|done].
    intros Hc. rewrite H0 by done. apply bridge_hist_prefix_outer.
  - split; [by auto|]. split; [|done].
    intros Hc. rewrite H1 by done. apply bridge_hist_prefix_outer.
  - destruct (od_cancel_sound _ _ _ _ _ _ _ _ _ H0) as (Hs & Hp & _).
    split; [eapply bridge_c_sublist; [done|done|by etrans]|]. split; [|done].
    intros Hc. rewrite H2, H4 by done. apply bridge_c_prefix with xs; auto.
  - destruct (od_cancel_sound _ _ _ _ _ _ _ _ _ H0) as (Hs & Hp & _).
    rewrite H1 in Hs, Hp.
    split.
    { eapply bridge_c_sublist; [done|done|].
      etrans; [done|]. etrans; [|done]. by apply sublist_inserts_r. }
    split; [|done].
    intros Hc. rewrite H3, H5 by done. apply bridge_c_prefix with xs; [done|].
    etrans; [|by apply Hp]. by apply prefix_app_r.
  - split; [done|]. split; [|done]. intros Hc. by rewrite H0.
  - split; [done|]. split; [|by auto]. intros Hc. by rewrite H0.
Qed.

(** X13: [Bridge] over inner streams that carry [xss] and are then closed,
    with a ranging consumer, the context being cancelled at any time or
    never.  The output is always a subsequence of the inner streams'
    values taken stream after stream, and a prefix of them as long as the
    context is not cancelled; it is closed before everything was forwarded
    only after a cancellation.  Nothing panics, the run is never stuck
    before the close and the runtime makes at most
    [4 * (number of values) + 5 * (number of streams) + 3] choices. *)
Theorem Bridge_under_cancellation (xss : list (list T)) (m : Mem) evs w :
  run_events evs (bridge_world xss m) = Some w →
  ∃ st, chans w !! length xss = Some st ∧ panicked w = false
    ∧ hist st `sublist_of` concat xss
    ∧ (ctx_done w = false → hist st `prefix_of` concat xss)
    ∧ (closed st = true → ctx_done w = true ∨ hist st = concat xss)
    ∧ (closed st = false → ∃ ch w', fire ch w = Some w')
    ∧ event_steps evs ≤ 4 * length (concat xss) + 5 * length xss + 3.
Proof.
  intros Hrun.
  destruct (run_events_measure _ (bridge_c_step xss m) _ _ _ _
              (bridge_c_world_start xss m) Hrun) as (n' & Hbound & HI).
  destruct HI as [d gb gs soff live dynlive b cl hout nb ns bs hs c Hd Hbs Hhs Hb Hs].
  eexists. split; [by apply bc_chan_out|]. simpl.
  destruct (bridge_c_sound _ _ _ _ _ _ _ _ _ _ _ Hb) as (Hsub & Hpre & Hcl).
  split; [done|]. split; [done|]. split; [done|].
  split; [intros ->; destruct c; [by left|right; by apply Hcl]|].
  split; [|lia].
  clear Hsub Hpre Hcl.
  intros ->. unfold fire. simpl.
  inv Hb.
  - exists (Solo 0 0). simpl. destruct (drop _ _); eauto.
  - exists (Solo 0 0). simpl. eauto.
  - match goal with H : od_cancel_inv _ _ _ _ _ _ _ _ _ |- _ => inv H end.
    + exists (Solo (S (S (length bs))) 1). simpl.
      rewrite lookup_replicate_app. destruct (decide (length bs < length bs)); [lia|].
      replace (length bs - length bs) with 0 by lia. simpl.
      rewrite (bc_chan_inner _ _ _ _ _ xs) by done. simpl.
      destruct (drop j xs); eauto.
    + exists (Sync (S (S (length bs))) 0 0 0). simpl.
      rewrite lookup_replicate_app. destruct (decide (length bs < length bs)); [lia|].
      replace (length bs - length bs) with 0 by lia. simpl.
      destruct (decide (length xss + 1 + length bs = length xss + 1 + length bs)); [|done].
      rewrite bc_chan_dyn by done. simpl. eauto.
    + exists (Solo (S (S (length bs))) 0). simpl.
      rewrite lookup_replicate_app. destruct (decide (length bs < length bs)); [lia|].
      replace (length bs - length bs) with 0 by lia. simpl.
      rewrite bc_chan_dyn by done. simpl. eauto.
    + exists (Solo 0 0). simpl.
      rewrite bc_chan_dyn by done. simpl. eauto.
  - exists (Sync 0 0 1 0). simpl. inv Hs. simpl.
    destruct (decide (length xss = length xss)); [|done].
    rewrite bc_chan_out. simpl. eauto.
  - exists (Solo 0 0). simpl. rewrite bc_chan_out. simpl. eauto.
Qed.

(** ** Or with a single input *)

Lemma or_single_pool (i k : nat) :
  (λ _ : nat, GRange (Some i) : goroutine) <$> seq 0 k = replicate k (GRange (Some i)).
Proof.
  generalize 0. induction k as [|k IH]; intros s; simpl; [done|]. by rewrite IH.
Qed.

Lemma or_single_step (n i k : nat) (w w' : world) (e : or_event) st :
  pool w = replicate k (GRange (Some i)) → panicked w = false →
  chans w !! i = Some st → closed st = false →
  or_closes_input i e = false →
  or_occur n e w = Some w' →
  pool w' = replicate k (GRange (Some i)) ∧ panicked w' = false
  ∧ ∃ st', chans w' !! i = Some st' ∧ closed st' = false
      ∧ hist st' = hist st ++ or_delivered i [e].
Proof.
  intros Hpool Hpan Hst Hcl He Hoc.
  pose proof (lookup_lt_Some _ _ _ Hst) as Hi.
  assert (∀ j g, pool w !! j = Some g → g = GRange (Some i)) as Hg.
  { intros j g Hj. rewrite Hpool in Hj. by apply lookup_replicate_1 in Hj as [-> _]. }
  assert (∀ j g, pool w !! j = Some g → <[j:=GRange (Some i)]> (pool w) = pool w) as Hins.
  { intros j g Hj. apply list_insert_id. by rewrite Hj, (Hg _ _ Hj). }
  destruct e as [ch|c|c v|c v j bj]; simpl in Hoc, He.
  - (* a consumer moves: it can only take a buffered value *)
    unfold fire in Hoc. rewrite Hpan in Hoc.
    destruct ch as [j b|j bi j' bj].
    + destruct (pool w !! j) as [g|] eqn:Hj; simpl in Hoc; [|done].
      rewrite (Hg _ _ Hj) in Hoc. simpl in Hoc.
      destruct b as [|b]; simpl in Hoc; [|done].
      rewrite Hst in Hoc. simpl in Hoc.
      destruct (buf st) as [|v rest]; [by rewrite Hcl in Hoc|].
      simplify_eq. unfold resume, put_chan, set_pool, set_chans. simpl.
      rewrite (Hins _ _ Hj). split; [done|]. split; [done|].
      eexists. rewrite list_lookup_insert_eq by done. split; [done|]. simpl.
      split; [done|]. by rewrite app_nil_r.
    + destruct (decide (j = j')); [done|].
      destruct (pool w !! j) as [g|] eqn:Hj; simpl in Hoc; [|done].
      destruct (pool w !! j') as [g'|] eqn:Hj'; simpl in Hoc; [|done].
      rewrite (Hg _ _ Hj), (Hg _ _ Hj') in Hoc. simpl in Hoc.
      destruct bi as [|bi]; simpl in Hoc; [|done].
      by destruct bj as [|bj].
  - (* the owner closes another input *)
    apply bool_decide_eq_false in He.
    destruct (decide (c < n)); [|done].
    destruct (chans w !! c) as [stc|] eqn:Hc; simpl in Hoc; [|done].
    destruct (closed stc); simplify_eq.
    unfold put_chan, set_chans. simpl. split; [done|]. split; [done|].
    exists st. rewrite list_lookup_insert_ne by done.
    split; [done|]. split; [done|]. by rewrite app_nil_r.
  - (* a buffered send *)
    destruct (decide (c < n)); [|done].
    destruct (chans w !! c) as [stc|] eqn:Hc; simpl in Hoc; [|done].
    destruct (closed stc); [done|].
    destruct (decide (length (buf stc) < cap stc)); simplify_eq.
    unfold put_chan, set_chans. simpl. split; [done|]. split; [done|].
    destruct (decide (c = i)) as [->|Hne].
    + eexists. rewrite list_lookup_insert_eq by done. simplify_eq. done.
    + exists st. rewrite list_lookup_insert_ne by done.
      split; [done|]. split; [done|]. by rewrite app_nil_r.
  - (* a hand-off to a consumer *)
    destruct (decide (c < n)); [|done].
    destruct (chans w !! c) as [stc|] eqn:Hc; simpl in Hoc; [|done].
    destruct (pool w !! j) as [g|] eqn:Hj; simpl in Hoc; [|done].
    rewrite (Hg _ _ Hj) in Hoc. simpl in Hoc.
    destruct (closed stc); [done|]. destruct (buf stc); [|done].
    destruct bj as [|bj]; simpl in Hoc; [|done].
    destruct (decide (c = i)) as [->|Hne]; [|done]. simplify_eq.
    unfold resume, put_chan, set_pool, set_chans. simpl.
    rewrite (Hins _ _ Hj). split; [done|]. split; [done|].
    eexists. rewrite list_lookup_insert_eq by done.
    split; [done|]. split; [done|]. simpl. by destruct (decide (i = i)).
Qed.

Lemma or_single_run (n i k : nat) (evs : list or_event) (w w' : world) st :
  pool w = replicate k (GRange (Some i)) → panicked w = false →
  chans w !! i = Some st → closed st = false →
  existsb (or_closes_input i) evs = false →
  or_run n evs w = Some w' →
  pool w' = replicate k (GRange (Some i)) ∧ panicked w' = false
  ∧ ∃ st', chans w' !! i = Some st' ∧ closed st' = false
      ∧ hist st' = hist st ++ or_delivered i evs.
Proof.
  revert w st. induction evs as [|e evs IH]; intros w st Hpool Hpan Hst Hcl Hev Hrun;
    simpl in Hrun, Hev.
  - simplify_eq. split; [done|]. split; [done|]. exists st. by rewrite app_nil_r.
  - apply orb_false_iff in Hev as [He Hev].
    destruct (or_occur n e w) as [w1|] eqn:Hoc; simpl in Hrun; [|done].
    destruct (or_single_step _ _ _ _ _ _ _ Hpool Hpan Hst Hcl He Hoc)
      as (Hpool1 & Hpan1 & st1 & Hst1 & Hcl1 & Hh1).
    destruct (IH _ _ Hpool1 Hpan1 Hst1 Hcl1 Hev Hrun)
      as (Hpool' & Hpan' & st' & Hst' & Hcl' & Hh').
    split; [done|]. split; [done|]. exists st'. split; [done|]. split; [done|].
    rewrite Hh', Hh1, <- app_assoc. f_equal. simpl. by rewrite app_nil_r.
Qed.

(** C2: [Or] does not close the channel it returns when its single input
    delivers a value.  Called on one channel it returns that channel and
    starts no goroutine, so as long as the owner of the input does not close
    it, whatever the schedule and whatever values the input delivers, the
    returned channel is never closed: the values reach the consumers as
    values, the input has resolved as soon as one was delivered, every
    consumer is still in its loop and has seen no close.  Nothing panics. *)
Theorem Or_single_input_stays_open (heap : list chanst) i k (m : Mem) evs w st0 :
  heap !! i = Some st0 → closed st0 = false →
  existsb (or_closes_input i) evs = false →
  or_run (length heap) evs (or_client heap [Some i] k m) = Some w →
  (Or [Some i] (World heap [] [] [] m false false)).1 = Some i
  ∧ pool w = replicate k (GRange (Some i))
  ∧ panicked w = false
  ∧ ∃ st, chans w !! i = Some st ∧ closed st = false
      ∧ hist st = hist st0 ++ or_delivered i evs
      ∧ (or_delivered i evs ≠ [] → resolved st).
Proof.
  intros Hst0 Hcl0 Hev Hrun. split; [done|].
  unfold or_client in Hrun. simpl in Hrun. rewrite go_each_spec in Hrun.
  simpl in Hrun. rewrite or_single_pool in Hrun.
  unfold set_pool in Hrun. simpl in Hrun.
  eapply (or_single_run _ i k _ _ _ st0) in Hrun
    as (Hpool & Hpan & st & Hst & Hcl & Hh); [|done..].
  split; [done|]. split; [done|]. exists st. split; [done|]. split; [done|].
  split; [done|].
  intros Hd. right. rewrite Hh. by destruct (hist st0), (or_delivered i evs).
Qed.

End Proofs.

(** * The pipelines on concrete inputs *)

(** C1: [Take] does not stop at the end of a stream that closes before [num]
    values: once its output is closed it has sent the values of the stream
    followed by zero values, [num] values in all, which is not the first
    [min num (length xs)] values of the stream. *)
Theorem Take_past_closed_stream {T Mem} (zero : T) (xs : list T) num (m : Mem) sched w st :
  length xs < Z.to_nat num →
  run zero sched (take_world xs num m) = Some w →
  chans w !! 1 = Some st → closed st = true →
  hist st = xs ++ replicate (Z.to_nat num - length xs) zero
  ∧ length (hist st) = Z.to_nat num
  ∧ hist st ≠ take (Z.to_nat num `min` length xs) xs.
Proof.
  intros Hlen Hrun Hst Hcl.
  destruct (Take_sends_num_values zero xs num m sched w Hrun)
    as (st' & Hst' & _ & _ & Hout & _).
  simplify_eq. rewrite (Hout Hcl), take_output_pad, take_ge by lia.
  split; [done|]. split.
  - rewrite length_app, length_replicate. lia.
  - intros Heq. apply (f_equal length) in Heq.
    rewrite length_app, length_replicate, length_take in Heq. lia.
Qed.

Lemma Take_past_closed_stream_witness :
  ∃ w st,
    run 0%Z take_short_schedule (take_world [5%Z] 2 tt) = Some w
    ∧ chans w !! 1 = Some st ∧ closed st = true
    ∧ hist st = [5; 0]%Z
    ∧ hist st ≠ take (Z.to_nat 2 `min` length [5%Z]) [5%Z].
Proof.
  eexists _, _. split; [vm_compute; reflexivity|].
  split; [reflexivity|]. split; [reflexivity|].
  edestruct (Take_past_closed_stream 0%Z [5%Z] 2 tt take_short_schedule)
    as (H1 & _ & H3);
    [simpl; lia|vm_compute; reflexivity|reflexivity|reflexivity|].
  split; [exact H1|exact H3].
Defined.

(** C8: [Take] of [Repeat(ctx, 1, 2, 3)] with bound 7, the context never
    cancelled: whatever the schedule the output is a prefix of
    1, 2, 3, 1, 2, 3, 1, it is exactly that sequence once closed, and the run
    is never stuck before the close and is bounded. *)
Theorem Take_of_Repeat_seven sched w :
  run 0%Z sched (repeat_take_world [1; 2; 3]%Z 7 tt) = Some w →
  ∃ st, chans w !! 1 = Some st ∧ panicked w = false
    ∧ hist st `prefix_of` [1; 2; 3; 1; 2; 3; 1]%Z
    ∧ (closed st = true → hist st = [1; 2; 3; 1; 2; 3; 1]%Z)
    ∧ (closed st = false → ∃ ch w', fire 0%Z ch w = Some w')
    ∧ length sched ≤ 25.
Proof.
  intros Hrun.
  by apply (Take_of_Repeat 0%Z [1; 2; 3]%Z 7 tt sched w).
Qed.

Lemma Take_of_Repeat_seven_witness :
  ∃ w st,
    run 0%Z repeat_take_schedule (repeat_take_world [1; 2; 3]%Z 7 tt) = Some w
    ∧ chans w !! 1 = Some st ∧ closed st = true
    ∧ hist st = [1; 2; 3; 1; 2; 3; 1]%Z.
Proof.
  eexists _, _. split; [vm_compute; reflexivity|].
  split; [reflexivity|]. split; [reflexivity|].
  edestruct (Take_of_Repeat_seven repeat_take_schedule)
    as (st & Hst & _ & _ & Hout & _); [vm_compute; reflexivity|].
  injection Hst as <-. exact (Hout eq_refl).
Defined.

Lemma Tee_duplicates_witness :
  ∃ w stl str,
    run 0%Z tee_schedule (tee_world [1; 2]%Z tt) = Some w
    ∧ chans w !! 1 = Some stl ∧ chans w !! 2 = Some str
    ∧ closed stl = true ∧ closed str = true
    ∧ hist stl = [1; 2]%Z ∧ hist str = [1; 2]%Z.
Proof.
  eexists _, _, _. split; [vm_compute; reflexivity|].
  do 4 (split; [reflexivity|]).
  edestruct (Tee_duplicates 0%Z [1; 2]%Z tt tee_schedule)
    as (stl & str & Hl & Hr & _ & _ & _ & Hout & _); [vm_compute; reflexivity|].
  injection Hl as <-. injection Hr as <-.
  destruct (Hout eq_refl) as (_ & H1 & H2). split; [exact H1|exact H2].
Defined.

Lemma FanIn_merges_witness :
  ∃ w st,
    run 0%Z fanin_schedule (fanin_world [[1; 2]; [3]]%Z tt) = Some w
    ∧ chans w !! 2 = Some st ∧ closed st = true
    ∧ hist st ≡ₚ [1; 2; 3]%Z.
Proof.
  eexists _, _. split; [vm_compute; reflexivity|].
  split; [reflexivity|]. split; [reflexivity|].
  edestruct (FanIn_merges 0%Z [[1; 2]; [3]]%Z tt fanin_schedule)
    as (st & Hst & _ & _ & Hout & _); [vm_compute; reflexivity|].
  injection Hst as <-. exact (Hout eq_refl).
Defined.

Lemma Bridge_flattens_witness :
  ∃ w st,
    run 0%Z bridge_schedule (bridge_world ten_streams tt) = Some w
    ∧ chans w !! 10 = Some st ∧ closed st = true
    ∧ hist st = [0; 1; 2; 3; 4; 5; 6; 7; 8; 9]%Z.
Proof.
  eexists _, _. split; [vm_compute; reflexivity|].
  split; [reflexivity|]. split; [reflexivity|].
  edestruct (Bridge_flattens 0%Z ten_streams tt bridge_schedule)
    as (st & Hst & _ & _ & Hout & _); [vm_compute; reflexivity|].
  injection Hst as <-. exact (Hout eq_refl).
Defined.

Lemma Repeat_empty_spins_witness :
  ∃ w,
    run_events 0%Z [Step (Solo 0 0); CancelCtx; Step (Solo 0 0)]
      (repeat_world (@nil Z) tt false) = Some w
    ∧ ctx_done w = true
    ∧ chans w = [ChanSt 0 [] false []]
    ∧ fire 0%Z (Solo 0 0) w = Some w.
Proof.
  eexists. split; [vm_compute; reflexivity|]. split; [reflexivity|].
  edestruct (Repeat_empty_spins 0%Z tt false [Step (Solo 0 0); CancelCtx; Step (Solo 0 0)])
    as (Hc & _ & _ & _ & Hf & _); [vm_compute; reflexivity|].
  split; [exact Hc|exact Hf].
Defined.

Lemma Confine_sequential_witness :
  ∃ w st,
    run 0%Z confine_schedule (confine_world three_adds tt) = Some w
    ∧ chans w !! 0 = Some st ∧ closed st = true
    ∧ hist st = [5; 9; 13]%Z.
Proof.
  eexists _, _. split; [vm_compute; reflexivity|].
  split; [reflexivity|]. split; [reflexivity|].
  edestruct (Confine_sequential 0%Z three_adds tt confine_schedule)
    as (st & Hst & _ & _ & _ & Hout & _); [vm_compute; reflexivity|].
  injection Hst as <-. exact (f_equal fst (Hout eq_refl)).
Defined.

Lemma Or_recursion_terminates_witness :
  ∃ w,
    run 0%Z or_schedule
      (or_world four_channels [Some 0; Some 1; Some 2; Some 3] tt false) = Some w
    ∧ length (pool w) ≤ 2
    ∧ length ([Some 3] ++ [Some 4] : list chan) = 2.
Proof.
  eexists. split; [vm_compute; reflexivity|].
  destruct (Or_recursion_terminates 0%Z four_channels [Some 0; Some 1; Some 2; Some 3] tt false)
    as [Hrec Hrun].
  split.
  - edestruct (Hrun or_schedule) as [_ Hp]; [vm_compute; reflexivity|]. exact Hp.
  - destruct (Hrec (Some 0) (Some 1) (Some 2) [Some 3] (Some 4) eq_refl)
      as (k & _ & Hlen & _).
    exact Hlen.
Defined.

Lemma Or_single_input_stays_open_witness :
  ∃ w st,
    or_run 0%Z 1 or_single_events (or_client [ChanSt 1 [] false []] [Some 0] 1 tt) = Some w
    ∧ chans w !! 0 = Some st
    ∧ st = ChanSt 1 [] false [5%Z]
    ∧ resolved st ∧ closed st = false
    ∧ pool w = [GRange (Some 0)].
Proof.
  eexists _, _. split; [vm_compute; reflexivity|].
  split; [reflexivity|]. split; [reflexivity|].
  edestruct (Or_single_input_stays_open 0%Z [ChanSt 1 [] false []] 0 1 tt or_single_events)
    as (_ & Hpool & _ & st & Hst & Hcl & _ & Hres);
    [reflexivity|reflexivity|reflexivity|vm_compute; reflexivity|].
  injection Hst as <-.
  split; [apply Hres; discriminate|]. split; [exact Hcl|exact Hpool].
Defined.

Lemma Or_closes_once_witness :
  ∃ w st,
    or_run 0%Z 4 or_four_events
      (or_client (replicate 4 (ChanSt 0 [] false []))
         [Some 0; Some 1; Some 2; Some 3] 1 tt) = Some w
    ∧ chans w !! 4 = Some st ∧ closed st = true ∧ hist st = []
    ∧ panicked w = false
    ∧ pool w !! 1 = Some GReturn.
Proof.
  eexists _, _. split; [vm_compute; reflexivity|].
  split; [reflexivity|]. split; [reflexivity|].
  edestruct (Or_closes_once 0%Z (replicate 4 (ChanSt 0 [] false []))
               [Some 0; Some 1; Some 2; Some 3] 1 tt or_four_events)
    as (_ & st & Hst & Hpan & _ & Hhist & _ & _ & Hcons & _);
    [simpl; lia|repeat constructor|vm_compute; reflexivity|].
  simplify_eq/=. split; [done|]. split; [done|].
  destruct (Hcons 0 ltac:(lia)) as [[Hc _]|[Hc _]]; [done|exact Hc].
Defined.

(** ** Further properties on concrete inputs *)

Lemma Tee_outputs_in_lockstep_witness :
  ∃ w stl str,
    run 0%Z tee_half_schedule (tee_world [1; 2]%Z tt) = Some w
    ∧ chans w !! 1 = Some stl ∧ chans w !! 2 = Some str
    ∧ hist stl = [1%Z] ∧ hist str = []
    ∧ length (hist stl) ≤ S (length (hist str)).
Proof.
  eexists _, _, _. split; [vm_compute; reflexivity|].
  do 4 (split; [reflexivity|]).
  edestruct (Tee_outputs_in_lockstep 0%Z [1; 2]%Z tt tee_half_schedule)
    as (stl & str & j & Hl & Hr & _ & _ & Hle & _); [vm_compute; reflexivity|].
  injection Hl as <-. injection Hr as <-. exact Hle.
Defined.

Lemma Take_under_cancellation_witness :
  ∃ w st,
    run_events 0%Z take_cancel_events (take_world [1; 2; 3]%Z 3 tt) = Some w
    ∧ chans w !! 1 = Some st ∧ closed st = true ∧ ctx_done w = true
    ∧ hist st = [1%Z]
    ∧ hist st `prefix_of` take_output 0%Z [1; 2; 3]%Z (Z.to_nat 3).
Proof.
  eexists _, _. split; [vm_compute; reflexivity|].
  do 4 (split; [reflexivity|]).
  edestruct (Take_under_cancellation 0%Z [1; 2; 3]%Z 3 tt take_cancel_events)
    as (sti & st & _ & Hst & _ & Hpre & _); [vm_compute; reflexivity|].
  injection Hst as <-. exact Hpre.
Defined.

Lemma Take_leaves_the_rest_witness :
  ∃ w sti st,
    run 0%Z take_two_schedule (take_world [1; 2; 3]%Z 2 tt) = Some w
    ∧ chans w !! 0 = Some sti ∧ chans w !! 1 = Some st ∧ closed st = true
    ∧ hist st = take (Z.to_nat 2) [1; 2; 3]%Z
    ∧ buf sti = drop (Z.to_nat 2) [1; 2; 3]%Z.
Proof.
  eexists _, _, _. split; [vm_compute; reflexivity|].
  do 3 (split; [reflexivity|]).
  edestruct (Take_leaves_the_rest 0%Z [1; 2; 3]%Z 2 tt take_two_schedule)
    as (sti & st & Hsti & Hst & _ & Hout); [simpl; lia|vm_compute; reflexivity|].
  injection Hsti as <-. injection Hst as <-. exact (Hout eq_refl).
Defined.

Lemma Take_waiting_ignores_cancellation_witness :
  ∃ w,
    run_events 0%Z [CancelCtx] (take_waiting_world 0 1 (tt : unit)) = Some w
    ∧ ctx_done w = true
    ∧ pool w = [GTake (Some 0) 1 0 (Some 1); GRange (Some 1)]
    ∧ ∀ ch, fire (0%Z : Z) ch w = None.
Proof.
  eexists. split; [vm_compute; reflexivity|]. split; [reflexivity|].
  edestruct (Take_waiting_ignores_cancellation 0%Z 0 1 tt [CancelCtx])
    as (_ & Hp & _ & Hf & _); [lia|vm_compute; reflexivity|].
  split; [exact Hp|exact Hf].
Defined.

Lemma Confine_never_blocks_witness :
  ∃ w st,
    run 0%Z confine_alone_schedule (confine_alone_world three_adds tt) = Some w
    ∧ chans w !! 0 = Some st ∧ closed st = true
    ∧ buf st = [5; 9; 13]%Z.
Proof.
  eexists _, _. split; [vm_compute; reflexivity|].
  split; [reflexivity|]. split; [reflexivity|].
  edestruct (Confine_never_blocks 0%Z three_adds tt confine_alone_schedule)
    as (st & Hst & _ & _ & _ & _ & Hout & _); [vm_compute; reflexivity|].
  injection Hst as <-. exact (f_equal fst (Hout eq_refl)).
Defined.

Lemma Or_leaves_no_goroutine_witness :
  ∃ w,
    or_run 0%Z 4 or_four_events
      (or_client (replicate 4 (ChanSt 0 [] false []))
         [Some 0; Some 1; Some 2; Some 3] 1 tt) = Some w
    ∧ pool w = [GDeferred []; GReturn; GDeferred []]
    ∧ or_moves or_four_events ≤ 3 * 4 + 1.
Proof.
  eexists. split; [vm_compute; reflexivity|]. split; [reflexivity|].
  edestruct (Or_leaves_no_goroutine 0%Z (replicate 4 (ChanSt 0 [] false []))
               [Some 0; Some 1; Some 2; Some 3] 1 tt or_four_events)
    as [_ Hm];
    [simpl; lia|repeat constructor|vm_compute; reflexivity| |exact Hm].
  exists 3, (ChanSt 0 [] false [7%Z]).
  split; [repeat constructor|]. split; [reflexivity|]. by right.
Defined.

Lemma OrDone_under_cancellation_witness :
  ∃ w st,
    run_events 0%Z ordone_cancel_events (ordone_world [1; 2; 3]%Z tt) = Some w
    ∧ chans w !! 1 = Some st ∧ closed st = true ∧ ctx_done w = true
    ∧ hist st = [1; 3]%Z
    ∧ hist st `sublist_of` [1; 2; 3]%Z.
Proof.
  eexists _, _. split; [vm_compute; reflexivity|].
  do 4 (split; [reflexivity|]).
  edestruct (OrDone_under_cancellation 0%Z [1; 2; 3]%Z tt ordone_cancel_events)
    as (st & Hst & _ & Hsub & _); [vm_compute; reflexivity|].
  injection Hst as <-. exact Hsub.
Defined.

Lemma Repeat_cycles_until_cancelled_witness :
  ∃ w st,
    run_events 0%Z repeat_cancel_events (repeat_world [1; 2; 3]%Z tt false) = Some w
    ∧ chans w !! 0 = Some st ∧ closed st = true
    ∧ hist st = [1; 2; 3; 1; 2]%Z
    ∧ ctx_done w = true.
Proof.
  eexists _, _. split; [vm_compute; reflexivity|].
  do 3 (split; [reflexivity|]).
  edestruct (Repeat_cycles_until_cancelled 0%Z [1; 2; 3]%Z tt false repeat_cancel_events)
    as (st & Hst & _ & _ & Hcl & _); [done|vm_compute; reflexivity|].
  injection Hst as <-. exact (Hcl eq_refl).
Defined.

Lemma Pipeline_under_cancellation_witness :
  ∃ w st,
    run_events 0%Z pipeline_cancel_events (repeat_take_world [1; 2; 3]%Z 3 tt) = Some w
    ∧ chans w !! 1 = Some st ∧ ctx_done w = true
    ∧ hist st = [1; 0]%Z
    ∧ ∃ a z, hist st = repeat_output 0%Z [1; 2; 3]%Z a ++ replicate z 0%Z
             ∧ a + z ≤ Z.to_nat 3.
Proof.
  eexists _, _. split; [vm_compute; reflexivity|].
  do 3 (split; [reflexivity|]).
  edestruct (Pipeline_under_cancellation 0%Z [1; 2; 3]%Z 3 tt pipeline_cancel_events)
    as (st & a & z & Hst & _ & Hh & Hle & _); [done|vm_compute; reflexivity|].
  injection Hst as <-. exists a, z. split; [exact Hh|exact Hle].
Defined.

Lemma FanIn_keeps_stream_order_witness :
  ∃ w st,
    run 0%Z fanin_interleaved_schedule (fanin_world [[1; 2]; [3]]%Z tt) = Some w
    ∧ chans w !! 2 = Some st ∧ closed st = true
    ∧ hist st = [1; 3; 2]%Z
    ∧ merged [[1; 2]; [3]]%Z (hist st).
Proof.
  eexists _, _. split; [vm_compute; reflexivity|].
  do 3 (split; [reflexivity|]).
  edestruct (FanIn_keeps_stream_order 0%Z [[1; 2]; [3]]%Z tt fanin_interleaved_schedule)
    as (st & Hst & _ & Hcl); [vm_compute; reflexivity|].
  injection Hst as <-. exact (proj1 (Hcl eq_refl)).
Defined.

Lemma FanIn_under_cancellation_witness :
  ∃ w st,
    run_events 0%Z fanin_cancel_events (fanin_world [[1; 2]; [3]]%Z tt) = Some w
    ∧ chans w !! 2 = Some st ∧ closed st = true ∧ ctx_done w = true
    ∧ hist st = [1; 3]%Z
    ∧ ∃ pss, merged pss (hist st) ∧ length pss = 2.
Proof.
  eexists _, _. split; [vm_compute; reflexivity|].
  do 4 (split; [reflexivity|]).
  edestruct (FanIn_under_cancellation 0%Z [[1; 2]; [3]]%Z tt fanin_cancel_events)
    as (st & Hst & _ & (pss & Hm & Hl & _) & _); [vm_compute; reflexivity|].
  injection Hst as <-. exists pss. split; [exact Hm|exact Hl].
Defined.

Lemma Tee_under_cancellation_witness :
  ∃ w stl str,
    run_events 0%Z tee_cancel_events (tee_world [1; 2]%Z tt) = Some w
    ∧ chans w !! 1 = Some stl ∧ chans w !! 2 = Some str
    ∧ closed stl = true ∧ closed str = true ∧ ctx_done w = true
    ∧ hist stl = [1%Z] ∧ hist str = []
    ∧ hist stl `sublist_of` [1; 2]%Z.
Proof.
  eexists _, _, _. split; [vm_compute; reflexivity|].
  do 7 (split; [reflexivity|]).
  edestruct (Tee_under_cancellation 0%Z [1; 2]%Z tt tee_cancel_events)
    as (stl & str & Hl & _ & _ & Hsub & _); [vm_compute; reflexivity|].
  injection Hl as <-. exact Hsub.
Defined.

Lemma Bridge_under_cancellation_witness :
  ∃ w st,
    run_events 0%Z bridge_cancel_events (bridge_world [[1; 2]; [3]]%Z tt) = Some w
    ∧ chans w !! 2 = Some st ∧ closed st = true ∧ ctx_done w = true
    ∧ hist st = [1; 3]%Z
    ∧ hist st `sublist_of` concat [[1; 2]; [3]]%Z.
Proof.
  eexists _, _. split; [vm_compute; reflexivity|].
  do 4 (split; [reflexivity|]).
  edestruct (Bridge_under_cancellation 0%Z [[1; 2]; [3]]%Z tt bridge_cancel_events)
    as (st & Hst & _ & Hsub & _); [vm_compute; reflexivity|].
  injection Hst as <-. exact Hsub.
Defined.
